(** * OTMS pre-enrolment auto-fill: a shallow embedding of [automation.py]

    The development follows the source file top to bottom:

    - Python string operations used by the helpers ([str.strip], [str.lower],
      [re.sub], [in], [str.split], [str.join]);
    - the document resolver ([_norm], [find_person_folder],
      [find_pdf_by_prefix]) over a snapshot of the file system;
    - the XPath literal builder [_xpath_literal], with a reader for the
      XPath 1.0 literal / [concat] fragment it targets;
    - the Selenium-facing code ([by_label_input], [by_label_select],
      [click_button_with_text], [fill_text_with_retry],
      [select_with_retry], [fill_otms_form]) as programs over the calls
      they make to the browser, the clock, the console and the session
      callbacks;
    - the normalisation of column names ([norm_cols]).

    Strings are byte strings (UTF-8).  Whitespace and case folding are
    modelled on the ASCII range, where they agree with Python's [str]
    methods character by character. *)

From Stdlib Require Import String Ascii List Bool Arith ZArith Lia.
Import ListNotations.
Open Scope string_scope.

(* ================================================================== *)
(** ** Python string operations *)

Module PyStr.

(** [str.isspace] on the ASCII range: TAB, LF, VT, FF, CR, the four
    separators FS, GS, RS, US, and SPACE.  The same set is matched by the
    regular expression class [\s] on [str] patterns. *)
Definition is_space (c : ascii) : bool :=
  let n := nat_of_ascii c in
  (((9 <=? n) && (n <=? 13)) || ((28 <=? n) && (n <=? 32)))%nat.

Fixpoint lstrip (s : string) : string :=
  match s with
  | EmptyString => EmptyString
  | String c s' => if is_space c then lstrip s' else s
  end.

Fixpoint rstrip (s : string) : string :=
  match s with
  | EmptyString => EmptyString
  | String c s' =>
      match rstrip s' with
      | EmptyString => if is_space c then EmptyString else String c EmptyString
      | r => String c r
      end
  end.

(** [s.strip()] *)
Definition strip (s : string) : string := rstrip (lstrip s).

Definition lower_char (c : ascii) : ascii :=
  let n := nat_of_ascii c in
  if ((65 <=? n) && (n <=? 90))%nat then ascii_of_nat (n + 32) else c.

(** [s.lower()] *)
Fixpoint lower (s : string) : string :=
  match s with
  | EmptyString => EmptyString
  | String c s' => String (lower_char c) (lower s')
  end.

(** [re.sub] of the pattern [\s+] by one space: every maximal run of
    whitespace becomes one space.  [in_run] records that the previous character was whitespace. *)
Fixpoint collapse_ws_from (in_run : bool) (s : string) : string :=
  match s with
  | EmptyString => EmptyString
  | String c s' =>
      if is_space c
      then (if in_run then collapse_ws_from true s'
            else String " " (collapse_ws_from true s'))
      else String c (collapse_ws_from false s')
  end.

Definition collapse_ws (s : string) : string := collapse_ws_from false s.

(** [needle in hay] *)
Fixpoint contains (needle hay : string) : bool :=
  match hay with
  | EmptyString => String.prefix needle EmptyString
  | String _ hay' => String.prefix needle hay || contains needle hay'
  end.

(** [s.endswith(suffix)] *)
Fixpoint endswith (s suffix : string) : bool :=
  match s with
  | EmptyString => String.eqb suffix EmptyString
  | String _ s' => String.eqb s suffix || endswith s' suffix
  end.

(** [re.sub(r'[...]', '', s)] for a character class given as a predicate. *)
Fixpoint remove_chars (bad : ascii -> bool) (s : string) : string :=
  match s with
  | EmptyString => EmptyString
  | String c s' =>
      if bad c then remove_chars bad s' else String c (remove_chars bad s')
  end.

(** [s.split(sep)] for a one-character separator: always at least one
    part, one more part than there are separators. *)
Fixpoint split_on (sep : ascii) (s : string) : list string :=
  match s with
  | EmptyString => [EmptyString]
  | String c s' =>
      if Ascii.eqb c sep then EmptyString :: split_on sep s'
      else match split_on sep s' with
           | p :: ps => String c p :: ps
           | [] => [String c EmptyString]
           end
  end.

(** [sep.join(parts)] *)
Fixpoint join (sep : string) (parts : list string) : string :=
  match parts with
  | [] => EmptyString
  | [p] => p
  | p :: ps => p ++ sep ++ join sep ps
  end.

(** Truthiness of a [str]: the empty string is falsy. *)
Definition truthy (s : string) : bool :=
  match s with EmptyString => false | _ => true end.

(** Truthiness of an optional string ([None] and the empty string are falsy). *)
Definition truthy_opt (o : option string) : bool :=
  match o with Some s => truthy s | None => false end.

End PyStr.

Import PyStr.

(** [_norm] (lines 159-161): trim, lower-case, collapse whitespace runs. *)
Definition _norm (s : string) : string := collapse_ws (lower (strip s)).

(* ================================================================== *)
(** ** Exceptions *)

(** The exception classes the source distinguishes.  Everything modelled
    here derives from [Exception]; [StaleElementReferenceException] and
    [TimeoutException] are the two classes the retry loops treat as
    transient. *)
Inductive exn_class : Type :=
| StaleElementReferenceException
| TimeoutException
| RuntimeError
| OSError
| OtherException.

Record exn : Type := mk_exn { exn_cls : exn_class; exn_msg : string }.

(** [str(e)] *)
Definition str_exn (e : exn) : string := exn_msg e.

(** [str(last_err)] where [last_err] may still be [None]. *)
Definition str_last_err (o : option exn) : string :=
  match o with Some e => str_exn e | None => "None" end.

(** Matches [except (StaleElementReferenceException, TimeoutException)]. *)
Definition is_transient (e : exn) : bool :=
  match exn_cls e with
  | StaleElementReferenceException | TimeoutException => true
  | _ => false
  end.

(** A call either returns a value or raises. *)
Definition result (A : Type) : Type := (A + exn)%type.

(* ================================================================== *)
(** ** Document resolver (lines 173-219) *)

(** The part of [os], [os.path] and [glob] the resolver uses, as a
    snapshot of the file system during one call.  [listdir] raises on a
    path that cannot be listed; the other queries never raise on a
    string argument. *)
Record FileSystem : Type := {
  path_join : string -> string -> string;       (* os.path.join *)
  path_basename : string -> string;             (* os.path.basename *)
  abspath : string -> string;                   (* os.path.abspath *)
  isdir : string -> bool;                       (* os.path.isdir *)
  isfile : string -> bool;                      (* os.path.isfile *)
  listdir : string -> result (list string);     (* os.listdir *)
  glob : string -> list string                  (* glob.glob *)
}.

Section Resolver.

Variable fs : FileSystem.

(** First loop of [find_person_folder] (lines 178-181). *)
Fixpoint person_folder_exact (base_dir target : string) (entries : list string)
  : option string :=
  match entries with
  | [] => None
  | entry :: rest =>
      let full := path_join fs base_dir entry in
      if isdir fs full && String.eqb (_norm entry) target
      then Some full
      else person_folder_exact base_dir target rest
  end.

(** Second loop of [find_person_folder] (lines 183-186). *)
Fixpoint person_folder_fuzzy (base_dir target : string) (entries : list string)
  : option string :=
  match entries with
  | [] => None
  | entry :: rest =>
      let full := path_join fs base_dir entry in
      if isdir fs full && contains target (_norm entry)
      then Some full
      else person_folder_fuzzy base_dir target rest
  end.

(** [find_person_folder] (lines 173-187).  The directory is listed once
    per loop. *)
Definition find_person_folder (base_dir person_name : string)
  : result (option string) :=
  let target := _norm person_name in
  if negb (isdir fs base_dir) then inl None
  else
    match listdir fs base_dir with
    | inr e => inr e
    | inl entries =>
        match person_folder_exact base_dir target entries with
        | Some full => inl (Some full)
        | None =>
            match listdir fs base_dir with
            | inr e => inr e
            | inl entries' =>
                inl (person_folder_fuzzy base_dir target entries')
            end
        end
    end.

(** The character class of line 200: backslash, slash, colon, star,
    question mark, double quote, angle brackets and vertical bar. *)
Definition illegal_filename_char (c : ascii) : bool :=
  match nat_of_ascii c with
  | 92 | 47 | 58 | 42 | 63 | 34 | 60 | 62 | 124 => true
  | _ => false
  end.

(** [base] of line 200. *)
Definition pdf_base (person_name : string) : string :=
  strip (remove_chars illegal_filename_char person_name).

(** [candidates] of lines 201-205: the three constructed names, then the
    glob results. *)
Definition pdf_candidates (folder code_prefix person_name : string)
  : list string :=
  map (fun sep =>
         path_join fs folder (code_prefix ++ sep ++ pdf_base person_name ++ ".pdf"))
      [" "; "_"; "-"]
  ++ glob fs (path_join fs folder (code_prefix ++ "*.pdf")).

(** The test of lines 210 and 216: a regular file whose lower-cased path
    ends in [.pdf]. *)
Definition existing_pdf (p : string) : bool :=
  isfile fs p && endswith (lower p) ".pdf".

(** The inner test of line 211. *)
Definition names_person (lname p : string) : bool :=
  contains lname (_norm (path_basename fs p)).

(** Loop of lines 209-212. *)
Fixpoint pdf_preferred (lname : string) (candidates : list string)
  : option string :=
  match candidates with
  | [] => None
  | p :: rest =>
      if existing_pdf p
      then (if names_person lname p then Some p else pdf_preferred lname rest)
      else pdf_preferred lname rest
  end.

(** Loop of lines 215-217. *)
Fixpoint pdf_fallback (candidates : list string) : option string :=
  match candidates with
  | [] => None
  | p :: rest => if existing_pdf p then Some p else pdf_fallback rest
  end.

(** [find_pdf_by_prefix] (lines 189-219).  [folder] is optional because
    line 196 also guards against [None]. *)
Definition find_pdf_by_prefix (folder : option string)
    (code_prefix person_name : string) : option string :=
  match folder with
  | None => None
  | Some dir =>
      if negb (truthy dir) || negb (isdir fs dir) then None
      else
        let candidates := pdf_candidates dir code_prefix person_name in
        let lname := _norm (pdf_base person_name) in
        match pdf_preferred lname candidates with
        | Some p => Some p
        | None => pdf_fallback candidates
        end
  end.

End Resolver.

(* ================================================================== *)
(** ** XPath literal builder (lines 163-171) *)

Definition apostrophe : ascii := "'"%char.
Definition dquote : ascii := ascii_of_nat 34.

(** [c in s] for a single character. *)
Fixpoint has_char (c : ascii) (s : string) : bool :=
  match s with
  | EmptyString => false
  | String d s' => Ascii.eqb d c || has_char c s'
  end.

(** The two f-strings of lines 166 and 168: the text between apostrophes,
    and the text between double quotes. *)
Definition squoted (p : string) : string :=
  String apostrophe (p ++ String apostrophe EmptyString).
Definition dquoted (p : string) : string :=
  String dquote (p ++ String dquote EmptyString).

(** The separator of line 171: comma, space, a double-quoted apostrophe,
    comma, space. *)
Definition concat_separator : string :=
  ", " ++ dquoted (String apostrophe EmptyString) ++ ", ".

Definition _xpath_literal (s : string) : string :=
  if negb (has_char apostrophe s) then squoted s
  else if negb (has_char dquote s) then dquoted s
  else "concat(" ++ join concat_separator (map squoted (split_on apostrophe s)) ++ ")".

(* ================================================================== *)
(** ** A reader for the XPath 1.0 fragment the builder targets

    XPath 1.0 defines [Literal] as a run of characters without double
    quote between double quotes, or a run without apostrophe between
    apostrophes, and [concat] as a function of two or more arguments that
    returns the concatenation of their string values; white space may
    separate tokens.  The reader below accepts exactly one such literal,
    or one call of [concat] on literals, and returns the string value. *)

Module XPath.

(** White space of the XPath grammar: space, tab, line feed, carriage
    return. *)
Definition is_ws (c : ascii) : bool :=
  match nat_of_ascii c with
  | 32 | 9 | 10 | 13 => true
  | _ => false
  end.

Definition is_quote (c : ascii) : bool :=
  Ascii.eqb c apostrophe || Ascii.eqb c dquote.

Fixpoint all_ws (s : string) : bool :=
  match s with
  | EmptyString => true
  | String c s' => is_ws c && all_ws s'
  end.

Fixpoint skip_ws (s : string) : string :=
  match s with
  | EmptyString => EmptyString
  | String c s' => if is_ws c then skip_ws s' else s
  end.

Inductive reader_state : Type :=
| BeforeArg                 (* an argument must start here *)
| InLiteral (q : ascii)     (* inside a literal opened by quote [q] *)
| AfterArg.                 (* a comma or the closing parenthesis is due *)

(** Reads the argument list of a function call up to and including the
    closing parenthesis; returns the concatenated string values and the
    number of arguments. *)
Fixpoint read_args (st : reader_state) (s : string) : option (string * nat) :=
  match s with
  | EmptyString => None
  | String c s' =>
      match st with
      | BeforeArg =>
          if is_ws c then read_args BeforeArg s'
          else if is_quote c then read_args (InLiteral c) s'
          else None
      | InLiteral q =>
          if Ascii.eqb c q
          then match read_args AfterArg s' with
               | Some (v, n) => Some (v, S n)
               | None => None
               end
          else match read_args (InLiteral q) s' with
               | Some (v, n) => Some (String c v, n)
               | None => None
               end
      | AfterArg =>
          if is_ws c then read_args AfterArg s'
          else if Ascii.eqb c ","%char then read_args BeforeArg s'
          else if Ascii.eqb c ")"%char
               then (if all_ws s' then Some (EmptyString, 0) else None)
          else None
      end
  end.

(** Reads the rest of a literal opened by [q]; nothing but white space
    may follow the closing quote. *)
Fixpoint read_literal_tail (q : ascii) (s : string) : option string :=
  match s with
  | EmptyString => None
  | String c s' =>
      if Ascii.eqb c q then (if all_ws s' then Some EmptyString else None)
      else option_map (String c) (read_literal_tail q s')
  end.

(** Drops [prefix] from [s] when [s] starts with it. *)
Fixpoint drop_prefix (prefix s : string) : option string :=
  match prefix, s with
  | EmptyString, _ => Some s
  | String a p', String b s' => if Ascii.eqb a b then drop_prefix p' s' else None
  | String _ _, EmptyString => None
  end.

(** The string value of an expression of the fragment, [None] when the
    text is not an expression of the fragment. *)
Definition string_value (expr : string) : option string :=
  match skip_ws expr with
  | String c rest =>
      if is_quote c then read_literal_tail c rest
      else
        match drop_prefix "concat" (String c rest) with
        | Some after_name =>
            match skip_ws after_name with
            | String "("%char args =>
                match read_args BeforeArg args with
                | Some (v, n) => if (2 <=? n)%nat then Some v else None
                | None => None
                end
            | _ => None
            end
        | None => None
        end
  | EmptyString => None
  end.

End XPath.

(* ================================================================== *)
(** ** Programs over external calls

    The Selenium-facing functions talk to the browser, the clock, the
    console and the session callbacks.  A program is the tree of calls it
    makes: every call is answered by its environment with a value or an
    exception, and the program continues from the answer. *)

(** A handle to a page element ([WebElement]; a [Select] wraps one). *)
Definition elem : Type := nat.

(** What a script returns for the [value] property of an element. *)
Inductive pyval : Type :=
| PyStr (s : string)
| PyNone.

(** [str(v)] *)
Definition str_val (v : pyval) : string :=
  match v with PyStr s => s | PyNone => "None" end.

(** The external calls, indexed by the type of their answer.  Time is in
    milliseconds; time-outs are in seconds as in the source. *)
Inductive call : Type -> Type :=
| TimeTime : call Z                                   (* time.time() *)
| Sleep (ms : Z) : call unit                          (* time.sleep *)
| Print (line : string) : call unit                   (* print *)
| WaitPresence (timeout : Z) (xpath : string) : call elem
    (* WebDriverWait(driver, timeout).until(presence_of_element_located) *)
| WaitClickable (timeout : Z) (xpath : string) : call elem
    (* WebDriverWait(driver, timeout).until(element_to_be_clickable) *)
| WaitReadyState (timeout : Z) : call unit
    (* WebDriverWait(driver, timeout).until(readyState is complete) *)
| ScrollIntoView (el : elem) : call unit              (* execute_script *)
| RemoveReadonly (el : elem) : call unit              (* execute_script *)
| GetValue (el : elem) : call pyval                   (* execute_script *)
| Clear (el : elem) : call unit                       (* el.clear() *)
| SendKeys (el : elem) (keys : string) : call unit    (* el.send_keys *)
| Click (el : elem) : call unit                       (* el.click() *)
| FindElement (el : elem) (xpath : string) : call elem
| NewSelect (el : elem) : call unit                   (* Select(el) *)
| SelectByVisibleText (sel : elem) (text : string) : call unit
| OptionTexts (sel : elem) : call (list string)       (* o.text of sel.options *)
| FirstSelectedText (sel : elem) : call string
    (* sel.first_selected_option.text *)
| DriverGet (url : string) : call unit                (* driver.get *)
| StatusCb (msg : string) : call unit                 (* status_cb *)
| PauseCheck : call unit                              (* pause_check *)
| StopCheck : call bool                               (* stop_check *)
| ShowInfo (title msg : string) : call unit.          (* messagebox.showinfo *)

(** The clock, [time.sleep] and [print] do not raise; every other call
    may. *)
Definition can_raise {X} (c : call X) : bool :=
  match c with
  | TimeTime | Sleep _ | Print _ => false
  | _ => true
  end.

Inductive prog (A : Type) : Type :=
| Ret (a : A)
| Throw (e : exn)
| Vis (X : Type) (c : call X) (k : result X -> prog A).

Arguments Ret {A} a.
Arguments Throw {A} e.
Arguments Vis {A X} c k.

Fixpoint bind {A B} (p : prog A) (f : A -> prog B) : prog B :=
  match p with
  | Ret a => f a
  | Throw e => Throw e
  | Vis c k => Vis c (fun r => bind (k r) f)
  end.

(** [try: p except Exception as e: h e].  The handler runs outside the
    protection of the [try]. *)
Fixpoint try_except {A} (p : prog A) (h : exn -> prog A) : prog A :=
  match p with
  | Ret a => Ret a
  | Throw e => h e
  | Vis c k => Vis c (fun r => try_except (k r) h)
  end.

(** One call; an exception answer is raised at the call site. *)
Definition trigger {X} (c : call X) : prog X :=
  Vis c (fun r => match r with inl x => Ret x | inr e => Throw e end).

(** A failing pure computation raises. *)
Definition lift_result {A} (r : result A) : prog A :=
  match r with inl a => Ret a | inr e => Throw e end.

Declare Scope prog_scope.
Delimit Scope prog_scope with prog.
Notation "x <- p ;; q" := (bind p (fun x => q))
  (at level 61, p at next level, right associativity) : prog_scope.
Notation "p ;; q" := (bind p (fun _ => q))
  (at level 61, right associativity) : prog_scope.
Open Scope prog_scope.

(** *** Runs

    An event is a call together with its answer.  [exec p tr res] holds
    when [p], answered as recorded in [tr], ends with [res]; the answers
    range over everything an environment can give. *)
Inductive event : Type :=
| Ev (X : Type) (c : call X) (r : result X).

Arguments Ev {X} c r.

Definition valid_answer {X} (c : call X) (r : result X) : Prop :=
  match r with inl _ => True | inr _ => can_raise c = true end.

Fixpoint exec {A} (p : prog A) (tr : list event) (res : result A) : Prop :=
  match p with
  | Ret a => tr = [] /\ res = inl a
  | Throw e => tr = [] /\ res = inr e
  | Vis c k =>
      exists r tr', valid_answer c r /\ tr = Ev c r :: tr' /\ exec (k r) tr' res
  end.

(** *** A scripted environment

    The answers are read from a script, one per call.  An answer of the
    wrong shape, an exception for a call that cannot raise, or the end of
    the script gives the call's neutral answer. *)
Inductive answer : Type :=
| AUnit
| ABool (b : bool)
| ATime (ms : Z)
| AElem (el : elem)
| AText (s : string)
| AValue (v : pyval)
| ATexts (l : list string)
| ARaise (e : exn).

Definition neutral_answer {X} (c : call X) : X :=
  match c in call X return X with
  | TimeTime => 0%Z
  | WaitPresence _ _ | WaitClickable _ _ | FindElement _ _ => 0
  | GetValue _ => PyNone
  | OptionTexts _ => []
  | FirstSelectedText _ => EmptyString
  | StopCheck => false
  | _ => tt
  end.

Definition answer_call {X} (c : call X) (a : option answer) : result X :=
  match a with
  | Some (ARaise e) => if can_raise c then inr e else inl (neutral_answer c)
  | Some a' =>
      inl (match c in call X return X with
           | TimeTime => match a' with ATime z => z | _ => 0%Z end
           | WaitPresence _ _ | WaitClickable _ _ | FindElement _ _ =>
               match a' with AElem el => el | _ => 0 end
           | GetValue _ => match a' with AValue v => v | _ => PyNone end
           | OptionTexts _ => match a' with ATexts l => l | _ => [] end
           | FirstSelectedText _ =>
               match a' with AText s => s | _ => EmptyString end
           | StopCheck => match a' with ABool b => b | _ => false end
           | _ => tt
           end)
  | None => inl (neutral_answer c)
  end.

(** Runs [p] against a script; returns the trace and the outcome. *)
Fixpoint run {A} (p : prog A) (script : list answer)
  : list event * result A :=
  match p with
  | Ret a => ([], inl a)
  | Throw e => ([], inr e)
  | Vis c k =>
      let r := answer_call c (hd_error script) in
      let '(tr, res) := run (k r) (tl script) in
      (Ev c r :: tr, res)
  end.

(* ================================================================== *)
(** ** Locator (lines 102-146) *)

(** The four patterns of [by_label_input], in the order of the list of
    lines 109-114; [L] is the label as an XPath literal. *)
Definition input_xpaths (L : string) : list string :=
  [ "//tr[td[normalize-space()=" ++ L ++ "]]/td[position()=2]//input[not(@type='hidden')]";
    "//tr[td[normalize-space()=" ++ L ++ "]]/td[position()=2]//textarea";
    "//*[normalize-space()=" ++ L ++ "]/following::input[not(@type='hidden')][1]";
    "//*[normalize-space()=" ++ L ++ "]/following::textarea[1]" ].

(** The two patterns of [by_label_select] (lines 131-134). *)
Definition select_xpaths (L : string) : list string :=
  [ "//tr[td[normalize-space()=" ++ L ++ "]]/td[position()=2]//select";
    "//*[normalize-space()=" ++ L ++ "]/following::select[1]" ].

(** [max(1, int(end_time - time.time()))]: whole seconds left, truncated
    toward zero, and never less than one. *)
Definition remaining_seconds (end_time now : Z) : Z :=
  Z.max 1 (Z.quot (end_time - now) 1000).

(** The [try] body of lines 118-123 for one pattern. *)
Definition locate_input_once (end_time : Z) (xp : string) : prog elem :=
  now <- trigger TimeTime ;;
  el <- trigger (WaitPresence (remaining_seconds end_time now) xp) ;;
  trigger (ScrollIntoView el) ;;
  Ret el.

(** The [try] body of lines 138-143 for one pattern. *)
Definition locate_select_once (end_time : Z) (xp : string) : prog elem :=
  now <- trigger TimeTime ;;
  el <- trigger (WaitPresence (remaining_seconds end_time now) xp) ;;
  trigger (ScrollIntoView el) ;;
  trigger (NewSelect el) ;;
  Ret el.

(** The loop shared by both locators: the first pattern whose [try] body
    completes returns; an exception is remembered and the next pattern is
    tried; after the last pattern [RuntimeError] is raised. *)
Fixpoint locate_loop (once : string -> prog elem) (what label_text : string)
    (xpaths : list string) (last_err : option exn) : prog elem :=
  match xpaths with
  | [] =>
      Throw (mk_exn RuntimeError
               ("Could not locate " ++ what ++ " for label: " ++ label_text
                ++ " (" ++ str_last_err last_err ++ ")"))
  | xp :: rest =>
      try_except (once xp)
        (fun e => locate_loop once what label_text rest (Some e))
  end.

Definition by_label_input (label_text : string) (timeout : Z) : prog elem :=
  let L := _xpath_literal label_text in
  t0 <- trigger TimeTime ;;
  let end_time := (t0 + timeout * 1000)%Z in
  locate_loop (locate_input_once end_time) "input/textarea" label_text
    (input_xpaths L) None.

Definition by_label_select (label_text : string) (timeout : Z) : prog elem :=
  let L := _xpath_literal label_text in
  t0 <- trigger TimeTime ;;
  let end_time := (t0 + timeout * 1000)%Z in
  locate_loop (locate_select_once end_time) "select" label_text
    (select_xpaths L) None.

(** [click_button_with_text] (lines 148-157). *)
Definition click_button_with_text (text : string) (timeout : Z) : prog bool :=
  let xp := "//button[normalize-space()='" ++ text ++ "' or @value='" ++ text
            ++ "' or @id=//label[normalize-space()='" ++ text ++ "']/@for]" in
  try_except
    (btn <- trigger (WaitClickable timeout xp) ;;
     trigger (Click btn) ;;
     Ret true)
    (fun _ => Ret false).

(* ================================================================== *)
(** ** Field setter (lines 41-100) *)

(** [wait_dom_idle] (lines 41-45). *)
Definition wait_dom_idle (timeout : Z) : prog unit :=
  trigger (WaitReadyState timeout).

(** How one iteration of a retry loop ends. *)
Inductive flow : Type :=
| ReturnTrue                    (* return True *)
| FallThrough                   (* the body completed; next iteration *)
| Continue (e : exn)            (* transient error; next iteration *)
| Break (e : exn).              (* other error; leave the loop *)

(** Lines 69-70 and 99-100. *)
Definition warn_and_fail (label : string) (last_err : option exn) : prog bool :=
  trigger (Print ("[WARN] " ++ label ++ ": " ++ str_last_err last_err)) ;;
  Ret false.

(** The two [except] clauses shared by both setters (lines 61-68 and
    91-98).  They run outside the [try]: what [wait_dom_idle] raises is
    not caught. *)
Definition retry_handler (e : exn) : prog flow :=
  if is_transient e
  then trigger (Sleep 200) ;; wait_dom_idle 6 ;; Ret (Continue e)
  else Ret (Break e).

(** The [for attempt in range(...)] loop around a [try] body that
    answers whether to return [True]. *)
Fixpoint retry_loop (body : prog bool) (label : string) (attempts : nat)
    (last_err : option exn) : prog bool :=
  match attempts with
  | O => warn_and_fail label last_err
  | S n =>
      f <- try_except
             (ok <- body ;; Ret (if ok then ReturnTrue else FallThrough))
             retry_handler ;;
      match f with
      | ReturnTrue => Ret true
      | FallThrough => retry_loop body label n last_err
      | Continue e => retry_loop body label n (Some e)
      | Break e => warn_and_fail label (Some e)
      end
  end.

(** The [try] body of [fill_text_with_retry] (lines 52-60). *)
Definition fill_text_attempt (label value : string) : prog bool :=
  el <- by_label_input label 6 ;;
  trigger (RemoveReadonly el) ;;
  trigger (ScrollIntoView el) ;;
  trigger (Clear el) ;;
  trigger (SendKeys el value) ;;
  v <- trigger (GetValue el) ;;
  Ret (String.eqb (strip (str_val v)) (strip value)).

(** [range(1, retries + 1)] has [max(0, retries)] elements. *)
Definition fill_text_with_retry (label value : string) (retries : Z)
  : prog bool :=
  retry_loop (fill_text_attempt label value) label (Z.to_nat retries) None.

(** The two loose tests of lines 82 and 84. *)
Definition ci_equal (value o : string) : bool :=
  String.eqb (lower o) (lower value).

Definition ci_contains (value o : string) : bool :=
  contains (lower value) (lower o).

(** [next((o for o in options if o.lower() == value.lower()), None)] *)
Definition match_ci_exact (value : string) (options : list string)
  : option string :=
  find (ci_equal value) options.

(** [next((o for o in options if value.lower() in o.lower()), None)] *)
Definition match_ci_substring (value : string) (options : list string)
  : option string :=
  find (ci_contains value) options.

(** [match] after lines 82-84. *)
Definition fuzzy_match (value : string) (options : list string)
  : option string :=
  let m := match_ci_exact value options in
  if negb (truthy_opt m) then match_ci_substring value options else m.

(** The [except] clause of lines 80-86. *)
Definition select_fuzzy (sel : elem) (value : string) : prog unit :=
  raw <- trigger (OptionTexts sel) ;;
  let options := map strip raw in
  match fuzzy_match value options with
  | Some m =>
      if truthy m then trigger (SelectByVisibleText sel m) else Ret tt
  | None => Ret tt
  end.

(** Lines 78-86: exact visible text first, the fuzzy matches only when
    that raises. *)
Definition select_choice (sel : elem) (value : string) : prog unit :=
  try_except (trigger (SelectByVisibleText sel value))
    (fun _ => select_fuzzy sel value).

(** The [try] body of [select_with_retry] (lines 77-90). *)
Definition select_attempt (label value : string) : prog bool :=
  sel <- by_label_select label 6 ;;
  select_choice sel value ;;
  chosen <- trigger (FirstSelectedText sel) ;;
  Ret (truthy (strip chosen)).

Definition select_with_retry (label value : string) (retries : Z)
  : prog bool :=
  retry_loop (select_attempt label value) label (Z.to_nat retries) None.

(* ================================================================== *)
(** ** Form filler (lines 222-337) *)

(** A cell of the spreadsheet row: missing ([pd.isna]) or a value, kept
    as its [str()]. *)
Inductive cell : Type :=
| NaN
| Value (s : string).

(** One row ([pandas.Series]) indexed by its unique, normalised column
    names. *)
Definition row : Type := list (string * cell).

(** [row[col]] when [col in row.index]. *)
Fixpoint row_get (r : row) (col : string) : option cell :=
  match r with
  | [] => None
  | (c, v) :: rest => if String.eqb c col then Some v else row_get rest col
  end.

(** The mapping of lines 234-251, in insertion order: label, field type,
    source column. *)
Definition mapping : list (string * (string * string)) :=
  [ ("Name as in IC/Passport", ("text", "name in ic/passport"));
    ("Sex", ("select", "sex"));
    ("Country of Birth", ("select", "nationality"));
    ("State/Province of Birth", ("select", "province of birth"));
    ("Place of Birth", ("text", "place of township"));
    ("IC Number", ("text", "ic number"));
    ("Passport Number", ("text", "passport number"));
    ("Date of Issue", ("text", "passport date of issue"));
    ("Date of Expiry", ("text", "passport date of expiry"));
    ("Date of Birth", ("text", "date of birth"));
    ("Father's Name", ("text", "father name"));
    ("Mother's Name", ("text", "mother name"));
    ("Current Address", ("text", "current address"));
    ("Awarded Institute", ("text", "school name of highest qualification"));
    ("Year", ("select", "year of graduation")) ].

(** The upload slots of lines 267-271. *)
Definition uploads : list (string * string) :=
  [ ("Upload Identity Card (IC)", "002");
    ("Upload passport", "003");
    ("Upload highest qualification or most relevent certification", "004") ].

(** Lines 254-258: the first alias column holding a non-blank value. *)
Fixpoint person_name_from (r : row) (cols : list string) : option string :=
  match cols with
  | [] => None
  | col :: rest =>
      match row_get r col with
      | Some (Value s) =>
          if truthy (strip s) then Some (strip s) else person_name_from r rest
      | _ => person_name_from r rest
      end
  end.

Definition name_columns : list string :=
  ["name in ic/passport"; "name in ic"; "name"].

Definition stopped_msg : string := "Stopped by user.".

Section FormFiller.

Variable fs : FileSystem.

(** The [try] body of lines 285-300 for one document. *)
Definition upload_one (label fpath : string) : prog unit :=
  trigger (StatusCb ("Uploading: " ++ label)) ;;
  trigger PauseCheck ;;
  file_input <- trigger (WaitPresence 15
      ("//td[normalize-space()='" ++ label ++ "']/following::input[@type='file'][1]")) ;;
  trigger (SendKeys file_input (abspath fs fpath)) ;;
  try_except
    (upload_btn <- trigger (FindElement file_input
        "following::input[@type='submit' or @type='button'][1]") ;;
     trigger (Click upload_btn))
    (fun _ => click_button_with_text "Upload" 10 ;; Ret tt) ;;
  trigger (Print ("[INFO] Uploaded " ++ label ++ ": " ++ fpath)).

(** The loop of lines 272-302; answers [true] when the function returned
    from inside the loop. *)
Fixpoint upload_loop (person_folder person_name : string)
    (slots : list (string * string)) : prog bool :=
  match slots with
  | [] => Ret false
  | (label, code) :: rest =>
      stop <- trigger StopCheck ;;
      if (stop : bool) then trigger (StatusCb stopped_msg) ;; Ret true
      else
        trigger (StatusCb ("Searching PDF: " ++ code ++ " for " ++ person_name ++ "…")) ;;
        trigger PauseCheck ;;
        match find_pdf_by_prefix fs (Some person_folder) code person_name with
        | Some fpath =>
            if truthy fpath
            then
              try_except (upload_one label fpath)
                (fun e => trigger (Print ("[WARN] Could not upload " ++ label
                                          ++ ": " ++ str_exn e))) ;;
              upload_loop person_folder person_name rest
            else
              trigger (Print ("[WARN] " ++ label ++ ": could not find a '" ++ code
                              ++ " ... .pdf' in " ++ person_folder)) ;;
              upload_loop person_folder person_name rest
        | None =>
            trigger (Print ("[WARN] " ++ label ++ ": could not find a '" ++ code
                            ++ " ... .pdf' in " ++ person_folder)) ;;
            upload_loop person_folder person_name rest
        end
  end.

(** Lines 259-304; answers [true] when the function returned. *)
Definition upload_phase (base_dir person_name : option string) : prog bool :=
  match base_dir, person_name with
  | Some dir, Some name =>
      if truthy dir && truthy name
      then
        trigger (StatusCb "Locating person folder for PDFs…") ;;
        trigger PauseCheck ;;
        person_folder <- lift_result (find_person_folder fs dir name) ;;
        match person_folder with
        | Some folder =>
            if truthy folder then upload_loop folder name uploads
            else
              trigger (Print ("[WARN] No folder found for '" ++ name
                              ++ "' under " ++ dir)) ;;
              Ret false
        | None =>
            trigger (Print ("[WARN] No folder found for '" ++ name
                            ++ "' under " ++ dir)) ;;
            Ret false
        end
      else
        trigger (Print "[INFO] Skipping PDF uploads: base_dir or person_name not set.") ;;
        Ret false
  | _, _ =>
      trigger (Print "[INFO] Skipping PDF uploads: base_dir or person_name not set.") ;;
      Ret false
  end.

(** The [try] body of lines 323-331. *)
Definition set_field (label field_type val : string) : prog unit :=
  ok <- (if String.eqb field_type "text" then fill_text_with_retry label val 3
         else if String.eqb field_type "select" then select_with_retry label val 3
         else Ret true) ;;
  if negb ok
  then trigger (Print ("[WARN] Could not set " ++ label ++ " -> " ++ val))
  else Ret tt.

(** The loop of lines 307-333; answers [true] when the function returned
    from inside the loop. *)
Fixpoint field_loop (r : row) (entries : list (string * (string * string)))
  : prog bool :=
  match entries with
  | [] => Ret false
  | (label, (field_type, colname)) :: rest =>
      stop <- trigger StopCheck ;;
      if (stop : bool) then trigger (StatusCb stopped_msg) ;; Ret true
      else
        match row_get r colname with
        | None => field_loop r rest
        | Some raw =>
            let val := match raw with NaN => EmptyString | Value s => strip s end in
            if negb (truthy val) then field_loop r rest
            else
              trigger (StatusCb ("Filling: " ++ label)) ;;
              trigger PauseCheck ;;
              try_except (set_field label field_type val)
                (fun e => trigger (Print ("[WARN] " ++ label ++ ": " ++ str_exn e))) ;;
              field_loop r rest
        end
  end.

(** [fill_otms_form] (lines 222-337).  The unused [WebDriverWait] of
    line 229 makes no call. *)
Definition fill_otms_form (url : string) (r : row) (base_dir : option string)
  : prog unit :=
  (if truthy url
   then
     trigger (StatusCb "Navigating to target page…") ;;
     trigger PauseCheck ;;
     trigger (DriverGet url)
   else Ret tt) ;;
  let person_name := person_name_from r name_columns in
  returned <- upload_phase base_dir person_name ;;
  if (returned : bool) then Ret tt
  else
    returned' <- field_loop r mapping ;;
    if (returned' : bool) then Ret tt
    else
      trigger (StatusCb "All fields filled. Please review and submit on the site.") ;;
      trigger (ShowInfo "Done"
                 "Form fields filled. Please review and submit on the site if needed.").

End FormFiller.

(* ================================================================== *)
(** ** Observations on traces *)

(** Calls that change the page: typing, clearing, clicking, selecting,
    dropping the read-only attribute.  A document upload types the file
    path into a file input and a field is filled by typing or
    selecting. *)
Definition writes_page {X} (c : call X) : bool :=
  match c with
  | SendKeys _ _ | Clear _ | Click _ | SelectByVisibleText _ _
  | RemoveReadonly _ => true
  | _ => false
  end.

Definition is_stop_call {X} (c : call X) : bool :=
  match c with StopCheck => true | _ => false end.

Definition event_writes_page (e : event) : bool :=
  match e with Ev c _ => writes_page c end.

Definition event_is_stop_check (e : event) : bool :=
  match e with Ev c _ => is_stop_call c end.

(** The pattern and time-out of a presence wait. *)
Definition event_wait (e : event) : option (Z * string) :=
  match e with
  | Ev c _ =>
      match c with
      | WaitPresence t xp => Some (t, xp)
      | _ => None
      end
  end.

(** The element a presence wait found. *)
Definition event_found (e : event) : option elem :=
  match e with
  | Ev c r =>
      match c in call X return result X -> option elem with
      | WaitPresence _ _ => fun r => match r with inl el => Some el | inr _ => None end
      | _ => fun _ => None
      end r
  end.

(** The reading of the clock. *)
Definition event_time (e : event) : option Z :=
  match e with
  | Ev c r =>
      match c in call X return result X -> option Z with
      | TimeTime => fun r => match r with inl t => Some t | inr _ => None end
      | _ => fun _ => None
      end r
  end.

(** The exception an event answered with. *)
Definition event_raised (e : event) : option exn :=
  match e with
  | Ev _ r => match r with inl _ => None | inr x => Some x end
  end.

(** The patterns waited for, in order. *)
Fixpoint wait_xpaths (tr : list event) : list string :=
  match tr with
  | [] => []
  | e :: rest =>
      match event_wait e with
      | Some (_, xp) => xp :: wait_xpaths rest
      | None => wait_xpaths rest
      end
  end.

(** The first element any presence wait found. *)
Fixpoint first_present (tr : list event) : option elem :=
  match tr with
  | [] => None
  | e :: rest =>
      match event_found e with
      | Some el => Some el
      | None => first_present rest
      end
  end.

(** The exceptions raised along a trace, in order. *)
Fixpoint raised (tr : list event) : list exn :=
  match tr with
  | [] => []
  | e :: rest =>
      match event_raised e with
      | Some x => x :: raised rest
      | None => raised rest
      end
  end.

(** The value of [last_err] after the exceptions [errs] were assigned to
    it in turn, starting from [d]. *)
Definition last_opt (errs : list exn) (d : option exn) : option exn :=
  fold_left (fun _ e => Some e) errs d.

(** Every presence wait follows a reading [now] of the clock and is
    given the whole seconds left until [end_time]. *)
Fixpoint waits_use_deadline (end_time : Z) (prev : option Z) (tr : list event)
  : Prop :=
  match tr with
  | [] => True
  | e :: rest =>
      match event_wait e with
      | Some (t, _) =>
          match prev with
          | Some now => t = remaining_seconds end_time now
          | None => False
          end
      | None => True
      end
      /\ waits_use_deadline end_time (event_time e) rest
  end.

(** [p] is the first element of [l] that satisfies [P]. *)
Definition first_such {A} (P : A -> bool) (l : list A) (p : A) : Prop :=
  exists l1 l2, l = (l1 ++ p :: l2)%list /\ P p = true /\ forallb (fun x => negb (P x)) l1 = true.

(** The option lines 82-86 settle on: the first non-empty option equal
    to the value up to case, or else the first option containing the
    value up to case. *)
Definition loosely_chosen (value : string) (options : list string)
    (m : string) : Prop :=
  m <> EmptyString
  /\ (first_such (ci_equal value) options m
      \/ (forallb (fun o => negb (ci_equal value o && truthy o)) options = true
          /\ first_such (ci_contains value) options m)).

(** No event checks the stop signal, no event changes the page. *)
Definition no_stop_check (tr : list event) : bool :=
  forallb (fun e => negb (event_is_stop_check e)) tr.

Definition no_page_write (tr : list event) : bool :=
  forallb (fun e => negb (event_writes_page e)) tr.

(** [p] neither checks the stop signal nor changes the page. *)
Definition quiet {A} (p : prog A) : Prop :=
  forall tr res, exec p tr res -> no_stop_check tr = true /\ no_page_write tr = true.

(** [p] changes the page only after a stop check, and when its first
    stop check answers that a stop was requested, [p] reports
    [stopped_msg] and returns [a0] without making another call. *)
Definition checkpointed {A} (a0 : A) (p : prog A) : Prop :=
  forall tr res,
    exec p tr res ->
    (no_stop_check tr = true -> no_page_write tr = true)
    /\ (forall pre post,
           tr = (pre ++ Ev StopCheck (inl true) :: post)%list ->
           no_stop_check pre = true ->
           no_page_write pre = true
           /\ exists a,
               post = [Ev (StatusCb stopped_msg) a]
               /\ res = match a with inl _ => inl a0 | inr e => inr e end).

(* ================================================================== *)
(** ** The resolver as the specification words it *)

Section SpecWords.

Variable fs : FileSystem.

(** The fallback as the specification words it: the entry contains the
    target, or the other way round. *)
Definition spec_substring_either_way (target entry : string) : bool :=
  contains target (_norm entry) || contains (_norm entry) target.

Fixpoint spec_folder_fallback (base_dir target : string) (entries : list string)
  : option string :=
  match entries with
  | [] => None
  | entry :: rest =>
      let full := path_join fs base_dir entry in
      if isdir fs full && spec_substring_either_way target entry
      then Some full
      else spec_folder_fallback base_dir target rest
  end.

(** Exact match first, the either-way fallback second. *)
Definition spec_find_person_folder (base_dir person_name : string)
    (entries : list string) : option string :=
  match person_folder_exact fs base_dir (_norm person_name) entries with
  | Some full => Some full
  | None => spec_folder_fallback base_dir (_norm person_name) entries
  end.

(** The first subdirectory in listing order. *)
Fixpoint first_subdirectory (base_dir : string) (entries : list string)
  : option string :=
  match entries with
  | [] => None
  | entry :: rest =>
      let full := path_join fs base_dir entry in
      if isdir fs full then Some full else first_subdirectory base_dir rest
  end.

End SpecWords.

(* ================================================================== *)
(** ** An in-memory file system for the worked examples *)

Module MemFS.

Inductive kind : Type := RegularFile | Directory.

(** Absolute paths with their kind, in directory order. *)
Definition tree : Type := list (string * kind).

Definition slash : ascii := "/"%char.

(** [posixpath.join] for two components. *)
Definition join2 (a b : string) : string :=
  if String.prefix "/" b then b
  else if String.eqb a EmptyString then b
  else if endswith a "/" then a ++ b
  else a ++ "/" ++ b.

(** [posixpath.basename]: what follows the last slash. *)
Fixpoint basename (p : string) : string :=
  match p with
  | EmptyString => EmptyString
  | String c p' =>
      if has_char slash p' then basename p'
      else if Ascii.eqb c slash then p' else p
  end.

Definition kind_eqb (a b : kind) : bool :=
  match a, b with
  | RegularFile, RegularFile | Directory, Directory => true
  | _, _ => false
  end.

Definition has_kind (t : tree) (k : kind) (p : string) : bool :=
  existsb (fun e => String.eqb (fst e) p && kind_eqb (snd e) k) t.

(** The name of [p] inside directory [d], when [p] is directly in [d]. *)
Definition child_name (d p : string) : option string :=
  match XPath.drop_prefix (d ++ "/") p with
  | Some n => if has_char slash n || String.eqb n EmptyString then None else Some n
  | None => None
  end.

Fixpoint children (t : tree) (d : string) : list string :=
  match t with
  | [] => []
  | (p, _) :: rest =>
      match child_name d p with
      | Some n => n :: children rest d
      | None => children rest d
      end
  end.

(** Shell pattern matching for patterns made of literal characters and
    stars; a star matches any run of characters other than the slash. *)
Fixpoint wildcard (pat s : string) : bool :=
  match pat with
  | EmptyString => String.eqb s EmptyString
  | String pc pat' =>
      if Ascii.eqb pc "*"%char
      then (fix star (s : string) : bool :=
              wildcard pat' s
              || match s with
                 | EmptyString => false
                 | String c s' => if Ascii.eqb c slash then false else star s'
                 end) s
      else match s with
           | EmptyString => false
           | String c s' => Ascii.eqb pc c && wildcard pat' s'
           end
  end.

Definition make (t : tree) : FileSystem := {|
  path_join := join2;
  path_basename := basename;
  abspath := fun p => p;
  isdir := has_kind t Directory;
  isfile := has_kind t RegularFile;
  listdir := fun d =>
    if has_kind t Directory d then inl (children t d)
    else inr (mk_exn OSError ("No such directory: " ++ d));
  glob := fun pat => map fst (filter (fun e => wildcard pat (fst e)) t)
|}.

(** A base folder with two person folders; John Smith holds the identity
    card under the exact name. *)
Definition esf : tree :=
  [ ("/esf", Directory);
    ("/esf/John Smith", Directory);
    ("/esf/Jane Doe", Directory);
    ("/esf/John Smith/002 John Smith.pdf", RegularFile);
    ("/esf/John Smith/003 passport scan.pdf", RegularFile);
    ("/esf/notes.txt", RegularFile) ].

(** The identity card under the lower-case, underscore spelling. *)
Definition esf_variant : tree :=
  [ ("/esf", Directory);
    ("/esf/John Smith", Directory);
    ("/esf/John Smith/002_john_smith.pdf", RegularFile);
    ("/esf/John Smith/003 John Smith.pdf", RegularFile) ].

(** No document with prefix 002. *)
Definition esf_no_ic : tree :=
  [ ("/esf", Directory);
    ("/esf/John Smith", Directory);
    ("/esf/John Smith/003 John Smith.pdf", RegularFile);
    ("/esf/John Smith/004 John Smith.pdf", RegularFile) ].

(** The only person folder is named by a part of the name looked for. *)
Definition esf_short : tree :=
  [ ("/esf", Directory);
    ("/esf/John", Directory) ].

(** A folder whose name is a single space, listed second. *)
Definition esf_blank : tree :=
  [ ("/esf", Directory);
    ("/esf/A", Directory);
    ("/esf/ ", Directory) ].

End MemFS.

(* ================================================================== *)
(** ** Scripts for the worked runs *)

Module Scripts.

Definition stale : exn :=
  mk_exn StaleElementReferenceException "stale element reference".

Definition timed_out : exn := mk_exn TimeoutException "timed out".

Definition no_such_option : exn :=
  mk_exn OtherException "Could not locate element with visible text: Male".

(** The field is found and typed into; the page reports the typed value
    with a trailing space. *)
Definition typed_and_read_back : list answer :=
  [ ATime 0; ATime 0; AElem 7; AUnit; AUnit; AUnit; AUnit; AUnit;
    AValue (PyStr "S1234567A ") ].

(** A postback invalidates the element while it is cleared, and the page
    does not become ready within the six seconds of [wait_dom_idle]. *)
Definition stale_then_never_idle : list answer :=
  [ ATime 0; ATime 0; AElem 7; AUnit; AUnit; AUnit; ARaise stale;
    AUnit; ARaise timed_out ].

(** The same for a selection: the element goes stale while the exact
    text is selected, the option texts cannot be read either, and the
    page does not become ready. *)
Definition stale_select_then_never_idle : list answer :=
  [ ATime 0; ATime 0; AElem 7; AUnit; AUnit; ARaise stale; ARaise stale;
    AUnit; ARaise timed_out ].

(** No option carries the text looked for, exactly or loosely; the
    placeholder option stays selected. *)
Definition nothing_matches : list answer :=
  [ ATime 0; ATime 0; AElem 7; AUnit; AUnit; ARaise no_such_option;
    ATexts ["-- Select --"; "M"; "F"]; AText "-- Select --" ].

(** The first pattern finds element 1, but scrolling it into view hits a
    stale reference; the second pattern times out; the third finds
    element 2. *)
Definition first_found_goes_stale : list answer :=
  [ ATime 0; ATime 0; AElem 1; ARaise stale; ATime 100; ARaise timed_out;
    ATime 6100; AElem 2; AUnit ].

(** Navigation and the folder lookup go through; the first stop check
    answers that a stop was requested. *)
Definition stop_already_requested : list answer :=
  [ AUnit; AUnit; AUnit; AUnit; AUnit; ABool true; AUnit ].

Definition john_row : row :=
  [ ("sr.no", Value "1"); ("name", Value "John Smith"); ("sex", Value "Male") ].

End Scripts.

(* ================================================================== *)
(** ** Column names (lines 31-39) *)





(* ================================================================== *)
(** ** Further observations on traces *)

(** Every event of every run of [p] satisfies [P]. *)
Definition emits {A} (P : event -> Prop) (p : prog A) : Prop :=
  forall tr res, exec p tr res -> Forall P tr.

(** The text a [send_keys] call types. *)
Definition event_keys (e : event) : option string :=
  match e with
  | Ev c _ =>
      match c with
      | SendKeys _ keys => Some keys
      | _ => None
      end
  end.

(** The texts typed along a trace, in order. *)
Fixpoint typed_keys (tr : list event) : list string :=
  match tr with
  | [] => []
  | e :: rest =>
      match event_keys e with
      | Some k => k :: typed_keys rest
      | None => typed_keys rest
      end
  end.

(** Calls of the session callbacks [status_cb], [pause_check] and
    [stop_check]. *)
Definition is_session_call {X} (c : call X) : bool :=
  match c with
  | StatusCb _ | PauseCheck | StopCheck => true
  | _ => false
  end.

Definition event_from_session (e : event) : bool :=
  match e with Ev c _ => is_session_call c end.

(** The event does not raise, or it is a call of the session. *)
Definition raises_only_from_session (e : event) : Prop :=
  match event_raised e with
  | Some _ => event_from_session e = true
  | None => True
  end.

(** The event is no stop check. *)
Definition not_stop_check (e : event) : Prop :=
  event_is_stop_check e = false.

(** What the event types, if anything, satisfies [S]. *)
Definition keys_satisfy (S : string -> Prop) (e : event) : Prop :=
  match event_keys e with
  | Some k => S k
  | None => True
  end.

(** Calls made by [fill_otms_form] itself rather than by a field or
    document operation: the session callbacks, the navigation and the
    final notification. *)
Definition is_orchestration_call {X} (c : call X) : bool :=
  match c with
  | StatusCb _ | PauseCheck | StopCheck | DriverGet _ | ShowInfo _ _ => true
  | _ => false
  end.

Definition event_from_orchestration (e : event) : bool :=
  match e with Ev c _ => is_orchestration_call c end.

(** The trace ends with an event that raised [e] and satisfies [from]. *)
Definition raised_last (from : event -> bool) (tr : list event) (e : exn)
  : Prop :=
  exists tr0 ev,
    tr = (tr0 ++ [ev])%list /\ event_raised ev = Some e /\ from ev = true.

(** How a loop with a stop check at the head of every iteration ends:
    a stop check that finds the stop requested is followed by the
    [stopped_msg] status and nothing else, and the loop answers [true];
    the loop answers [true] in no other way; and only a session callback
    can make it raise. *)
Definition stop_outcome (tr : list event) (res : result bool) : Prop :=
  (forall pre post,
      tr = (pre ++ Ev StopCheck (inl true) :: post)%list ->
      exists a,
        post = [Ev (StatusCb stopped_msg) a]
        /\ res = match a with inl _ => inl true | inr e => inr e end)
  /\ (res = inl true ->
      exists pre,
        tr = (pre ++ [Ev StopCheck (inl true);
                      Ev (StatusCb stopped_msg) (inl tt)])%list)
  /\ (forall e, res = inr e -> raised_last event_from_session tr e).

(** Every run of the loop [q] ends as [stop_outcome] says. *)
Definition in_stop_protocol (q : prog bool) : Prop :=
  forall tr res, exec q tr res -> stop_outcome tr res.

(** A step between two stop checks: it checks no stop signal and only a
    session callback can make it raise. *)
Definition plain_step {A} (p : prog A) : Prop :=
  forall tr res,
    exec p tr res ->
    Forall not_stop_check tr
    /\ (forall e, res = inr e -> raised_last event_from_session tr e).

(** How a run of the form filler ends: a stop check that finds the stop
    requested is followed by the [stopped_msg] status alone; a normal
    return comes right after that status or right after the final
    notification; an exception comes from a call the form filler makes
    itself, or satisfies [listing_failed]. *)
Definition run_outcome (listing_failed : exn -> Prop) (tr : list event)
    (res : result unit) : Prop :=
  (forall pre post,
      tr = (pre ++ Ev StopCheck (inl true) :: post)%list ->
      exists a,
        post = [Ev (StatusCb stopped_msg) a]
        /\ res = match a with inl _ => inl tt | inr e => inr e end)
  /\ (res = inl tt ->
      (exists pre,
          tr = (pre ++ [Ev StopCheck (inl true);
                        Ev (StatusCb stopped_msg) (inl tt)])%list)
      \/ (exists pre,
             tr = (pre ++ [Ev (StatusCb "All fields filled. Please review and submit on the site.")
                              (inl tt);
                           Ev (ShowInfo "Done"
                                 "Form fields filled. Please review and submit on the site if needed.")
                              (inl tt)])%list))
  /\ (forall e, res = inr e ->
                raised_last event_from_orchestration tr e \/ listing_failed e).

(** What the form filler may type for row [r]: the trimmed, non-blank
    content of a cell of the row, or the absolute path of a regular file
    whose lower-cased path ends in [.pdf]. *)
Definition typed_allowed (fs : FileSystem) (r : row) (k : string) : Prop :=
  (exists col s,
      row_get r col = Some (Value s) /\ k = strip s /\ k <> EmptyString)
  \/ (exists p,
         k = abspath fs p /\ isfile fs p = true
         /\ endswith (lower p) ".pdf" = true).

(** The event is a [send_keys] call that returned. *)
Definition event_typed_ok (e : event) : bool :=
  match e with
  | Ev c r =>
      match c in call X return result X -> bool with
      | SendKeys _ _ => fun r => match r with inl _ => true | inr _ => false end
      | _ => fun _ => false
      end r
  end.

(* ================================================================== *)
(** * Properties *)

(** ** Strings *)

Lemma append_assoc_str (a b c : string) : (a ++ b) ++ c = a ++ (b ++ c).
Proof.
  induction a as [| x a IH]; simpl; [reflexivity | now rewrite IH].
Qed.

Lemma append_empty_r (a : string) : a ++ EmptyString = a.
Proof.
  induction a as [| x a IH]; simpl; [reflexivity | now rewrite IH].
Qed.

Lemma prefix_empty (s : string) : String.prefix EmptyString s = true.
Proof. destruct s; reflexivity. Qed.

Lemma contains_empty (s : string) : contains EmptyString s = true.
Proof.
  destruct s; simpl; [reflexivity | reflexivity].
Qed.

Lemma prefix_append (a b : string) : String.prefix a (a ++ b) = true.
Proof.
  induction a as [| x a IH]; simpl.
  - apply prefix_empty.
  - destruct (ascii_dec x x) as [_ | n]; [exact IH | now elim n].
Qed.

Lemma prefix_split (a s : string) :
  String.prefix a s = true -> exists b, s = a ++ b.
Proof.
  revert s; induction a as [| x a IH]; intros s H.
  - now exists s.
  - destruct s as [| y s]; simpl in H; [discriminate |].
    destruct (ascii_dec x y) as [-> | _]; [| discriminate].
    destruct (IH _ H) as [b ->]. now exists b.
Qed.

(** [contains] is Python's substring test. *)
Lemma contains_spec (needle hay : string) :
  contains needle hay = true <-> exists a b, hay = a ++ needle ++ b.
Proof.
  split.
  - induction hay as [| c hay IH]; cbn [contains]; intros H.
    + destruct (prefix_split _ _ H) as [b Hb]. now exists EmptyString, b.
    + apply orb_true_iff in H as [H | H].
      * destruct (prefix_split _ _ H) as [b Hb]. now exists EmptyString, b.
      * destruct (IH H) as (a & b & ->). now exists (String c a), b.
  - intros (a & b & ->). induction a as [| c a IH].
    + change (EmptyString ++ needle ++ b) with (needle ++ b).
      destruct (needle ++ b) as [| c r] eqn:E.
      * destruct needle; [reflexivity | discriminate].
      * cbn [contains]. rewrite <- E, prefix_append. reflexivity.
    + change (String c a ++ needle ++ b) with (String c (a ++ needle ++ b)).
      cbn [contains]. rewrite IH. apply orb_true_r.
Qed.

(** ** The XPath literal builder *)

Lemma split_on_nonempty (c : ascii) (s : string) : split_on c s <> [].
Proof.
  destruct s as [| x s]; simpl; [discriminate |].
  destruct (Ascii.eqb x c); [discriminate |].
  destruct (split_on c s); discriminate.
Qed.

Lemma join_split_on (c : ascii) (s : string) :
  join (String c EmptyString) (split_on c s) = s.
Proof.
  induction s as [| x s IH]; [reflexivity |].
  pose proof (split_on_nonempty c s) as Hne.
  cbn [split_on].
  destruct (split_on c s) as [| p ps]; [congruence |].
  destruct (Ascii.eqb_spec x c) as [-> | _].
  - change (join (String c EmptyString) (EmptyString :: p :: ps))
      with (String c (join (String c EmptyString) (p :: ps))).
    now rewrite IH.
  - destruct ps as [| q qs].
    + simpl in *. now rewrite IH.
    + change (join (String c EmptyString) (String x p :: q :: qs))
        with (String x (join (String c EmptyString) (p :: q :: qs))).
      now rewrite IH.
Qed.

Lemma split_on_parts_free (c : ascii) (s : string) :
  Forall (fun p => has_char c p = false) (split_on c s).
Proof.
  induction s as [| x s IH]; simpl.
  - constructor; [reflexivity | constructor].
  - destruct (Ascii.eqb x c) eqn:E.
    + constructor; [reflexivity | exact IH].
    + destruct (split_on c s) as [| p ps].
      * constructor; [simpl; now rewrite E | constructor].
      * inversion IH as [| ? ? Hp Hps]; subst.
        constructor; [simpl; now rewrite E | assumption].
Qed.

Lemma split_on_two_parts (c : ascii) (s : string) :
  has_char c s = true -> 2 <= List.length (split_on c s).
Proof.
  induction s as [| x s IH]; simpl; [discriminate |].
  destruct (Ascii.eqb x c) eqn:E; simpl.
  - intros _. pose proof (split_on_nonempty c s).
    destruct (split_on c s); [congruence | simpl; lia].
  - intros H. specialize (IH H).
    destruct (split_on c s); simpl in *; lia.
Qed.

(** *** The reader on the builder's output *)

Lemma read_literal_tail_closed (q : ascii) (s : string) :
  has_char q s = false ->
  XPath.read_literal_tail q (s ++ String q EmptyString) = Some s.
Proof.
  induction s as [| c s IH]; simpl; intros H.
  - now rewrite Ascii.eqb_refl.
  - apply orb_false_iff in H as [Hc Hs].
    rewrite Hc, (IH Hs). reflexivity.
Qed.

Lemma read_args_in_literal (q : ascii) (p rest : string) :
  has_char q p = false ->
  XPath.read_args (XPath.InLiteral q) (p ++ String q rest) =
  match XPath.read_args XPath.AfterArg rest with
  | Some (v, n) => Some (p ++ v, S n)
  | None => None
  end.
Proof.
  induction p as [| c p IH]; simpl; intros H.
  - rewrite Ascii.eqb_refl. reflexivity.
  - apply orb_false_iff in H as [Hc Hp].
    rewrite Hc, (IH Hp).
    destruct (XPath.read_args XPath.AfterArg rest) as [[v n] |]; reflexivity.
Qed.

Lemma read_args_squoted (p rest : string) :
  has_char apostrophe p = false ->
  XPath.read_args XPath.BeforeArg (squoted p ++ rest) =
  match XPath.read_args XPath.AfterArg rest with
  | Some (v, n) => Some (p ++ v, S n)
  | None => None
  end.
Proof.
  intros H. unfold squoted.
  change (String apostrophe (p ++ String apostrophe EmptyString) ++ rest)
    with (String apostrophe ((p ++ String apostrophe EmptyString) ++ rest)).
  rewrite append_assoc_str.
  change (String apostrophe EmptyString ++ rest) with (String apostrophe rest).
  cbn [XPath.read_args]. 
  change (XPath.is_ws apostrophe) with false.
  change (XPath.is_quote apostrophe) with true. cbv iota.
  now apply read_args_in_literal.
Qed.

Lemma read_args_separator (rest : string) :
  XPath.read_args XPath.AfterArg (concat_separator ++ rest) =
  match XPath.read_args XPath.BeforeArg rest with
  | Some (v, n) => Some (String apostrophe v, S n)
  | None => None
  end.
Proof.
  cbn. destruct (XPath.read_args XPath.BeforeArg rest) as [[v n] |]; reflexivity.
Qed.

Lemma read_args_close :
  XPath.read_args XPath.AfterArg ")" = Some (EmptyString, 0).
Proof. reflexivity. Qed.

Lemma read_args_joined (parts : list string) :
  parts <> [] ->
  Forall (fun p => has_char apostrophe p = false) parts ->
  XPath.read_args XPath.BeforeArg
    (join concat_separator (map squoted parts) ++ ")") =
  Some (join (String apostrophe EmptyString) parts, 2 * List.length parts - 1).
Proof.
  induction parts as [| p ps IH]; [congruence |]. intros _ Hall.
  inversion Hall as [| ? ? Hp Hps]; subst.
  destruct ps as [| q qs].
  - cbn [map join]. rewrite (read_args_squoted p ")" Hp). rewrite read_args_close.
    now rewrite append_empty_r.
  - change (join concat_separator (map squoted (p :: q :: qs)))
      with (squoted p ++ concat_separator ++ join concat_separator (map squoted (q :: qs))).
    rewrite !append_assoc_str.
    rewrite (read_args_squoted p _ Hp), read_args_separator.
    rewrite (IH ltac:(discriminate) Hps).
    change (join (String apostrophe EmptyString) (p :: q :: qs))
      with (p ++ String apostrophe EmptyString ++ join (String apostrophe EmptyString) (q :: qs)).
    cbn [List.length]. f_equal. f_equal. lia.
Qed.

Lemma string_value_squoted (body : string) :
  XPath.string_value (String apostrophe body) =
  XPath.read_literal_tail apostrophe body.
Proof. reflexivity. Qed.

Lemma string_value_dquoted (body : string) :
  XPath.string_value (String dquote body) =
  XPath.read_literal_tail dquote body.
Proof. reflexivity. Qed.

Lemma string_value_concat (args : string) :
  XPath.string_value ("concat(" ++ args) =
  match XPath.read_args XPath.BeforeArg args with
  | Some (v, n) => if (2 <=? n)%nat then Some v else None
  | None => None
  end.
Proof. reflexivity. Qed.

(** C8. For every label, the text built by [_xpath_literal] is an
    expression of the XPath literal / concat fragment whose string value
    is exactly the label.  It is the label between apostrophes when the
    label has no apostrophe, the label between double quotes when it has
    an apostrophe but no double quote, and otherwise a call of concat
    whose arguments are the apostrophe-free pieces of the label between
    apostrophes, separated by a double-quoted apostrophe. *)
Theorem xpath_literal_denotes_label (s : string) :
  XPath.string_value (_xpath_literal s) = Some s
  /\ ((has_char apostrophe s = false /\ _xpath_literal s = squoted s)
      \/ (has_char apostrophe s = true /\ has_char dquote s = false
          /\ _xpath_literal s = dquoted s)
      \/ (has_char apostrophe s = true /\ has_char dquote s = true
          /\ exists parts,
               _xpath_literal s =
                 "concat(" ++ join concat_separator (map squoted parts) ++ ")"
               /\ 2 <= List.length parts
               /\ Forall (fun p => has_char apostrophe p = false) parts
               /\ join (String apostrophe EmptyString) parts = s)).
Proof.
  unfold _xpath_literal.
  destruct (has_char apostrophe s) eqn:Ha; cbn [negb].
  2:{ split; [| left; split; reflexivity].
      unfold squoted. rewrite string_value_squoted.
      now apply read_literal_tail_closed. }
  destruct (has_char dquote s) eqn:Hd; cbn [negb].
  2:{ split; [| right; left; repeat split; reflexivity].
      unfold dquoted. rewrite string_value_dquoted.
      now apply read_literal_tail_closed. }
  pose proof (split_on_two_parts _ _ Ha) as Hlen.
  pose proof (split_on_parts_free apostrophe s) as Hfree.
  split.
  - rewrite string_value_concat.
    rewrite read_args_joined; [| apply split_on_nonempty | exact Hfree].
    rewrite join_split_on.
    destruct (2 <=? 2 * List.length (split_on apostrophe s) - 1)%nat eqn:E; [reflexivity |].
    apply Nat.leb_gt in E. lia.
  - right; right. repeat split; try reflexivity.
    exists (split_on apostrophe s). repeat split; auto using join_split_on.
Qed.

(** ** The document resolver *)

Section ResolverFacts.

Variable fs : FileSystem.

(** A loop that returns at the first entry passing its test returns the
    first such entry. *)
Lemma person_folder_exact_first (base target : string) (entries : list string) (e : string) :
  first_such (fun x => isdir fs (path_join fs base x) && String.eqb (_norm x) target)
             entries e ->
  person_folder_exact fs base target entries = Some (path_join fs base e).
Proof.
  intros (l1 & l2 & -> & He & Hl1).
  induction l1 as [| x l1 IH]; simpl in *.
  - now rewrite He.
  - apply andb_true_iff in Hl1 as [Hx Hl1].
    apply negb_true_iff in Hx. rewrite Hx. now apply IH.
Qed.

Lemma person_folder_exact_none (base target : string) (entries : list string) :
  forallb (fun x => negb (isdir fs (path_join fs base x) && String.eqb (_norm x) target))
          entries = true ->
  person_folder_exact fs base target entries = None.
Proof.
  induction entries as [| x l IH]; simpl; [reflexivity |].
  intros H. apply andb_true_iff in H as [Hx Hl].
  apply negb_true_iff in Hx. rewrite Hx. now apply IH.
Qed.

Lemma person_folder_fuzzy_first (base target : string) (entries : list string) (e : string) :
  first_such (fun x => isdir fs (path_join fs base x) && contains target (_norm x))
             entries e ->
  person_folder_fuzzy fs base target entries = Some (path_join fs base e).
Proof.
  intros (l1 & l2 & -> & He & Hl1).
  induction l1 as [| x l1 IH]; simpl in *.
  - now rewrite He.
  - apply andb_true_iff in Hl1 as [Hx Hl1].
    apply negb_true_iff in Hx. rewrite Hx. now apply IH.
Qed.

Lemma person_folder_fuzzy_none (base target : string) (entries : list string) :
  forallb (fun x => negb (isdir fs (path_join fs base x) && contains target (_norm x)))
          entries = true ->
  person_folder_fuzzy fs base target entries = None.
Proof.
  induction entries as [| x l IH]; simpl; [reflexivity |].
  intros H. apply andb_true_iff in H as [Hx Hl].
  apply negb_true_iff in Hx. rewrite Hx. now apply IH.
Qed.

(** With an empty target the fallback loop is the search for the first
    subdirectory. *)
Lemma person_folder_fuzzy_blank (base : string) (entries : list string) :
  person_folder_fuzzy fs base EmptyString entries = first_subdirectory fs base entries.
Proof.
  induction entries as [| x l IH]; simpl; [reflexivity |].
  rewrite contains_empty, andb_true_r, IH. reflexivity.
Qed.

Lemma first_subdirectory_some (base : string) (entries : list string) :
  (exists e, In e entries /\ isdir fs (path_join fs base e) = true) ->
  exists p, first_subdirectory fs base entries = Some p.
Proof.
  induction entries as [| x l IH]; simpl; intros (e & Hin & Hd); [contradiction |].
  destruct (isdir fs (path_join fs base x)) eqn:Hx; [eauto |].
  destruct Hin as [-> | Hin]; [congruence |]. apply IH; eauto.
Qed.

Lemma person_folder_exact_is_some_or_none (base target : string) (entries : list string) :
  (exists e, first_such (fun x => isdir fs (path_join fs base x) && String.eqb (_norm x) target) entries e)
  \/ forallb (fun x => negb (isdir fs (path_join fs base x) && String.eqb (_norm x) target)) entries = true.
Proof.
  induction entries as [| x l IH]; [now right |].
  destruct (isdir fs (path_join fs base x) && String.eqb (_norm x) target) eqn:Hx.
  - left. exists x, [], l. repeat split; assumption.
  - destruct IH as [(e & l1 & l2 & -> & He & Hl1) | Hnone].
    + left. exists e, (x :: l1), l2. repeat split; [assumption |].
      simpl. now rewrite Hx.
    + right. simpl. now rewrite Hx.
Qed.

Lemma pdf_preferred_first (lname : string) (cands : list string) (p : string) :
  first_such (fun q => existing_pdf fs q && names_person fs lname q) cands p ->
  pdf_preferred fs lname cands = Some p.
Proof.
  intros (l1 & l2 & -> & Hp & Hl1).
  induction l1 as [| x l1 IH]; simpl in *.
  - apply andb_true_iff in Hp as [-> ->]. reflexivity.
  - apply andb_true_iff in Hl1 as [Hx Hl1].
    apply negb_true_iff in Hx.
    destruct (existing_pdf fs x); [| now apply IH].
    simpl in Hx. rewrite Hx. now apply IH.
Qed.

Lemma pdf_preferred_none (lname : string) (cands : list string) :
  forallb (fun q => negb (existing_pdf fs q && names_person fs lname q)) cands = true ->
  pdf_preferred fs lname cands = None.
Proof.
  induction cands as [| x l IH]; simpl; [reflexivity |].
  intros H. apply andb_true_iff in H as [Hx Hl].
  apply negb_true_iff in Hx.
  destruct (existing_pdf fs x); [| now apply IH].
  simpl in Hx. rewrite Hx. now apply IH.
Qed.

Lemma pdf_fallback_first (cands : list string) (p : string) :
  first_such (existing_pdf fs) cands p -> pdf_fallback fs cands = Some p.
Proof.
  intros (l1 & l2 & -> & Hp & Hl1).
  induction l1 as [| x l1 IH]; simpl in *.
  - now rewrite Hp.
  - apply andb_true_iff in Hl1 as [Hx Hl1].
    apply negb_true_iff in Hx. rewrite Hx. now apply IH.
Qed.

Lemma pdf_fallback_none (cands : list string) :
  forallb (fun q => negb (existing_pdf fs q)) cands = true ->
  pdf_fallback fs cands = None.
Proof.
  induction cands as [| x l IH]; simpl; [reflexivity |].
  intros H. apply andb_true_iff in H as [Hx Hl].
  apply negb_true_iff in Hx. rewrite Hx. now apply IH.
Qed.

Lemma forallb_weaken {A} (P Q : A -> bool) (l : list A) :
  (forall x, P x = true -> Q x = true) ->
  forallb P l = true -> forallb Q l = true.
Proof.
  intros HPQ. induction l as [| x l IH]; simpl; [reflexivity |].
  intros H. apply andb_true_iff in H as [Hx Hl].
  now rewrite (HPQ _ Hx), IH.
Qed.

End ResolverFacts.

(** C3 as worded fails: with the single person folder [John] and the
    name [John Smith], the folder's name is contained in the name, so
    the either-way fallback of the specification picks [/esf/John],
    while [find_person_folder] returns nothing. *)
Lemma find_person_folder_not_either_way :
  let fs := MemFS.make MemFS.esf_short in
  listdir fs "/esf" = inl ["John"]
  /\ spec_find_person_folder fs "/esf" "John Smith" ["John"] = Some "/esf/John"
  /\ find_person_folder fs "/esf" "John Smith" = inl None
  /\ find_person_folder fs "/esf" "John Smith"
     <> inl (spec_find_person_folder fs "/esf" "John Smith" ["John"]).
Proof.
  cbv zeta. repeat split; try reflexivity.
  vm_compute. discriminate.
Qed.

(** C3, amended.  For every listable base directory and person name,
    [find_person_folder] returns the first subdirectory whose normalised
    name equals the normalised person name; only when no subdirectory
    matches exactly does it return the first subdirectory whose
    normalised name contains the normalised person name (containment of
    the folder's name in the person name does not count); with no such
    subdirectory it returns nothing.  For the folders [John Smith] and
    [Jane Doe], the query [john   smith] returns the [John Smith] path. *)
Theorem find_person_folder_exact_then_contains :
  forall (fs : FileSystem) (base name : string) (entries : list string),
    isdir fs base = true ->
    listdir fs base = inl entries ->
    let exact := fun e => isdir fs (path_join fs base e)
                          && String.eqb (_norm e) (_norm name) in
    let loose := fun e => isdir fs (path_join fs base e)
                          && contains (_norm name) (_norm e) in
    (forall e, first_such exact entries e ->
               find_person_folder fs base name = inl (Some (path_join fs base e)))
    /\ (forallb (fun e => negb (exact e)) entries = true ->
        forall e, first_such loose entries e ->
                  find_person_folder fs base name = inl (Some (path_join fs base e)))
    /\ (forallb (fun e => negb (loose e)) entries = true ->
        find_person_folder fs base name = inl None)
    /\ find_person_folder (MemFS.make MemFS.esf) "/esf" "john   smith"
       = inl (Some "/esf/John Smith").
Proof.
  intros fs base name entries Hdir Hls exact loose.
  unfold find_person_folder. rewrite Hdir, Hls. cbn [negb].
  repeat split.
  - intros e He. now rewrite (person_folder_exact_first fs _ _ _ _ He).
  - intros Hnone e He.
    rewrite (person_folder_exact_none fs _ _ _ Hnone).
    now rewrite (person_folder_fuzzy_first fs _ _ _ _ He).
  - intros Hnone.
    rewrite person_folder_exact_none.
    + now rewrite (person_folder_fuzzy_none fs _ _ _ Hnone).
    + revert Hnone. apply forallb_weaken. intros x Hx.
      apply negb_true_iff in Hx. apply negb_true_iff.
      apply andb_false_iff in Hx as [Hx | Hx]; [now rewrite Hx |].
      destruct (isdir fs (path_join fs base x)); [| reflexivity]. simpl.
      destruct (String.eqb_spec (_norm x) (_norm name)) as [E | ]; [| reflexivity].
      rewrite E in Hx.
      assert (contains (_norm name) (_norm name) = true) as Hc.
      { apply contains_spec. exists EmptyString, EmptyString.
        now rewrite append_empty_r. }
      congruence.
Qed.

Lemma find_person_folder_exact_then_contains_witness :
  let fs := MemFS.make MemFS.esf in
  first_such (fun e => isdir fs (path_join fs "/esf" e)
                       && String.eqb (_norm e) (_norm "john   smith"))
             ["John Smith"; "Jane Doe"; "notes.txt"] "John Smith"
  /\ find_person_folder fs "/esf" "john   smith" = inl (Some "/esf/John Smith").
Proof.
  cbv zeta.
  assert (first_such
            (fun e => isdir (MemFS.make MemFS.esf)
                        (path_join (MemFS.make MemFS.esf) "/esf" e)
                      && String.eqb (_norm e) (_norm "john   smith"))
            ["John Smith"; "Jane Doe"; "notes.txt"] "John Smith") as Hfirst.
  { exists [], ["Jane Doe"; "notes.txt"]. repeat split; reflexivity. }
  split; [exact Hfirst |].
  exact (proj1 (find_person_folder_exact_then_contains
                  (MemFS.make MemFS.esf) "/esf" "john   smith"
                  ["John Smith"; "Jane Doe"; "notes.txt"]
                  eq_refl eq_refl) "John Smith" Hfirst).
Defined.

(** C9.  When the base directory is not a directory (it does not exist,
    or it is a file), [find_person_folder] returns nothing, without
    listing it and without raising; when the folder is absent, empty or
    not a directory, [find_pdf_by_prefix] returns nothing. *)
Theorem resolver_absent_without_directory :
  forall (fs : FileSystem) (base name : string) (folder : option string)
         (code : string),
    isdir fs base = false ->
    (folder = None \/ folder = Some EmptyString
     \/ exists dir, folder = Some dir /\ isdir fs dir = false) ->
    find_person_folder fs base name = inl None
    /\ find_pdf_by_prefix fs folder code name = None.
Proof.
  intros fs base name folder code Hbase Hfolder. split.
  - unfold find_person_folder. now rewrite Hbase.
  - destruct Hfolder as [-> | [-> | (dir & -> & Hdir)]]; try reflexivity.
    unfold find_pdf_by_prefix. rewrite Hdir. cbn [negb].
    now rewrite orb_true_r.
Qed.

Lemma resolver_absent_without_directory_witness :
  let fs := MemFS.make MemFS.esf in
  listdir fs "/esf/notes.txt" = inr (mk_exn OSError "No such directory: /esf/notes.txt")
  /\ find_person_folder fs "/esf/notes.txt" "John Smith" = inl None
  /\ find_pdf_by_prefix fs (Some "/missing") "002" "John Smith" = None.
Proof.
  cbv zeta. split; [reflexivity |].
  apply (resolver_absent_without_directory
           (MemFS.make MemFS.esf) "/esf/notes.txt" "John Smith"
           (Some "/missing") "002").
  - reflexivity.
  - right; right. exists "/missing". split; reflexivity.
Defined.

(** C10 as worded fails: with the folders [A] and a folder named by a
    single space, a blank person name matches the second folder exactly,
    and that folder is returned, not the first one in listing order. *)
Lemma blank_name_not_first_subdirectory :
  let fs := MemFS.make MemFS.esf_blank in
  _norm "  " = EmptyString
  /\ listdir fs "/esf" = inl ["A"; " "]
  /\ first_subdirectory fs "/esf" ["A"; " "] = Some "/esf/A"
  /\ find_person_folder fs "/esf" "  " = inl (Some "/esf/ ")
  /\ find_person_folder fs "/esf" "  "
     <> inl (first_subdirectory fs "/esf" ["A"; " "]).
Proof.
  cbv zeta. repeat split; try reflexivity.
  vm_compute. discriminate.
Qed.

(** C10, amended.  When the person name normalises to the empty string
    and the listable base directory has at least one subdirectory, the
    fallback test accepts every subdirectory and [find_person_folder]
    returns a subdirectory, never nothing: the first subdirectory in
    listing order, unless the name of some subdirectory itself
    normalises to the empty string, in which case the first such
    subdirectory is returned by the exact pass. *)
Theorem blank_name_returns_a_subdirectory :
  forall (fs : FileSystem) (base name : string) (entries : list string),
    _norm name = EmptyString ->
    isdir fs base = true ->
    listdir fs base = inl entries ->
    (exists e, In e entries /\ isdir fs (path_join fs base e) = true) ->
    let blank := fun e => isdir fs (path_join fs base e)
                          && String.eqb (_norm e) EmptyString in
    (forall e, contains (_norm name) (_norm e) = true)
    /\ (exists p, find_person_folder fs base name = inl (Some p))
    /\ (forallb (fun e => negb (blank e)) entries = true ->
        find_person_folder fs base name = inl (first_subdirectory fs base entries))
    /\ (forall e, first_such blank entries e ->
        find_person_folder fs base name = inl (Some (path_join fs base e))).
Proof.
  intros fs base name entries Hname Hdir Hls Hsub blank.
  unfold find_person_folder. rewrite Hname, Hdir, Hls. cbn [negb].
  split; [intros e; apply contains_empty |].
  split; [| split].
  - destruct (person_folder_exact fs base EmptyString entries) as [p |]; [eauto |].
    rewrite person_folder_fuzzy_blank.
    destruct (first_subdirectory_some fs base entries Hsub) as [p ->]. eauto.
  - intros Hnone.
    rewrite (person_folder_exact_none fs _ _ _ Hnone).
    now rewrite person_folder_fuzzy_blank.
  - intros e He. now rewrite (person_folder_exact_first fs _ _ _ _ He).
Qed.

Lemma blank_name_returns_a_subdirectory_witness :
  let fs := MemFS.make MemFS.esf in
  find_person_folder fs "/esf" "   "
  = inl (first_subdirectory fs "/esf" ["John Smith"; "Jane Doe"; "notes.txt"])
  /\ first_subdirectory fs "/esf" ["John Smith"; "Jane Doe"; "notes.txt"]
     = Some "/esf/John Smith".
Proof.
  cbv zeta. split; [| reflexivity].
  refine (proj1 (proj2 (proj2 (blank_name_returns_a_subdirectory
            (MemFS.make MemFS.esf) "/esf" "   "
            ["John Smith"; "Jane Doe"; "notes.txt"]
            eq_refl eq_refl eq_refl _))) eq_refl).
  exists "John Smith". split; [now left | reflexivity].
Defined.

(** C2.  In an existing folder, [find_pdf_by_prefix] looks at the three
    constructed names and then at the glob results for the prefix.  It
    returns the first of these that is an existing [.pdf] file whose
    normalised file name contains the normalised person name (the name
    as it enters the constructed file names, without the characters a
    file name may not hold); when no candidate qualifies, the first
    candidate that is an existing [.pdf] file; when none exists,
    nothing.  With [002 John Smith.pdf] present
    that path is returned; the variant [002_john_smith.pdf] is still
    found; with no file prefixed [002] the result is nothing. *)
Theorem find_pdf_by_prefix_prefers_named :
  forall (fs : FileSystem) (dir code name : string),
    truthy dir = true ->
    isdir fs dir = true ->
    let cands := pdf_candidates fs dir code name in
    let lname := _norm (pdf_base name) in
    let named := fun q => existing_pdf fs q && names_person fs lname q in
    (forall p, first_such named cands p ->
               find_pdf_by_prefix fs (Some dir) code name = Some p)
    /\ (forallb (fun q => negb (named q)) cands = true ->
        forall p, first_such (existing_pdf fs) cands p ->
                  find_pdf_by_prefix fs (Some dir) code name = Some p)
    /\ (forallb (fun q => negb (existing_pdf fs q)) cands = true ->
        find_pdf_by_prefix fs (Some dir) code name = None)
    /\ find_pdf_by_prefix (MemFS.make MemFS.esf) (Some "/esf/John Smith")
         "002" "John Smith" = Some "/esf/John Smith/002 John Smith.pdf"
    /\ find_pdf_by_prefix (MemFS.make MemFS.esf_variant) (Some "/esf/John Smith")
         "002" "John Smith" = Some "/esf/John Smith/002_john_smith.pdf"
    /\ find_pdf_by_prefix (MemFS.make MemFS.esf_no_ic) (Some "/esf/John Smith")
         "002" "John Smith" = None.
Proof.
  intros fs dir code name Htruthy Hdir cands lname named.
  unfold find_pdf_by_prefix. rewrite Htruthy, Hdir. cbn [negb orb].
  fold cands. fold lname.
  repeat split.
  - intros p Hp. now rewrite (pdf_preferred_first fs _ _ _ Hp).
  - intros Hnone p Hp.
    rewrite (pdf_preferred_none fs _ _ Hnone).
    now apply pdf_fallback_first.
  - intros Hnone.
    rewrite pdf_preferred_none.
    + now apply pdf_fallback_none.
    + revert Hnone. apply forallb_weaken. intros x Hx.
      apply negb_true_iff in Hx. unfold named. now rewrite Hx.
Qed.

Lemma find_pdf_by_prefix_prefers_named_witness :
  let fs := MemFS.make MemFS.esf_variant in
  pdf_candidates fs "/esf/John Smith" "002" "John Smith"
  = [ "/esf/John Smith/002 John Smith.pdf";
      "/esf/John Smith/002_John Smith.pdf";
      "/esf/John Smith/002-John Smith.pdf";
      "/esf/John Smith/002_john_smith.pdf" ]
  /\ find_pdf_by_prefix fs (Some "/esf/John Smith") "002" "John Smith"
     = Some "/esf/John Smith/002_john_smith.pdf".
Proof.
  cbv zeta. split; [reflexivity |].
  refine (proj1 (proj2 (find_pdf_by_prefix_prefers_named
            (MemFS.make MemFS.esf_variant) "/esf/John Smith" "002" "John Smith"
            eq_refl eq_refl)) eq_refl _ _).
  exists [ "/esf/John Smith/002 John Smith.pdf";
           "/esf/John Smith/002_John Smith.pdf";
           "/esf/John Smith/002-John Smith.pdf" ], [].
  repeat split; reflexivity.
Defined.

(** ** Runs of programs *)

Lemma exec_bind {A B} (p : prog A) (f : A -> prog B) (tr : list event)
    (res : result B) :
  exec (bind p f) tr res <->
  (exists tr1 a tr2, exec p tr1 (inl a) /\ exec (f a) tr2 res /\ tr = (tr1 ++ tr2)%list)
  \/ (exists e, exec p tr (inr e) /\ res = inr e).
Proof.
  revert tr. induction p as [a | e | X c k IH]; intros tr; cbn [bind exec].
  - split.
    + intros H. left. exists [], a, tr. auto.
    + intros [(tr1 & a' & tr2 & [-> Ha] & H & ->) | (e & [_ He] & _)];
        [| discriminate].
      injection Ha as <-. exact H.
  - split.
    + intros [-> ->]. right. exists e. auto.
    + intros [(tr1 & a' & tr2 & [_ Ha] & _) | (e' & [-> He] & ->)];
        [discriminate |].
      injection He as <-. auto.
  - split.
    + intros (r & tr' & Hv & -> & H). apply IH in H.
      destruct H as [(tr1 & a & tr2 & H1 & H2 & ->) | (e & H1 & ->)].
      * left. exists (Ev c r :: tr1), a, tr2. repeat split; eauto.
      * right. exists e. split; eauto.
    + intros [(tr1 & a & tr2 & (r & tr' & Hv & -> & H1) & H2 & ->)
             | (e & (r & tr' & Hv & -> & H1) & ->)].
      * exists r, (tr' ++ tr2)%list. repeat split; auto.
        apply IH. left. eauto 6.
      * exists r, tr'. repeat split; auto. apply IH. right. eauto.
Qed.

Lemma exec_try {A} (p : prog A) (h : exn -> prog A) (tr : list event)
    (res : result A) :
  exec (try_except p h) tr res <->
  (exists a, exec p tr (inl a) /\ res = inl a)
  \/ (exists tr1 e tr2, exec p tr1 (inr e) /\ exec (h e) tr2 res /\ tr = (tr1 ++ tr2)%list).
Proof.
  revert tr. induction p as [a | e | X c k IH]; intros tr; cbn [try_except exec].
  - split.
    + intros [-> ->]. left. eauto.
    + intros [(a' & [-> Ha] & ->) | (tr1 & e & tr2 & [_ He] & _)];
        [auto | discriminate].
  - split.
    + intros H. right. exists [], e, tr. auto.
    + intros [(a' & [_ Ha] & _) | (tr1 & e' & tr2 & [-> He] & H & ->)];
        [discriminate |].
      injection He as <-. exact H.
  - split.
    + intros (r & tr' & Hv & -> & H). apply IH in H.
      destruct H as [(a & H1 & ->) | (tr1 & e & tr2 & H1 & H2 & ->)].
      * left. exists a. split; eauto.
      * right. exists (Ev c r :: tr1), e, tr2. repeat split; eauto.
    + intros [(a & (r & tr' & Hv & -> & H1) & ->)
             | (tr1 & e & tr2 & (r & tr' & Hv & -> & H1) & H2 & ->)].
      * exists r, tr'. repeat split; auto. apply IH. left. eauto.
      * exists r, (tr' ++ tr2)%list. repeat split; auto.
        apply IH. right. eauto 6.
Qed.

Lemma exec_trigger {X} (c : call X) (tr : list event) (res : result X) :
  exec (trigger c) tr res <-> valid_answer c res /\ tr = [Ev c res].
Proof.
  unfold trigger. cbn [exec]. split.
  - intros (r & tr' & Hv & -> & H).
    destruct r; destruct H as [-> ->]; auto.
  - intros [Hv ->]. exists res, []. destruct res; cbn [exec]; repeat split; auto.
Qed.

Lemma exec_ret {A} (a : A) (tr : list event) (res : result A) :
  exec (Ret a) tr res <-> tr = [] /\ res = inl a.
Proof. reflexivity. Qed.

Lemma answer_call_valid {X} (c : call X) (a : option answer) :
  valid_answer c (answer_call c a).
Proof.
  destruct a as [[] |]; cbn; auto.
  destruct (can_raise c) eqn:E; cbn; auto.
Qed.

(** A scripted run is a run. *)
Lemma run_exec {A} (p : prog A) (script : list answer) :
  exec p (fst (run p script)) (snd (run p script)).
Proof.
  revert script. induction p as [a | e | X c k IH]; intros script; cbn [run exec].
  - auto.
  - auto.
  - specialize (IH (answer_call c (hd_error script)) (tl script)).
    destruct (run (k (answer_call c (hd_error script))) (tl script)) as [tr res].
    exists (answer_call c (hd_error script)), tr.
    split; [apply answer_call_valid | auto].
Qed.

(** Every program ends, whatever it is answered: programs are finite
    trees of calls. *)
Lemma exec_total {A} (p : prog A) :
  exists tr res, exec p tr res.
Proof.
  exists (fst (run p [])), (snd (run p [])). apply run_exec.
Qed.

(** Opens a run at the call the program starts with: names the answer
    and the rest of the trace. *)
Tactic Notation "exec_step" hyp(H) "as" ident(r) ident(t) :=
  cbn [bind trigger exec] in H;
  let Hv := fresh "Hvalid" in
  destruct H as (r & t & Hv & -> & H).

(** ** The retry shell *)

Lemma warn_and_fail_false (label : string) (last : option exn)
    (tr : list event) (res : result bool) :
  exec (warn_and_fail label last) tr res ->
  tr = [Ev (Print ("[WARN] " ++ label ++ ": " ++ str_last_err last)) (inl tt)]
  /\ res = inl false.
Proof.
  unfold warn_and_fail. cbn [bind trigger exec].
  intros (r & tr' & Hv & -> & H). destruct r as [[] | e].
  - destruct H as [-> ->]. auto.
  - cbn in Hv. discriminate.
Qed.

Lemma retry_handler_flow (e : exn) (tr : list event) (f : flow) :
  exec (retry_handler e) tr (inl f) -> f = Continue e \/ f = Break e.
Proof.
  unfold retry_handler, wait_dom_idle.
  destruct (is_transient e); cbn [bind trigger exec].
  - intros (r & tr' & Hv & -> & H). destruct r as [[] | x]; cbn [bind exec] in H.
    + destruct H as (r & tr'' & Hv' & -> & H). destruct r as [[] | x]; cbn [bind exec] in H.
      * destruct H as [_ H]. injection H as <-. auto.
      * destruct H as [_ H]. discriminate.
    + destruct H as [_ H]. discriminate.
  - intros [_ H]. injection H as <-. auto.
Qed.

(** The loop answers [True] only right after its body did. *)
Lemma retry_loop_true (body : prog bool) (label : string) (n : nat)
    (last : option exn) (tr : list event) :
  exec (retry_loop body label n last) tr (inl true) ->
  exists tr0 tr1, tr = (tr0 ++ tr1)%list /\ exec body tr1 (inl true).
Proof.
  revert last tr. induction n as [| n IH]; intros last tr H; cbn [retry_loop] in H.
  - apply warn_and_fail_false in H as [_ H]. discriminate.
  - apply exec_bind in H as [(tr1 & f & tr2 & Htry & Hrest & ->) | (e & _ & H)];
      [| discriminate].
    apply exec_try in Htry
      as [(f' & Hbody & Hf) | (tr1a & e & tr1b & _ & Hh & ->)].
    + injection Hf as <-.
      apply exec_bind in Hbody as [(tb & ok & tb' & Hb & Hret & ->) | (e & _ & H)];
        [| discriminate].
      cbn [exec] in Hret. destruct Hret as [-> Hret]. rewrite app_nil_r.
      injection Hret as ->.
      destruct ok; cbn [exec] in Hrest.
      * destruct Hrest as [-> _]. exists [], tb. rewrite app_nil_r. auto.
      * destruct (IH _ _ Hrest) as (tr0 & tr1 & -> & Hb').
        exists (tb ++ tr0)%list, tr1. rewrite app_assoc. auto.
    + apply retry_handler_flow in Hh as [-> | ->].
      * destruct (IH _ _ Hrest) as (tr0 & tr1 & -> & Hb').
        exists ((tr1a ++ tr1b) ++ tr0)%list, tr1. rewrite !app_assoc. auto.
      * apply warn_and_fail_false in Hrest as [_ H]. discriminate.
Qed.

(** As soon as the body answers [True], so does the loop. *)
Lemma retry_loop_first_success (body : prog bool) (label : string) (n : nat)
    (last : option exn) (tr : list event) :
  exec body tr (inl true) ->
  exec (retry_loop body label (S n) last) tr (inl true).
Proof.
  intros H. cbn [retry_loop]. apply exec_bind. left.
  exists tr, ReturnTrue, []. rewrite app_nil_r. repeat split.
  apply exec_try. left. exists ReturnTrue. split; [| reflexivity].
  apply exec_bind. left. exists tr, true, []. rewrite app_nil_r.
  repeat split. exact H.
Qed.

(** ** The text setter *)

Lemma fill_text_attempt_true (label value : string) (tr : list event) :
  exec (fill_text_attempt label value) tr (inl true) ->
  exists tr0 el v,
    tr = (tr0 ++ [Ev (Clear el) (inl tt); Ev (SendKeys el value) (inl tt);
                  Ev (GetValue el) (inl v)])%list
    /\ strip (str_val v) = strip value.
Proof.
  unfold fill_text_attempt. intros H.
  apply exec_bind in H as [(tr1 & el & tr2 & Hloc & H & ->) | (e & _ & H)];
    [| discriminate].
  exec_step H as r1 t1. destruct r1 as [[] | x]; cbn [bind exec] in H;
    [| destruct H; discriminate].
  exec_step H as r2 t2. destruct r2 as [[] | x]; cbn [bind exec] in H;
    [| destruct H; discriminate].
  exec_step H as r3 t3. destruct r3 as [[] | x]; cbn [bind exec] in H;
    [| destruct H; discriminate].
  exec_step H as r4 t4. destruct r4 as [[] | x]; cbn [bind exec] in H;
    [| destruct H; discriminate].
  exec_step H as r5 t5. destruct r5 as [v | x]; cbn [bind exec] in H;
    [| destruct H; discriminate].
  destruct H as [-> H]. injection H as H. symmetry in H.
  apply String.eqb_eq in H.
  exists (tr1 ++ [Ev (RemoveReadonly el) (inl tt); Ev (ScrollIntoView el) (inl tt)])%list,
    el, v.
  split; [| exact H]. rewrite <- app_assoc. reflexivity.
Qed.

(** C1.  Whenever [fill_text_with_retry] returns [True], the run ends
    with the element being cleared, the value typed into it, and the
    value read back from that same element; the read-back value equals
    the intended value once both are trimmed.  There is no other way to
    return [True]. *)
Theorem fill_text_success_means_readback :
  forall (label value : string) (retries : Z) (tr : list event),
    exec (fill_text_with_retry label value retries) tr (inl true) ->
    exists tr0 el v,
      tr = (tr0 ++ [Ev (Clear el) (inl tt); Ev (SendKeys el value) (inl tt);
                    Ev (GetValue el) (inl v)])%list
      /\ strip (str_val v) = strip value.
Proof.
  intros label value retries tr H. unfold fill_text_with_retry in H.
  apply retry_loop_true in H as (tr0 & tr1 & -> & H).
  apply fill_text_attempt_true in H as (tr0' & el & v & -> & Hv).
  exists (tr0 ++ tr0')%list, el, v. split; [| exact Hv].
  now rewrite app_assoc.
Qed.

Lemma fill_text_success_means_readback_witness :
  exists tr0 el v,
    fst (run (fill_text_with_retry "IC Number" "S1234567A" 3)
             Scripts.typed_and_read_back)
    = (tr0 ++ [Ev (Clear el) (inl tt); Ev (SendKeys el "S1234567A") (inl tt);
               Ev (GetValue el) (inl v)])%list
    /\ strip (str_val v) = strip "S1234567A".
Proof.
  apply (fill_text_success_means_readback "IC Number" "S1234567A" 3).
  change (inl true) with
    (snd (run (fill_text_with_retry "IC Number" "S1234567A" 3)
              Scripts.typed_and_read_back)).
  apply run_exec.
Defined.

(** ** The selection setter *)

Lemma lower_empty (s : string) : lower s = EmptyString -> s = EmptyString.
Proof. destruct s; [reflexivity | discriminate]. Qed.

Lemma prefix_of_empty (s : string) :
  String.prefix s EmptyString = true -> s = EmptyString.
Proof. destruct s; [reflexivity | discriminate]. Qed.

Lemma contains_in_empty (s : string) :
  contains s EmptyString = true -> s = EmptyString.
Proof. apply prefix_of_empty. Qed.

Lemma contains_refl (s : string) : contains s s = true.
Proof.
  apply contains_spec. exists EmptyString, EmptyString.
  now rewrite append_empty_r.
Qed.

Lemma find_first_such {A} (P : A -> bool) (l : list A) (x : A) :
  find P l = Some x -> first_such P l x.
Proof.
  induction l as [| y l IH]; simpl; [discriminate |].
  destruct (P y) eqn:Hy.
  - intros H. injection H as <-. exists [], l. auto.
  - intros H. destruct (IH H) as (l1 & l2 & -> & Hx & Hl1).
    exists (y :: l1), l2. repeat split; auto. simpl. now rewrite Hy.
Qed.

Lemma find_none_forallb {A} (P : A -> bool) (l : list A) :
  find P l = None -> forallb (fun x => negb (P x)) l = true.
Proof.
  induction l as [| y l IH]; simpl; [reflexivity |].
  destruct (P y); [discriminate | auto].
Qed.

Lemma ci_equal_empty_option (value : string) (options : list string) :
  first_such (ci_equal value) options EmptyString ->
  forallb (fun o => negb (ci_equal value o && truthy o)) options = true.
Proof.
  intros (l1 & l2 & _ & He & _).
  unfold ci_equal in He. apply String.eqb_eq in He. simpl in He.
  symmetry in He. apply lower_empty in He. subst value.
  apply forallb_forall. intros o _. unfold ci_equal.
  destruct (String.eqb_spec (lower o) (lower EmptyString)) as [E | ]; [| reflexivity].
  apply lower_empty in E. now subst o.
Qed.

Lemma fuzzy_match_chosen (value : string) (options : list string) :
  match fuzzy_match value options with
  | Some m =>
      if truthy m then loosely_chosen value options m
      else value = EmptyString
  | None => forallb (fun o => negb (ci_contains value o)) options = true
  end.
Proof.
  unfold fuzzy_match, match_ci_exact, match_ci_substring.
  destruct (find (ci_equal value) options) as [m1 |] eqn:E1.
  - apply find_first_such in E1.
    destruct m1 as [| c m1].
    + cbn [truthy_opt truthy negb].
      pose proof (ci_equal_empty_option _ _ E1) as Hnone.
      assert (value = EmptyString) as Hv.
      { destruct E1 as (_ & _ & _ & He & _). unfold ci_equal in He.
        apply String.eqb_eq in He. symmetry in He. now apply lower_empty in He. }
      destruct (find (ci_contains value) options) as [m2 |] eqn:E2.
      * apply find_first_such in E2.
        destruct m2 as [| c m2]; cbn [truthy]; [exact Hv |].
        split; [discriminate | right; auto].
      * now apply find_none_forallb.
    + cbn [truthy_opt truthy negb]. split; [discriminate | left; exact E1].
  - cbn [truthy_opt negb].
    pose proof (find_none_forallb _ _ E1) as Hnone.
    destruct (find (ci_contains value) options) as [m2 |] eqn:E2.
    + apply find_first_such in E2.
      destruct m2 as [| c m2]; cbn [truthy].
      * destruct E2 as (_ & _ & _ & He & _). unfold ci_contains in He.
        apply contains_in_empty in He. now apply lower_empty in He.
      * split; [discriminate | right; split; [| exact E2]].
        revert Hnone. apply forallb_weaken. intros o Ho.
        apply negb_true_iff in Ho. now rewrite Ho.
    + now apply find_none_forallb.
Qed.

Lemma select_attempt_verdict (label value : string) (tr : list event) (b : bool) :
  exec (select_attempt label value) tr (inl b) ->
  exists tr0 sel s,
    tr = (tr0 ++ [Ev (FirstSelectedText sel) (inl s)])%list
    /\ b = truthy (strip s).
Proof.
  unfold select_attempt. intros H.
  apply exec_bind in H as [(tr1 & sel & tr2 & _ & H & ->) | (e & _ & H)];
    [| discriminate].
  apply exec_bind in H as [(tr3 & u & tr4 & _ & H & ->) | (e & _ & H)];
    [| discriminate].
  exec_step H as r t. destruct r as [s | x]; cbn [bind exec] in H;
    [| destruct H; discriminate].
  destruct H as [-> H]. injection H as ->.
  exists (tr1 ++ tr3)%list, sel, s. split; [| reflexivity].
  now rewrite <- app_assoc.
Qed.

(** C4.  In every run of the selection step, the exact visible text is
    selected first.  If that call returns, nothing else is attempted: no
    option text is read and no other option is selected.  Only if it
    raises are the option texts read, and then at most one further
    selection is made, of the first (non-empty) option equal to the value
    up to case, or, when there is none, of the first option containing
    the value up to case.  [select_with_retry] returns [True] exactly on
    a non-empty read-back of the selected option's text: the verdict of
    an attempt is the non-emptiness of that text, whatever the value,
    and a run in which no option matches at all still returns [True]
    when the placeholder option is selected. *)
Theorem select_exact_then_fuzzy_weak_check :
  (forall (sel : elem) (value : string) (tr : list event) (res : result unit),
      exec (select_choice sel value) tr res ->
      exists r0 rest,
        tr = Ev (SelectByVisibleText sel value) r0 :: rest
        /\ match r0 with
           | inl _ => rest = [] /\ res = inl tt
           | inr _ =>
               exists r1 rest',
                 rest = Ev (OptionTexts sel) r1 :: rest'
                 /\ match r1 with
                    | inr e => rest' = [] /\ res = inr e
                    | inl raw =>
                        (rest' = [] /\ res = inl tt
                         /\ (value = EmptyString
                             \/ forallb (fun o => negb (ci_contains value o))
                                        (map strip raw) = true))
                        \/ (exists m,
                               rest' = [Ev (SelectByVisibleText sel m) res]
                               /\ loosely_chosen value (map strip raw) m)
                    end
           end)
  /\ (forall (label value : string) (retries : Z) (tr : list event),
         exec (select_with_retry label value retries) tr (inl true) ->
         exists tr0 sel s,
           tr = (tr0 ++ [Ev (FirstSelectedText sel) (inl s)])%list
           /\ strip s <> EmptyString)
  /\ (forall (label value : string) (tr : list event) (b : bool),
         exec (select_attempt label value) tr (inl b) ->
         exists tr0 sel s,
           tr = (tr0 ++ [Ev (FirstSelectedText sel) (inl s)])%list
           /\ b = truthy (strip s))
  /\ run (select_with_retry "Sex" "Male" 3) Scripts.nothing_matches
     = ([ Ev TimeTime (inl 0%Z); Ev TimeTime (inl 0%Z);
          Ev (WaitPresence 6
                "//tr[td[normalize-space()='Sex']]/td[position()=2]//select")
             (inl 7);
          Ev (ScrollIntoView 7) (inl tt); Ev (NewSelect 7) (inl tt);
          Ev (SelectByVisibleText 7 "Male") (inr Scripts.no_such_option);
          Ev (OptionTexts 7) (inl ["-- Select --"; "M"; "F"]);
          Ev (FirstSelectedText 7) (inl "-- Select --") ],
        inl true).
Proof.
  split; [| split; [| split]].
  - intros sel value tr res H. unfold select_choice in H.
    cbn [try_except trigger exec] in H.
    destruct H as (r0 & rest & _ & -> & H).
    exists r0, rest. split; [reflexivity |].
    destruct r0 as [[] | x]; cbn [try_except exec] in H; [exact H |].
    unfold select_fuzzy in H. exec_step H as r1 rest'.
    exists r1, rest'. split; [reflexivity |].
    destruct r1 as [raw | e]; cbn [bind exec] in H; [| exact H].
    pose proof (fuzzy_match_chosen value (map strip raw)) as Hm.
    destruct (fuzzy_match value (map strip raw)) as [m |].
    + destruct (truthy m).
      * right. exists m. apply exec_trigger in H as [_ ->]. auto.
      * left. destruct H as [-> ->]. auto.
    + left. destruct H as [-> ->]. auto.
  - intros label value retries tr H. unfold select_with_retry in H.
    apply retry_loop_true in H as (tr0 & tr1 & -> & H).
    apply select_attempt_verdict in H as (tr0' & sel & s & -> & Hs).
    exists (tr0 ++ tr0')%list, sel, s. split; [now rewrite app_assoc |].
    intros E. rewrite E in Hs. discriminate.
  - exact select_attempt_verdict.
  - reflexivity.
Qed.

Lemma select_exact_then_fuzzy_weak_check_witness :
  exists tr0 sel s,
    fst (run (select_with_retry "Sex" "Male" 3) Scripts.nothing_matches)
    = (tr0 ++ [Ev (FirstSelectedText sel) (inl s)])%list
    /\ strip s <> EmptyString.
Proof.
  apply (proj1 (proj2 select_exact_then_fuzzy_weak_check) "Sex" "Male" 3%Z).
  change (inl true) with
    (snd (run (select_with_retry "Sex" "Male" 3) Scripts.nothing_matches)).
  apply run_exec.
Defined.

(** ** What escapes the retry shell *)

(** The loop returns [False] only after printing its warning. *)
Lemma retry_loop_false (body : prog bool) (label : string) (n : nat)
    (last : option exn) (tr : list event) :
  exec (retry_loop body label n last) tr (inl false) ->
  exists tr0 err,
    tr = (tr0 ++ [Ev (Print ("[WARN] " ++ label ++ ": " ++ str_last_err err))
                     (inl tt)])%list.
Proof.
  revert last tr. induction n as [| n IH]; intros last tr H; cbn [retry_loop] in H.
  - apply warn_and_fail_false in H as [-> _]. now exists [], last.
  - apply exec_bind in H as [(tr1 & f & tr2 & Htry & Hrest & ->) | (e & _ & H)];
      [| discriminate].
    destruct f as [| | e | e].
    + destruct Hrest as [_ H]. discriminate.
    + destruct (IH _ _ Hrest) as (tr0 & err & ->).
      exists (tr1 ++ tr0)%list, err. now rewrite app_assoc.
    + destruct (IH _ _ Hrest) as (tr0 & err & ->).
      exists (tr1 ++ tr0)%list, err. now rewrite app_assoc.
    + apply warn_and_fail_false in Hrest as [-> _]. now exists tr1, (Some e).
Qed.

(** The only exception that leaves the loop is the one [wait_dom_idle]
    raises inside the handler of a transient error. *)
Lemma retry_loop_raises (body : prog bool) (label : string) (n : nat)
    (last : option exn) (tr : list event) (e : exn) :
  exec (retry_loop body label n last) tr (inr e) ->
  exists tr0, tr = (tr0 ++ [Ev (Sleep 200) (inl tt);
                            Ev (WaitReadyState 6) (inr e)])%list.
Proof.
  revert last tr. induction n as [| n IH]; intros last tr H; cbn [retry_loop] in H.
  - apply warn_and_fail_false in H as [_ H]. discriminate.
  - apply exec_bind in H as [(tr1 & f & tr2 & Htry & Hrest & ->) | (e' & Htry & He)].
    + destruct f as [| | x | x].
      * destruct Hrest as [_ H]. discriminate.
      * destruct (IH _ _ Hrest) as (tr0 & ->).
        exists (tr1 ++ tr0)%list. now rewrite app_assoc.
      * destruct (IH _ _ Hrest) as (tr0 & ->).
        exists (tr1 ++ tr0)%list. now rewrite app_assoc.
      * apply warn_and_fail_false in Hrest as [_ H]. discriminate.
    + injection He as <-.
      apply exec_try in Htry
        as [(f' & _ & Hf) | (tr1a & x & tr1b & _ & Hh & ->)]; [discriminate |].
      unfold retry_handler, wait_dom_idle in Hh.
      destruct (is_transient x); [| destruct Hh; discriminate].
      exec_step Hh as r1 t1. destruct r1 as [[] | y]; cbn [bind exec] in Hh;
        [| cbn in Hvalid; discriminate].
      exec_step Hh as r2 t2. destruct r2 as [[] | y]; cbn [bind exec] in Hh.
      * destruct Hh; discriminate.
      * destruct Hh as [-> Hh]. injection Hh as ->. now exists tr1a.
Qed.

(** C5 fails on the code.  In the run below the element goes stale while
    it is being cleared; the handler of the transient error sleeps and
    calls [wait_dom_idle], the page does not become ready, and the
    [TimeoutException] raised inside the handler leaves
    [fill_text_with_retry]: no warning is printed and no [False] is
    returned.  [select_with_retry] shares the handler and fails the same
    way. *)
Theorem setters_leak_wait_dom_idle_timeout :
  run (fill_text_with_retry "IC Number" "S1234567A" 3)
      Scripts.stale_then_never_idle
  = ([ Ev TimeTime (inl 0%Z); Ev TimeTime (inl 0%Z);
       Ev (WaitPresence 6
             "//tr[td[normalize-space()='IC Number']]/td[position()=2]//input[not(@type='hidden')]")
          (inl 7);
       Ev (ScrollIntoView 7) (inl tt); Ev (RemoveReadonly 7) (inl tt);
       Ev (ScrollIntoView 7) (inl tt);
       Ev (Clear 7) (inr Scripts.stale);
       Ev (Sleep 200) (inl tt);
       Ev (WaitReadyState 6) (inr Scripts.timed_out) ],
     inr Scripts.timed_out)
  /\ run (select_with_retry "Sex" "Male" 3)
         Scripts.stale_select_then_never_idle
     = ([ Ev TimeTime (inl 0%Z); Ev TimeTime (inl 0%Z);
          Ev (WaitPresence 6
                "//tr[td[normalize-space()='Sex']]/td[position()=2]//select")
             (inl 7);
          Ev (ScrollIntoView 7) (inl tt); Ev (NewSelect 7) (inl tt);
          Ev (SelectByVisibleText 7 "Male") (inr Scripts.stale);
          Ev (OptionTexts 7) (inr Scripts.stale);
          Ev (Sleep 200) (inl tt);
          Ev (WaitReadyState 6) (inr Scripts.timed_out) ],
        inr Scripts.timed_out).
Proof. split; reflexivity. Qed.

(** ** The locator *)

Lemma wait_xpaths_app (a b : list event) :
  wait_xpaths (a ++ b) = (wait_xpaths a ++ wait_xpaths b)%list.
Proof.
  induction a as [| e a IH]; simpl; [reflexivity |].
  destruct (event_wait e) as [[t xp] |]; simpl; now rewrite IH.
Qed.

Lemma raised_app (a b : list event) :
  raised (a ++ b) = (raised a ++ raised b)%list.
Proof.
  induction a as [| e a IH]; simpl; [reflexivity |].
  destruct (event_raised e); simpl; now rewrite IH.
Qed.

Lemma waits_use_deadline_app (end_time : Z) (a b : list event) (prev : option Z) :
  waits_use_deadline end_time prev a ->
  (forall prev', waits_use_deadline end_time prev' b) ->
  waits_use_deadline end_time prev (a ++ b).
Proof.
  revert prev. induction a as [| e a IH]; simpl; intros prev Ha Hb; [apply Hb |].
  destruct Ha as [He Ha]. split; [exact He | now apply IH].
Qed.

Lemma remaining_seconds_bounds (t0 timeout now : Z) :
  (t0 <= now)%Z ->
  (1 <= remaining_seconds (t0 + timeout * 1000) now <= Z.max 1 timeout)%Z.
Proof.
  intros Hle. unfold remaining_seconds. split; [lia |].
  assert ((t0 + timeout * 1000 - now) ÷ 1000 <= timeout)%Z as Hq.
  { rewrite <- (Z.quot_mul timeout 1000) at 2 by lia.
    apply Z.quot_le_mono; lia. }
  lia.
Qed.

Section LocateLoop.

Variable once : string -> prog elem.
Variable tail : elem -> list event.
Variable end_time : Z.
Variables what label : string.

(** What one pattern's [try] body does: it reads the clock, waits for
    the pattern with the time left, and either completes on the element
    found or raises exactly once. *)
Hypothesis once_run :
  forall xp tr res,
    exec (once xp) tr res ->
    wait_xpaths tr = [xp]
    /\ (forall prev, waits_use_deadline end_time prev tr)
    /\ match res with
       | inl el =>
           raised tr = []
           /\ exists now,
               tr = Ev TimeTime (inl now)
                    :: Ev (WaitPresence (remaining_seconds end_time now) xp) (inl el)
                    :: tail el
       | inr e => raised tr = [e]
       end.

Lemma locate_loop_run (xpaths : list string) (last : option exn)
    (tr : list event) (res : result elem) :
  exec (locate_loop once what label xpaths last) tr res ->
  (exists rest, xpaths = (wait_xpaths tr ++ rest)%list)
  /\ (forall prev, waits_use_deadline end_time prev tr)
  /\ match res with
     | inl el =>
         List.length (raised tr) + 1 = List.length (wait_xpaths tr)
         /\ exists tr0 now xp,
             tr = (tr0 ++ Ev TimeTime (inl now)
                      :: Ev (WaitPresence (remaining_seconds end_time now) xp) (inl el)
                      :: tail el)%list
     | inr e =>
         wait_xpaths tr = xpaths
         /\ List.length (raised tr) = List.length xpaths
         /\ e = mk_exn RuntimeError
                  ("Could not locate " ++ what ++ " for label: " ++ label
                   ++ " (" ++ str_last_err (last_opt (raised tr) last) ++ ")")
     end.
Proof.
  revert last tr. induction xpaths as [| xp rest IH]; intros last tr H;
    cbn [locate_loop] in H.
  - destruct H as [-> ->]. cbn. repeat split; auto. now exists [].
  - apply exec_try in H as [(el & H & ->) | (tr1 & e & tr2 & H1 & H2 & ->)].
    + destruct (once_run _ _ _ H) as (Hw & Hd & Hr & now & Htr).
      rewrite Hw, Hr. repeat split; auto.
      * now exists rest.
      * exists [], now, xp. exact Htr.
    + destruct (once_run _ _ _ H1) as (Hw & Hd & Hr).
      destruct (IH _ _ H2) as ((rest' & Hrest) & Hd2 & Hres).
      rewrite wait_xpaths_app, raised_app, Hw, Hr.
      split; [exists rest'; cbn; now rewrite <- Hrest |].
      split; [intros prev; apply waits_use_deadline_app; auto |].
      destruct res as [el | e'].
      * destruct Hres as (Hlen & tr0 & now & xp' & ->).
        split; [cbn; lia |].
        exists (tr1 ++ tr0)%list, now, xp'. now rewrite <- app_assoc.
      * destruct Hres as (Hw2 & Hlen & ->).
        split; [cbn; now rewrite Hw2 |].
        split; [cbn; now rewrite Hlen |].
        reflexivity.
Qed.

End LocateLoop.

Lemma locate_input_once_run (end_time : Z) (xp : string) (tr : list event)
    (res : result elem) :
  exec (locate_input_once end_time xp) tr res ->
  wait_xpaths tr = [xp]
  /\ (forall prev, waits_use_deadline end_time prev tr)
  /\ match res with
     | inl el =>
         raised tr = []
         /\ exists now,
             tr = Ev TimeTime (inl now)
                  :: Ev (WaitPresence (remaining_seconds end_time now) xp) (inl el)
                  :: [Ev (ScrollIntoView el) (inl tt)]
     | inr e => raised tr = [e]
     end.
Proof.
  unfold locate_input_once. intros H.
  exec_step H as r1 t1. destruct r1 as [now | x]; cbn [bind exec] in H;
    [| cbn in Hvalid; discriminate].
  exec_step H as r2 t2. destruct r2 as [el | x]; cbn [bind exec] in H.
  - exec_step H as r3 t3. destruct r3 as [[] | x]; cbn [bind exec] in H;
      destruct H as [-> ->]; cbn; repeat split; eauto.
  - destruct H as [-> ->]. cbn. repeat split; auto.
Qed.

Lemma locate_select_once_run (end_time : Z) (xp : string) (tr : list event)
    (res : result elem) :
  exec (locate_select_once end_time xp) tr res ->
  wait_xpaths tr = [xp]
  /\ (forall prev, waits_use_deadline end_time prev tr)
  /\ match res with
     | inl el =>
         raised tr = []
         /\ exists now,
             tr = Ev TimeTime (inl now)
                  :: Ev (WaitPresence (remaining_seconds end_time now) xp) (inl el)
                  :: [Ev (ScrollIntoView el) (inl tt); Ev (NewSelect el) (inl tt)]
     | inr e => raised tr = [e]
     end.
Proof.
  unfold locate_select_once. intros H.
  exec_step H as r1 t1. destruct r1 as [now | x]; cbn [bind exec] in H;
    [| cbn in Hvalid; discriminate].
  exec_step H as r2 t2. destruct r2 as [el | x]; cbn [bind exec] in H.
  - exec_step H as r3 t3. destruct r3 as [[] | x]; cbn [bind exec] in H.
    + exec_step H as r4 t4. destruct r4 as [[] | x]; cbn [bind exec] in H;
        destruct H as [-> ->]; cbn; repeat split; eauto.
    + destruct H as [-> ->]. cbn. repeat split; auto.
  - destruct H as [-> ->]. cbn. repeat split; auto.
Qed.

Lemma last_opt_nonempty (l : list exn) (d : option exn) :
  l <> [] -> exists errs last, l = (errs ++ [last])%list /\ last_opt l d = Some last.
Proof.
  intros Hne. destruct (exists_last Hne) as (errs & last & ->).
  exists errs, last. split; [reflexivity |].
  unfold last_opt. rewrite fold_left_app. reflexivity.
Qed.

(** C7 as worded fails: the first pattern finds element 1, which is
    present, but scrolling it into view raises; the locator moves on and
    returns element 2, found by the third pattern. *)
Lemma locator_passes_over_present_element :
  run (by_label_input "IC Number" 6) Scripts.first_found_goes_stale
  = ([ Ev TimeTime (inl 0%Z); Ev TimeTime (inl 0%Z);
       Ev (WaitPresence 6
             "//tr[td[normalize-space()='IC Number']]/td[position()=2]//input[not(@type='hidden')]")
          (inl 1);
       Ev (ScrollIntoView 1) (inr Scripts.stale);
       Ev TimeTime (inl 100%Z);
       Ev (WaitPresence 5
             "//tr[td[normalize-space()='IC Number']]/td[position()=2]//textarea")
          (inr Scripts.timed_out);
       Ev TimeTime (inl 6100%Z);
       Ev (WaitPresence 1
             "//*[normalize-space()='IC Number']/following::input[not(@type='hidden')][1]")
          (inl 2);
       Ev (ScrollIntoView 2) (inl tt) ],
     inl 2)
  /\ first_present
       (fst (run (by_label_input "IC Number" 6) Scripts.first_found_goes_stale))
     = Some 1
  /\ snd (run (by_label_input "IC Number" 6) Scripts.first_found_goes_stale)
     <> inl 1.
Proof.
  repeat split; try reflexivity. vm_compute. discriminate.
Qed.

(** C7, amended.  Both locators read the clock once to fix the deadline
    and then wait for their patterns in the order of the list, the
    table-row patterns before the following-element patterns; each wait
    is given the whole seconds left until the shared deadline (at least
    one, at most the time-out while the clock does not run backwards).
    A pattern wins when its element is found present and the calls made
    on it (scrolling it into view and, for a selection, wrapping it)
    return; every pattern tried before the winner ended in an exception.
    When every pattern ended in an exception, the locator raises
    [RuntimeError] with a message made of the label and of the last of
    these exceptions. *)
Theorem locator_tries_patterns_in_order :
  forall (label : string) (timeout : Z),
    (forall (tr : list event) (res : result elem),
        exec (by_label_input label timeout) tr res ->
        exists t0 tr',
          tr = Ev TimeTime (inl t0) :: tr'
          /\ (exists rest,
                 input_xpaths (_xpath_literal label) = (wait_xpaths tr' ++ rest)%list)
          /\ waits_use_deadline (t0 + timeout * 1000) None tr'
          /\ match res with
             | inl el =>
                 List.length (raised tr') + 1 = List.length (wait_xpaths tr')
                 /\ exists tr0 t xp,
                     tr' = (tr0 ++ [Ev (WaitPresence t xp) (inl el);
                                    Ev (ScrollIntoView el) (inl tt)])%list
             | inr e =>
                 wait_xpaths tr' = input_xpaths (_xpath_literal label)
                 /\ exists errs last,
                     raised tr' = (errs ++ [last])%list
                     /\ e = mk_exn RuntimeError
                              ("Could not locate input/textarea for label: "
                               ++ label ++ " (" ++ str_exn last ++ ")")
             end)
    /\ (forall (tr : list event) (res : result elem),
        exec (by_label_select label timeout) tr res ->
        exists t0 tr',
          tr = Ev TimeTime (inl t0) :: tr'
          /\ (exists rest,
                 select_xpaths (_xpath_literal label) = (wait_xpaths tr' ++ rest)%list)
          /\ waits_use_deadline (t0 + timeout * 1000) None tr'
          /\ match res with
             | inl el =>
                 List.length (raised tr') + 1 = List.length (wait_xpaths tr')
                 /\ exists tr0 t xp,
                     tr' = (tr0 ++ [Ev (WaitPresence t xp) (inl el);
                                    Ev (ScrollIntoView el) (inl tt);
                                    Ev (NewSelect el) (inl tt)])%list
             | inr e =>
                 wait_xpaths tr' = select_xpaths (_xpath_literal label)
                 /\ exists errs last,
                     raised tr' = (errs ++ [last])%list
                     /\ e = mk_exn RuntimeError
                              ("Could not locate select for label: "
                               ++ label ++ " (" ++ str_exn last ++ ")")
             end)
    /\ (forall t0 now : Z,
           (t0 <= now)%Z ->
           (1 <= remaining_seconds (t0 + timeout * 1000) now <= Z.max 1 timeout)%Z).
Proof.
  intros label timeout. split; [| split].
  - intros tr res H. unfold by_label_input in H.
    exec_step H as r0 tr'. destruct r0 as [t0 | x]; cbn [bind exec] in H;
      [| cbn in Hvalid; discriminate].
    exists t0, tr'. split; [reflexivity |].
    destruct (locate_loop_run _ (fun el => [Ev (ScrollIntoView el) (inl tt)])
                (t0 + timeout * 1000)%Z "input/textarea" label
                (locate_input_once_run _) _ _ _ _ H) as (Hpre & Hd & Hres).
    split; [exact Hpre |]. split; [apply Hd |].
    destruct res as [el | e].
    + destruct Hres as (Hlen & tr0 & now & xp & ->). split; [exact Hlen |].
      exists (tr0 ++ [Ev TimeTime (inl now)])%list,
        (remaining_seconds (t0 + timeout * 1000) now), xp.
      rewrite <- app_assoc. reflexivity.
    + destruct Hres as (Hw & Hlen & ->). split; [exact Hw |].
      destruct (last_opt_nonempty (raised tr') None) as (errs & last & Hr & Hl).
      { intros E. rewrite E in Hlen. discriminate. }
      exists errs, last. rewrite Hl. auto.
  - intros tr res H. unfold by_label_select in H.
    exec_step H as r0 tr'. destruct r0 as [t0 | x]; cbn [bind exec] in H;
      [| cbn in Hvalid; discriminate].
    exists t0, tr'. split; [reflexivity |].
    destruct (locate_loop_run _
                (fun el => [Ev (ScrollIntoView el) (inl tt); Ev (NewSelect el) (inl tt)])
                (t0 + timeout * 1000)%Z "select" label
                (locate_select_once_run _) _ _ _ _ H) as (Hpre & Hd & Hres).
    split; [exact Hpre |]. split; [apply Hd |].
    destruct res as [el | e].
    + destruct Hres as (Hlen & tr0 & now & xp & ->). split; [exact Hlen |].
      exists (tr0 ++ [Ev TimeTime (inl now)])%list,
        (remaining_seconds (t0 + timeout * 1000) now), xp.
      rewrite <- app_assoc. reflexivity.
    + destruct Hres as (Hw & Hlen & ->). split; [exact Hw |].
      destruct (last_opt_nonempty (raised tr') None) as (errs & last & Hr & Hl).
      { intros E. rewrite E in Hlen. discriminate. }
      exists errs, last. rewrite Hl. auto.
  - intros t0 now. apply remaining_seconds_bounds.
Qed.

Lemma locator_tries_patterns_in_order_witness :
  exists t0 tr',
    fst (run (by_label_input "IC Number" 6) Scripts.first_found_goes_stale)
    = Ev TimeTime (inl t0) :: tr'
    /\ (exists rest,
           input_xpaths (_xpath_literal "IC Number") = (wait_xpaths tr' ++ rest)%list)
    /\ waits_use_deadline (t0 + 6 * 1000) None tr'
    /\ List.length (raised tr') + 1 = List.length (wait_xpaths tr')
       /\ exists tr0 t xp,
           tr' = (tr0 ++ [Ev (WaitPresence t xp) (inl 2);
                          Ev (ScrollIntoView 2) (inl tt)])%list.
Proof.
  apply (proj1 (locator_tries_patterns_in_order "IC Number" 6)
           (fst (run (by_label_input "IC Number" 6) Scripts.first_found_goes_stale))
           (inl 2)).
  change (inl 2) with
    (snd (run (by_label_input "IC Number" 6) Scripts.first_found_goes_stale)).
  apply run_exec.
Defined.

(** ** The form filler and the stop signal *)

Lemma quiet_ret {A} (a : A) : quiet (Ret a).
Proof. intros tr res [-> _]. auto. Qed.

Lemma quiet_trigger {X} (c : call X) :
  is_stop_call c = false -> writes_page c = false -> quiet (trigger c).
Proof.
  intros Hs Hw tr res H. apply exec_trigger in H as [_ ->].
  unfold no_stop_check, no_page_write. cbn. now rewrite Hs, Hw.
Qed.

Lemma quiet_lift_result {A} (r : result A) : quiet (lift_result r).
Proof. destruct r; intros tr res [-> _]; auto. Qed.

Lemma quiet_bind {A B} (p : prog A) (f : A -> prog B) :
  quiet p -> (forall a, quiet (f a)) -> quiet (bind p f).
Proof.
  intros Hp Hf tr res H.
  apply exec_bind in H as [(tr1 & a & tr2 & H1 & H2 & ->) | (e & H1 & _)].
  - destruct (Hp _ _ H1) as [Hs1 Hw1]. destruct (Hf _ _ _ H2) as [Hs2 Hw2].
    unfold no_stop_check, no_page_write in *.
    rewrite !forallb_app, Hs1, Hs2, Hw1, Hw2. auto.
  - exact (Hp _ _ H1).
Qed.

Lemma stop_event_in_trace (pre post : list event) :
  no_stop_check (pre ++ Ev StopCheck (inl true) :: post) = false.
Proof.
  unfold no_stop_check. rewrite forallb_app. cbn. apply andb_false_r.
Qed.

Lemma quiet_checkpointed {A} (a0 : A) (p : prog A) :
  quiet p -> checkpointed a0 p.
Proof.
  intros Hq tr res H. destruct (Hq _ _ H) as [Hs Hw]. split; [auto |].
  intros pre post -> _. rewrite stop_event_in_trace in Hs. discriminate.
Qed.

(** Where the first stop check of a concatenation lies. *)
Lemma first_stop_check_split (l1 l2 pre post : list event) (s : event) :
  (l1 ++ l2 = pre ++ s :: post)%list ->
  no_stop_check pre = true ->
  event_is_stop_check s = true ->
  (no_stop_check l1 = true
   /\ exists pre', pre = (l1 ++ pre')%list /\ l2 = (pre' ++ s :: post)%list)
  \/ (exists post1, l1 = (pre ++ s :: post1)%list /\ post = (post1 ++ l2)%list).
Proof.
  revert pre. induction l1 as [| x l1 IH]; intros pre Heq Hpre Hs.
  - left. split; [reflexivity |]. exists pre. auto.
  - destruct pre as [| y pre]; cbn in Heq; injection Heq as <- Heq.
    + right. exists l1. auto.
    + cbn in Hpre. apply andb_true_iff in Hpre as [Hy Hpre].
      destruct (IH _ Heq Hpre Hs) as [(Hl1 & pre' & -> & ->) | (post1 & -> & ->)].
      * left. split; [cbn; now rewrite Hy |]. exists pre'. auto.
      * right. exists post1. auto.
Qed.

Lemma checkpointed_bind_quiet {A B} (b0 : B) (p : prog A) (f : A -> prog B) :
  quiet p -> (forall a, checkpointed b0 (f a)) -> checkpointed b0 (bind p f).
Proof.
  intros Hp Hf tr res H.
  apply exec_bind in H as [(tr1 & a & tr2 & H1 & H2 & ->) | (e & H1 & ->)].
  - destruct (Hp _ _ H1) as [Hs1 Hw1]. destruct (Hf _ _ _ H2) as [Hq2 Hc2].
    split.
    + unfold no_stop_check, no_page_write in *. rewrite !forallb_app.
      intros Hs. apply andb_true_iff in Hs as [_ Hs2]. now rewrite Hw1, Hq2.
    + intros pre post Heq Hpre.
      destruct (first_stop_check_split _ _ _ _ _ Heq Hpre eq_refl)
        as [(_ & pre' & -> & ->) | (post1 & -> & _)].
      * unfold no_stop_check in Hpre. rewrite forallb_app in Hpre.
        apply andb_true_iff in Hpre as [_ Hpre'].
        destruct (Hc2 _ _ eq_refl Hpre') as (Hw & a' & -> & ->).
        split; [| eauto]. unfold no_page_write in *.
        now rewrite forallb_app, Hw1, Hw.
      * rewrite stop_event_in_trace in Hs1. discriminate.
  - destruct (Hp _ _ H1) as [Hs Hw]. split; [auto |].
    intros pre post -> _. rewrite stop_event_in_trace in Hs. discriminate.
Qed.

Lemma checkpointed_bind {A B} (a0 : A) (b0 : B) (p : prog A) (f : A -> prog B) :
  checkpointed a0 p ->
  (forall tr res, exec (f a0) tr res -> tr = [] /\ res = inl b0) ->
  (forall a, checkpointed b0 (f a)) ->
  checkpointed b0 (bind p f).
Proof.
  intros Hp Hret Hf tr res H.
  apply exec_bind in H as [(tr1 & a & tr2 & H1 & H2 & ->) | (e & H1 & ->)].
  - destruct (Hp _ _ H1) as [Hq1 Hc1]. destruct (Hf _ _ _ H2) as [Hq2 Hc2].
    split.
    + unfold no_stop_check, no_page_write in *. rewrite !forallb_app.
      intros Hs. apply andb_true_iff in Hs as [Hs1 Hs2]. now rewrite Hq1, Hq2.
    + intros pre post Heq Hpre.
      destruct (first_stop_check_split _ _ _ _ _ Heq Hpre eq_refl)
        as [(Hs1 & pre' & -> & ->) | (post1 & -> & ->)].
      * unfold no_stop_check in Hpre. rewrite forallb_app in Hpre.
        apply andb_true_iff in Hpre as [_ Hpre'].
        destruct (Hc2 _ _ eq_refl Hpre') as (Hw & a' & -> & ->).
        split; [| eauto]. unfold no_page_write in *.
        now rewrite forallb_app, (Hq1 Hs1), Hw.
      * destruct (Hc1 _ _ eq_refl Hpre) as (Hw & a' & -> & Hres).
        split; [exact Hw |].
        destruct a' as [u | e]; [| discriminate].
        injection Hres as ->.
        destruct (Hret _ _ H2) as [-> ->].
        exists (inl u). auto.
  - destruct (Hp _ _ H1) as [Hq1 Hc1]. split; [exact Hq1 |].
    intros pre post Heq Hpre.
    destruct (Hc1 _ _ Heq Hpre) as (Hw & a' & -> & Hres).
    split; [exact Hw |]. exists a'. split; [reflexivity |].
    destruct a' as [u | e']; [discriminate |]. now injection Hres as ->.
Qed.

(** The answer of a stop check. *)
Lemma stop_check_answer (r r' : result bool) (l l' : list event) :
  Ev StopCheck r :: l = Ev StopCheck r' :: l' -> r = r' /\ l = l'.
Proof.
  intros H. split.
  - set (answer_of := fun l : list event =>
           match l with
           | Ev c a :: _ =>
               match c in call X return result X -> option (result bool) with
               | StopCheck => fun a => Some a
               | _ => fun _ => None
               end a
           | [] => None
           end).
    apply (f_equal answer_of) in H. cbn in H. now injection H.
  - apply (f_equal (@tl event)) in H. exact H.
Qed.

(** A loop iteration that opens with the stop check of lines 273-275 and
    308-310. *)
Lemma checkpointed_stop_first {A} (a0 : A) (q : prog A) :
  checkpointed a0
    (stop <- trigger StopCheck ;;
     if (stop : bool) then trigger (StatusCb stopped_msg) ;; Ret a0 else q).
Proof.
  intros tr res H. exec_step H as r t.
  split; [intros Hs; cbn in Hs; discriminate |].
  intros pre post Heq Hpre.
  destruct pre as [| y pre].
  - cbn in Heq. apply stop_check_answer in Heq as [-> ->].
    cbn [bind exec] in H. split; [reflexivity |].
    exec_step H as a t'. exists a. destruct a as [[] | e]; cbn [bind exec] in H;
      destruct H as [-> ->]; auto.
  - cbn in Heq. injection Heq as <- _. cbn in Hpre. discriminate.
Qed.

Ltac quiet_calls :=
  repeat first
    [ apply quiet_ret
    | apply quiet_lift_result
    | apply quiet_trigger; reflexivity
    | apply quiet_bind; [| intros ?] ].

Lemma upload_loop_checkpointed (fs : FileSystem) (folder name : string)
    (slots : list (string * string)) :
  slots <> [] -> checkpointed true (upload_loop fs folder name slots).
Proof.
  destruct slots as [| [label code] rest]; [congruence | intros _].
  cbn [upload_loop]. apply checkpointed_stop_first.
Qed.

Lemma upload_phase_checkpointed (fs : FileSystem) (base_dir person_name : option string) :
  checkpointed true (upload_phase fs base_dir person_name).
Proof.
  unfold upload_phase.
  destruct base_dir as [dir |]; [| apply quiet_checkpointed; quiet_calls].
  destruct person_name as [name |]; [| apply quiet_checkpointed; quiet_calls].
  destruct (truthy dir && truthy name); [| apply quiet_checkpointed; quiet_calls].
  apply checkpointed_bind_quiet; [quiet_calls | intros _].
  apply checkpointed_bind_quiet; [quiet_calls | intros _].
  apply checkpointed_bind_quiet; [quiet_calls | intros folder].
  destruct folder as [folder |]; [| apply quiet_checkpointed; quiet_calls].
  destruct (truthy folder); [| apply quiet_checkpointed; quiet_calls].
  apply upload_loop_checkpointed. discriminate.
Qed.

Lemma field_loop_checkpointed (r : row)
    (entries : list (string * (string * string))) :
  entries <> [] -> checkpointed true (field_loop r entries).
Proof.
  destruct entries as [| [label [field_type colname]] rest]; [congruence | intros _].
  cbn [field_loop]. apply checkpointed_stop_first.
Qed.

Lemma fill_otms_form_checkpointed (fs : FileSystem) (url : string) (r : row)
    (base_dir : option string) :
  checkpointed tt (fill_otms_form fs url r base_dir).
Proof.
  unfold fill_otms_form.
  apply checkpointed_bind_quiet.
  { destruct (truthy url); quiet_calls. }
  intros _.
  apply (checkpointed_bind true tt).
  - apply upload_phase_checkpointed.
  - intros tr res H. exact H.
  - intros [|]; [apply quiet_checkpointed; quiet_calls |].
    apply (checkpointed_bind true tt).
    + apply field_loop_checkpointed. discriminate.
    + intros tr res H. exact H.
    + intros [|]; apply quiet_checkpointed; quiet_calls.
Qed.

(** C6.  In every run of [fill_otms_form] whose first stop check finds
    the stop requested, which is the case whenever the signal is set
    before the upload phase begins, the whole run makes no call that
    changes the page (no file path is typed into an upload control, no
    field is cleared, typed into or selected): the stop check is followed
    by the status [Stopped by user.] alone, and the function returns. *)
Theorem stop_before_uploads_fills_nothing :
  forall (fs : FileSystem) (url : string) (r : row) (base_dir : option string)
         (tr pre post : list event) (res : result unit),
    exec (fill_otms_form fs url r base_dir) tr res ->
    tr = (pre ++ Ev StopCheck (inl true) :: post)%list ->
    no_stop_check pre = true ->
    no_page_write tr = true
    /\ exists a,
        post = [Ev (StatusCb stopped_msg) a]
        /\ res = match a with inl _ => inl tt | inr e => inr e end.
Proof.
  intros fs url r base_dir tr pre post res H Heq Hpre.
  destruct (fill_otms_form_checkpointed fs url r base_dir _ _ H) as [_ Hc].
  destruct (Hc _ _ Heq Hpre) as (Hw & a & -> & ->).
  split; [| eauto]. subst tr. unfold no_page_write in *.
  rewrite forallb_app, Hw. reflexivity.
Qed.

Lemma stop_before_uploads_fills_nothing_witness :
  no_page_write
    (fst (run (fill_otms_form (MemFS.make MemFS.esf) "https://otms.example/new"
                 Scripts.john_row (Some "/esf"))
              Scripts.stop_already_requested)) = true
  /\ exists a,
      [Ev (StatusCb stopped_msg) (inl tt)] = [Ev (StatusCb stopped_msg) a]
      /\ snd (run (fill_otms_form (MemFS.make MemFS.esf) "https://otms.example/new"
                     Scripts.john_row (Some "/esf"))
                  Scripts.stop_already_requested)
         = match a with inl _ => inl tt | inr e => inr e end.
Proof.
  apply (stop_before_uploads_fills_nothing
           (MemFS.make MemFS.esf) "https://otms.example/new" Scripts.john_row
           (Some "/esf")
           (fst (run (fill_otms_form (MemFS.make MemFS.esf) "https://otms.example/new"
                        Scripts.john_row (Some "/esf"))
                     Scripts.stop_already_requested))
           [ Ev (StatusCb "Navigating to target page…") (inl tt);
             Ev PauseCheck (inl tt);
             Ev (DriverGet "https://otms.example/new") (inl tt);
             Ev (StatusCb "Locating person folder for PDFs…") (inl tt);
             Ev PauseCheck (inl tt) ]
           [Ev (StatusCb stopped_msg) (inl tt)]).
  - apply run_exec.
  - reflexivity.
  - reflexivity.
Defined.

(* ================================================================== *)
(** * Further properties *)

(** ** Normalisation of names *)





































(** ** What the resolver can return *)

Section ResolverSoundness.

Variable fs : FileSystem.

Lemma person_folder_exact_sound (base target : string) (entries : list string)
    (p : string) :
  person_folder_exact fs base target entries = Some p ->
  exists e, In e entries /\ p = path_join fs base e /\ isdir fs p = true
            /\ _norm e = target.
Proof.
  induction entries as [| x l IH]; simpl; [discriminate |].
  destruct (isdir fs (path_join fs base x)) eqn:Hd; simpl.
  - destruct (String.eqb_spec (_norm x) target) as [E | _].
    + intros H. injection H as <-. exists x. auto.
    + intros H. destruct (IH H) as (e & ? & ? & ? & ?). exists e. auto.
  - intros H. destruct (IH H) as (e & ? & ? & ? & ?). exists e. auto.
Qed.

Lemma person_folder_fuzzy_sound (base target : string) (entries : list string)
    (p : string) :
  person_folder_fuzzy fs base target entries = Some p ->
  exists e, In e entries /\ p = path_join fs base e /\ isdir fs p = true
            /\ contains target (_norm e) = true.
Proof.
  induction entries as [| x l IH]; simpl; [discriminate |].
  destruct (isdir fs (path_join fs base x)) eqn:Hd; simpl.
  - destruct (contains target (_norm x)) eqn:Hc.
    + intros H. injection H as <-. exists x. auto.
    + intros H. destruct (IH H) as (e & ? & ? & ? & ?). exists e. auto.
  - intros H. destruct (IH H) as (e & ? & ? & ? & ?). exists e. auto.
Qed.

Lemma person_folder_fuzzy_none_iff (base target : string) (entries : list string) :
  person_folder_fuzzy fs base target entries = None <->
  (forall e, In e entries -> isdir fs (path_join fs base e) = true ->
             contains target (_norm e) = false).
Proof.
  induction entries as [| x l IH]; simpl.
  - split; [intros _ e [] | reflexivity].
  - destruct (isdir fs (path_join fs base x)) eqn:Hd; simpl.
    + destruct (contains target (_norm x)) eqn:Hc.
      * split; [discriminate |]. intros H.
        specialize (H x (or_introl eq_refl) Hd). congruence.
      * rewrite IH. split.
        -- intros H e [<- | Hin] He; auto.
        -- intros H e Hin He. apply H; auto.
    + rewrite IH. split.
      * intros H e [<- | Hin] He; [congruence | auto].
      * intros H e Hin He. apply H; auto.
Qed.

Lemma pdf_preferred_sound (lname : string) (cands : list string) (p : string) :
  pdf_preferred fs lname cands = Some p ->
  In p cands /\ existing_pdf fs p = true.
Proof.
  induction cands as [| x l IH]; simpl; [discriminate |].
  destruct (existing_pdf fs x) eqn:Hx.
  - destruct (names_person fs lname x).
    + intros H. injection H as <-. auto.
    + intros H. destruct (IH H). auto.
  - intros H. destruct (IH H). auto.
Qed.

Lemma pdf_fallback_sound (cands : list string) (p : string) :
  pdf_fallback fs cands = Some p ->
  In p cands /\ existing_pdf fs p = true.
Proof.
  induction cands as [| x l IH]; simpl; [discriminate |].
  destruct (existing_pdf fs x) eqn:Hx.
  - intros H. injection H as <-. auto.
  - intros H. destruct (IH H). auto.
Qed.

Lemma pdf_fallback_none_iff (cands : list string) :
  pdf_fallback fs cands = None <->
  (forall q, In q cands -> existing_pdf fs q = false).
Proof.
  induction cands as [| x l IH]; simpl.
  - split; [intros _ q [] | reflexivity].
  - destruct (existing_pdf fs x) eqn:Hx.
    + split; [discriminate |]. intros H.
      specialize (H x (or_introl eq_refl)). congruence.
    + rewrite IH. split.
      * intros H q [<- | Hin]; auto.
      * intros H q Hin. apply H; auto.
Qed.

Lemma find_pdf_by_prefix_sound (dir code name p : string) :
  find_pdf_by_prefix fs (Some dir) code name = Some p ->
  dir <> EmptyString /\ isdir fs dir = true
  /\ In p (pdf_candidates fs dir code name)
  /\ existing_pdf fs p = true.
Proof.
  unfold find_pdf_by_prefix.
  destruct dir as [| c d]; [discriminate |]. cbn [truthy negb orb].
  destruct (isdir fs (String c d)); [| discriminate]. cbn [negb].
  intros H. split; [discriminate |]. split; [reflexivity |].
  destruct (pdf_preferred fs _ _) as [q |] eqn:E.
  - injection H as <-. now apply pdf_preferred_sound in E.
  - now apply pdf_fallback_sound in H.
Qed.

End ResolverSoundness.

(** X5.  Whatever [find_person_folder] returns is a subdirectory of the
    base directory that was listed there, and its normalised name
    contains the normalised person name: the function never returns a
    file, a path from elsewhere, or an unrelated folder. *)
Theorem find_person_folder_returns_listed_subdirectory :
  forall (fs : FileSystem) (base name p : string),
    find_person_folder fs base name = inl (Some p) ->
    isdir fs base = true
    /\ exists entries e,
        listdir fs base = inl entries
        /\ In e entries
        /\ p = path_join fs base e
        /\ isdir fs p = true
        /\ contains (_norm name) (_norm e) = true.
Proof.
  intros fs base name p. unfold find_person_folder.
  destruct (isdir fs base); [| discriminate]. cbn [negb].
  destruct (listdir fs base) as [entries | x] eqn:Hls; [| discriminate].
  intros H. split; [reflexivity |]. exists entries.
  destruct (person_folder_exact fs base (_norm name) entries) as [q |] eqn:E.
  - injection H as <-.
    apply person_folder_exact_sound in E as (e & Hin & -> & Hd & Hn).
    exists e. repeat split; auto. rewrite Hn. apply contains_refl.
  - injection H as H.
    apply person_folder_fuzzy_sound in H as (e & Hin & -> & Hd & Hc).
    exists e. auto.
Qed.

Lemma find_person_folder_returns_listed_subdirectory_witness :
  isdir (MemFS.make MemFS.esf) "/esf" = true
  /\ exists entries e,
      listdir (MemFS.make MemFS.esf) "/esf" = inl entries
      /\ In e entries
      /\ "/esf/Jane Doe" = path_join (MemFS.make MemFS.esf) "/esf" e
      /\ isdir (MemFS.make MemFS.esf) "/esf/Jane Doe" = true
      /\ contains (_norm "jane") (_norm e) = true.
Proof.
  apply (find_person_folder_returns_listed_subdirectory
           (MemFS.make MemFS.esf) "/esf" "jane" "/esf/Jane Doe").
  reflexivity.
Defined.

(** X6.  In a listable base directory, [find_person_folder] returns
    nothing exactly when no subdirectory has a normalised name that
    contains the normalised person name. *)
Theorem find_person_folder_none_iff :
  forall (fs : FileSystem) (base name : string) (entries : list string),
    isdir fs base = true ->
    listdir fs base = inl entries ->
    (find_person_folder fs base name = inl None <->
     forall e, In e entries -> isdir fs (path_join fs base e) = true ->
               contains (_norm name) (_norm e) = false).
Proof.
  intros fs base name entries Hdir Hls. unfold find_person_folder.
  rewrite Hdir, Hls. cbn [negb].
  destruct (person_folder_exact fs base (_norm name) entries) as [q |] eqn:E.
  - split; [discriminate |]. intros H.
    apply person_folder_exact_sound in E as (e & Hin & -> & Hd & Hn).
    specialize (H e Hin Hd). rewrite Hn, contains_refl in H. discriminate.
  - rewrite <- person_folder_fuzzy_none_iff. split.
    + intros H. now injection H.
    + intros ->. reflexivity.
Qed.

Lemma find_person_folder_none_iff_witness :
  find_person_folder (MemFS.make MemFS.esf_short) "/esf" "John Smith" = inl None <->
  forall e, In e ["John"] ->
            isdir (MemFS.make MemFS.esf_short)
                  (path_join (MemFS.make MemFS.esf_short) "/esf" e) = true ->
            contains (_norm "John Smith") (_norm e) = false.
Proof.
  apply (find_person_folder_none_iff (MemFS.make MemFS.esf_short) "/esf"
           "John Smith" ["John"]); reflexivity.
Defined.

(** X7.  Whatever [find_pdf_by_prefix] returns is one of its candidates
    (a constructed name or a glob result for the prefix) and is a
    regular file whose lower-cased path ends in [.pdf]; the folder it
    searched is a non-empty path to a directory. *)
Theorem find_pdf_by_prefix_returns_existing_candidate :
  forall (fs : FileSystem) (folder : option string) (code name p : string),
    find_pdf_by_prefix fs folder code name = Some p ->
    exists dir,
      folder = Some dir
      /\ dir <> EmptyString
      /\ isdir fs dir = true
      /\ In p (pdf_candidates fs dir code name)
      /\ isfile fs p = true
      /\ endswith (lower p) ".pdf" = true.
Proof.
  intros fs [dir |] code name p H; [| discriminate].
  apply find_pdf_by_prefix_sound in H as (Hne & Hd & Hin & Hex).
  apply andb_true_iff in Hex as [Hf He].
  exists dir. auto 7.
Qed.

Lemma find_pdf_by_prefix_returns_existing_candidate_witness :
  exists dir,
    Some "/esf/John Smith" = Some dir
    /\ dir <> EmptyString
    /\ isdir (MemFS.make MemFS.esf) dir = true
    /\ In "/esf/John Smith/003 passport scan.pdf"
          (pdf_candidates (MemFS.make MemFS.esf) dir "003" "John Smith")
    /\ isfile (MemFS.make MemFS.esf) "/esf/John Smith/003 passport scan.pdf" = true
    /\ endswith (lower "/esf/John Smith/003 passport scan.pdf") ".pdf" = true.
Proof.
  apply (find_pdf_by_prefix_returns_existing_candidate
           (MemFS.make MemFS.esf) (Some "/esf/John Smith") "003" "John Smith").
  reflexivity.
Defined.

(** X8.  In an existing folder, [find_pdf_by_prefix] returns nothing
    exactly when none of its candidates is an existing [.pdf] file: a
    document that exists under the prefix is never missed because its
    name does not mention the person. *)
Theorem find_pdf_by_prefix_none_iff :
  forall (fs : FileSystem) (dir code name : string),
    truthy dir = true ->
    isdir fs dir = true ->
    (find_pdf_by_prefix fs (Some dir) code name = None <->
     forall q, In q (pdf_candidates fs dir code name) ->
               existing_pdf fs q = false).
Proof.
  intros fs dir code name Ht Hd. unfold find_pdf_by_prefix.
  rewrite Ht, Hd. cbn [negb orb].
  destruct (pdf_preferred fs _ _) as [q |] eqn:E.
  - split; [discriminate |]. intros H.
    apply pdf_preferred_sound in E as [Hin Hex].
    specialize (H q Hin). congruence.
  - apply pdf_fallback_none_iff.
Qed.

Lemma find_pdf_by_prefix_none_iff_witness :
  find_pdf_by_prefix (MemFS.make MemFS.esf_no_ic) (Some "/esf/John Smith")
    "002" "John Smith" = None <->
  forall q, In q (pdf_candidates (MemFS.make MemFS.esf_no_ic) "/esf/John Smith"
                    "002" "John Smith") ->
            existing_pdf (MemFS.make MemFS.esf_no_ic) q = false.
Proof.
  apply (find_pdf_by_prefix_none_iff (MemFS.make MemFS.esf_no_ic)
           "/esf/John Smith" "002" "John Smith"); reflexivity.
Defined.

(** ** Events a program can emit *)

Lemma emits_ret {A} (P : event -> Prop) (a : A) : emits P (Ret a).
Proof. intros tr res [-> _]. constructor. Qed.

Lemma emits_throw {A} (P : event -> Prop) (e : exn) : emits P (@Throw A e).
Proof. intros tr res [-> _]. constructor. Qed.

Lemma emits_lift_result {A} (P : event -> Prop) (r : result A) :
  emits P (lift_result r).
Proof. destruct r; [apply emits_ret | apply emits_throw]. Qed.

Lemma emits_trigger {X} (P : event -> Prop) (c : call X) :
  (forall r, P (Ev c r)) -> emits P (trigger c).
Proof.
  intros HP tr res H. apply exec_trigger in H as [_ ->].
  constructor; [apply HP | constructor].
Qed.

Lemma emits_bind {A B} (P : event -> Prop) (p : prog A) (f : A -> prog B) :
  emits P p -> (forall a, emits P (f a)) -> emits P (bind p f).
Proof.
  intros Hp Hf tr res H.
  apply exec_bind in H as [(tr1 & a & tr2 & H1 & H2 & ->) | (e & H1 & _)].
  - apply Forall_app. split; [exact (Hp _ _ H1) | exact (Hf _ _ _ H2)].
  - exact (Hp _ _ H1).
Qed.

Lemma emits_try {A} (P : event -> Prop) (p : prog A) (h : exn -> prog A) :
  emits P p -> (forall e, emits P (h e)) -> emits P (try_except p h).
Proof.
  intros Hp Hh tr res H.
  apply exec_try in H as [(a & H1 & _) | (tr1 & e & tr2 & H1 & H2 & ->)].
  - exact (Hp _ _ H1).
  - apply Forall_app. split; [exact (Hp _ _ H1) | exact (Hh _ _ _ H2)].
Qed.

Section EmittedBySetters.

(** [P] holds of every event that types nothing and checks no stop
    signal, and of typing a text that satisfies [S]. *)
Variable P : event -> Prop.
Variable S : string -> Prop.

Hypothesis P_plain :
  forall X (c : call X) (r : result X),
    event_keys (Ev c r) = None -> is_stop_call c = false -> P (Ev c r).

Hypothesis P_keys :
  forall el k r, S k -> P (Ev (SendKeys el k) r).

Ltac plain_calls :=
  repeat first
    [ apply emits_ret
    | apply emits_throw
    | apply emits_trigger; intros ?; apply P_plain; reflexivity
    | apply emits_bind; [| intros ?]
    | apply emits_try; [| intros ?] ].

Lemma emits_locate_loop (once : string -> prog elem) (what label : string)
    (xpaths : list string) (last : option exn) :
  (forall xp, emits P (once xp)) ->
  emits P (locate_loop once what label xpaths last).
Proof.
  intros Honce. revert last.
  induction xpaths as [| xp rest IH]; intros last; cbn [locate_loop].
  - apply emits_throw.
  - apply emits_try; [apply Honce | intros e; apply IH].
Qed.

Lemma emits_by_label_input (label : string) (timeout : Z) :
  emits P (by_label_input label timeout).
Proof.
  unfold by_label_input. apply emits_bind; [plain_calls | intros t0].
  apply emits_locate_loop. intros xp. unfold locate_input_once. plain_calls.
Qed.

Lemma emits_by_label_select (label : string) (timeout : Z) :
  emits P (by_label_select label timeout).
Proof.
  unfold by_label_select. apply emits_bind; [plain_calls | intros t0].
  apply emits_locate_loop. intros xp. unfold locate_select_once. plain_calls.
Qed.

Lemma emits_click_button_with_text (text : string) (timeout : Z) :
  emits P (click_button_with_text text timeout).
Proof. unfold click_button_with_text. plain_calls. Qed.

Lemma emits_retry_loop (body : prog bool) (label : string) (n : nat)
    (last : option exn) :
  emits P body -> emits P (retry_loop body label n last).
Proof.
  intros Hbody. revert last. induction n as [| n IH]; intros last;
    cbn [retry_loop].
  - unfold warn_and_fail. plain_calls.
  - apply emits_bind.
    + apply emits_try; [apply emits_bind; [exact Hbody | intros ok; apply emits_ret] |].
      intros e. unfold retry_handler, wait_dom_idle.
      destruct (is_transient e); plain_calls.
    + intros [| | e | e]; [apply emits_ret | apply IH | apply IH |].
      unfold warn_and_fail. plain_calls.
Qed.

Lemma emits_fill_text_with_retry (label value : string) (retries : Z) :
  S value -> emits P (fill_text_with_retry label value retries).
Proof.
  intros HS. unfold fill_text_with_retry. apply emits_retry_loop.
  unfold fill_text_attempt.
  apply emits_bind; [apply emits_by_label_input | intros el].
  apply emits_bind; [plain_calls | intros _].
  apply emits_bind; [plain_calls | intros _].
  apply emits_bind; [plain_calls | intros _].
  apply emits_bind; [| intros _; plain_calls].
  apply emits_trigger. intros r. now apply P_keys.
Qed.

Lemma emits_select_with_retry (label value : string) (retries : Z) :
  emits P (select_with_retry label value retries).
Proof.
  unfold select_with_retry. apply emits_retry_loop.
  unfold select_attempt.
  apply emits_bind; [apply emits_by_label_select | intros sel].
  apply emits_bind; [| intros _; plain_calls].
  unfold select_choice, select_fuzzy.
  apply emits_try; [plain_calls | intros e].
  apply emits_bind; [plain_calls | intros raw].
  destruct (fuzzy_match value (map strip raw)) as [m |]; [| apply emits_ret].
  destruct (truthy m); plain_calls.
Qed.

Lemma emits_set_field (label field_type val : string) :
  S val -> emits P (set_field label field_type val).
Proof.
  intros HS. unfold set_field.
  apply emits_bind.
  - destruct (String.eqb field_type "text");
      [now apply emits_fill_text_with_retry |].
    destruct (String.eqb field_type "select");
      [apply emits_select_with_retry | apply emits_ret].
  - intros ok. destruct (negb ok); plain_calls.
Qed.

Lemma emits_upload_one (fs : FileSystem) (label fpath : string) :
  S (abspath fs fpath) -> emits P (upload_one fs label fpath).
Proof.
  intros HS. unfold upload_one.
  apply emits_bind; [plain_calls | intros _].
  apply emits_bind; [plain_calls | intros _].
  apply emits_bind; [plain_calls | intros file_input].
  apply emits_bind; [apply emits_trigger; intros r; now apply P_keys | intros _].
  apply emits_bind; [| intros _; plain_calls].
  apply emits_try; [plain_calls | intros e].
  apply emits_bind; [apply emits_click_button_with_text | intros b; apply emits_ret].
Qed.

End EmittedBySetters.

Lemma typed_keys_app (a b : list event) :
  typed_keys (a ++ b) = (typed_keys a ++ typed_keys b)%list.
Proof.
  induction a as [| e a IH]; simpl; [reflexivity |].
  destruct (event_keys e); simpl; now rewrite IH.
Qed.

Lemma typed_keys_satisfy (S : string -> Prop) (tr : list event) :
  Forall (keys_satisfy S) tr -> Forall S (typed_keys tr).
Proof.
  induction 1 as [| e tr He _ IH]; simpl; [constructor |].
  unfold keys_satisfy in He. destruct (event_keys e); auto.
Qed.

Lemma keys_satisfy_plain (S : string -> Prop) X (c : call X) (r : result X) :
  event_keys (Ev c r) = None -> is_stop_call c = false -> keys_satisfy S (Ev c r).
Proof. intros H _. unfold keys_satisfy. now rewrite H. Qed.

Lemma keys_satisfy_keys (S : string -> Prop) (el : elem) (k : string)
    (r : result unit) :
  S k -> keys_satisfy S (Ev (SendKeys el k) r).
Proof. intros H. exact H. Qed.

Lemma not_stop_check_plain X (c : call X) (r : result X) :
  event_keys (Ev c r) = None -> is_stop_call c = false -> not_stop_check (Ev c r).
Proof. intros _ H. exact H. Qed.

Lemma not_stop_check_keys (el : elem) (k : string) (r : result unit) :
  True -> not_stop_check (Ev (SendKeys el k) r).
Proof. reflexivity. Qed.

Lemma typed_keys_none (tr : list event) :
  Forall (keys_satisfy (fun _ => False)) tr -> typed_keys tr = [].
Proof.
  intros H. apply typed_keys_satisfy in H.
  destruct (typed_keys tr) as [| k l]; [reflexivity |].
  inversion H as [| ? ? Hk _]. contradiction.
Qed.

Lemma by_label_input_types_nothing (label : string) (timeout : Z)
    (tr : list event) (res : result elem) :
  exec (by_label_input label timeout) tr res -> typed_keys tr = [].
Proof.
  intros H. apply typed_keys_none.
  exact (emits_by_label_input (keys_satisfy (fun _ => False))
           (keys_satisfy_plain _) label timeout _ _ H).
Qed.

(** ** The button helper *)

(** X9.  [click_button_with_text] never raises: it returns [True] after
    the button was waited for and clicked, both without error, and
    [False] in every other case. *)
Theorem click_button_with_text_never_raises :
  forall (text : string) (timeout : Z) (tr : list event) (res : result bool),
    exec (click_button_with_text text timeout) tr res ->
    exists b,
      res = inl b
      /\ (b = true <->
          exists btn xp,
            tr = [Ev (WaitClickable timeout xp) (inl btn); Ev (Click btn) (inl tt)]).
Proof.
  intros text timeout tr res H. unfold click_button_with_text in H.
  cbn [bind trigger try_except exec] in H.
  destruct H as (r1 & t1 & _ & -> & H).
  destruct r1 as [btn | e]; cbn [bind try_except exec] in H.
  - destruct H as (r2 & t2 & _ & -> & H).
    destruct r2 as [[] | e]; cbn [bind try_except exec] in H;
      destruct H as [-> ->].
    + exists true. split; [reflexivity |]. split; [eauto | reflexivity].
    + exists false. split; [reflexivity |]. split; [discriminate |].
      intros (btn' & xp & H).
      apply (f_equal raised) in H. cbn in H. discriminate.
  - destruct H as [-> ->]. exists false. split; [reflexivity |].
    split; [discriminate |]. intros (btn' & xp & H). discriminate.
Qed.

Lemma click_button_with_text_never_raises_witness :
  exists b,
    snd (run (click_button_with_text "Upload" 10) [ARaise Scripts.timed_out])
    = inl b
    /\ (b = true <->
        exists btn xp,
          fst (run (click_button_with_text "Upload" 10) [ARaise Scripts.timed_out])
          = [Ev (WaitClickable 10 xp) (inl btn); Ev (Click btn) (inl tt)]).
Proof.
  apply (click_button_with_text_never_raises "Upload" 10). apply run_exec.
Defined.

(** ** More on the retry shell *)

(** X10.  With [retries] at zero or below, neither setter touches the
    browser: each prints its warning, with [None] for the error, and
    returns [False]. *)
Theorem setters_without_attempts :
  forall (label value : string) (retries : Z) (tr : list event)
         (res : result bool),
    (retries <= 0)%Z ->
    exec (fill_text_with_retry label value retries) tr res
    \/ exec (select_with_retry label value retries) tr res ->
    tr = [Ev (Print ("[WARN] " ++ label ++ ": None")) (inl tt)]
    /\ res = inl false.
Proof.
  intros label value retries tr res Hle H.
  unfold fill_text_with_retry, select_with_retry in H.
  replace (Z.to_nat retries) with 0 in H by lia.
  cbn [retry_loop] in H.
  destruct H as [H | H]; now apply warn_and_fail_false in H.
Qed.

Lemma setters_without_attempts_witness :
  fst (run (select_with_retry "Sex" "Male" 0) []) 
  = [Ev (Print ("[WARN] " ++ "Sex" ++ ": None")) (inl tt)]
  /\ snd (run (select_with_retry "Sex" "Male" 0) []) = inl false.
Proof.
  apply (setters_without_attempts "Sex" "Male" 0); [lia |].
  right. apply run_exec.
Defined.

(** X11.  Whenever a setter returns [False], the last thing it did was
    to print the warning line for its label. *)
Theorem setters_warn_before_false :
  forall (label value : string) (retries : Z) (tr : list event),
    exec (fill_text_with_retry label value retries) tr (inl false)
    \/ exec (select_with_retry label value retries) tr (inl false) ->
    exists tr0 err,
      tr = (tr0 ++ [Ev (Print ("[WARN] " ++ label ++ ": " ++ str_last_err err))
                       (inl tt)])%list.
Proof.
  intros label value retries tr [H | H]; exact (retry_loop_false _ _ _ _ _ H).
Qed.

Lemma setters_warn_before_false_witness :
  exists tr0 err,
    fst (run (select_with_retry "Sex" "Male" 0) [])
    = (tr0 ++ [Ev (Print ("[WARN] " ++ "Sex" ++ ": " ++ str_last_err err))
                  (inl tt)])%list.
Proof.
  apply (setters_warn_before_false "Sex" "Male" 0). right.
  change (inl false) with (snd (run (select_with_retry "Sex" "Male" 0) [])).
  apply run_exec.
Defined.

(** X12.  The only exception that leaves a setter is one raised by
    [wait_dom_idle] right after the 200 ms sleep of the handler for a
    stale element or a time-out; every other exception is turned into
    the [False] result. *)
Theorem setters_raise_only_from_wait_dom_idle :
  forall (label value : string) (retries : Z) (tr : list event) (e : exn),
    exec (fill_text_with_retry label value retries) tr (inr e)
    \/ exec (select_with_retry label value retries) tr (inr e) ->
    exists tr0,
      tr = (tr0 ++ [Ev (Sleep 200) (inl tt);
                    Ev (WaitReadyState 6) (inr e)])%list.
Proof.
  intros label value retries tr e [H | H]; exact (retry_loop_raises _ _ _ _ _ _ H).
Qed.

Lemma setters_raise_only_from_wait_dom_idle_witness :
  exists tr0,
    fst (run (fill_text_with_retry "IC Number" "S1234567A" 3)
             Scripts.stale_then_never_idle)
    = (tr0 ++ [Ev (Sleep 200) (inl tt);
               Ev (WaitReadyState 6) (inr Scripts.timed_out)])%list.
Proof.
  apply (setters_raise_only_from_wait_dom_idle "IC Number" "S1234567A" 3).
  left.
  change (inr Scripts.timed_out) with
    (snd (run (fill_text_with_retry "IC Number" "S1234567A" 3)
              Scripts.stale_then_never_idle)).
  apply run_exec.
Defined.

Lemma retry_loop_break (body : prog bool) (label : string) (n : nat)
    (last : option exn) (tr : list event) (e : exn) :
  exec body tr (inr e) ->
  is_transient e = false ->
  exec (retry_loop body label (Datatypes.S n) last)
       (tr ++ [Ev (Print ("[WARN] " ++ label ++ ": " ++ str_exn e)) (inl tt)])
       (inl false).
Proof.
  intros Hbody Hnt. cbn [retry_loop]. apply exec_bind. left.
  exists tr, (Break e), [Ev (Print ("[WARN] " ++ label ++ ": " ++ str_exn e)) (inl tt)].
  repeat split.
  - apply exec_try. right. exists tr, e, []. rewrite app_nil_r. repeat split.
    + apply exec_bind. right. eauto.
    + unfold retry_handler. rewrite Hnt. cbn. auto.
  - unfold warn_and_fail. cbn [bind trigger exec].
    exists (inl tt), []. cbn. auto.
Qed.

Lemma locator_error_not_transient (once : string -> prog elem)
    (what label : string) (xpaths : list string) (last : option exn)
    (tr : list event) (e : exn) :
  exec (locate_loop once what label xpaths last) tr (inr e) ->
  is_transient e = false.
Proof.
  revert last tr. induction xpaths as [| xp rest IH]; intros last tr H;
    cbn [locate_loop] in H.
  - destruct H as [_ H]. injection H as H. subst e. reflexivity.
  - apply exec_try in H as [(a & _ & H) | (tr1 & x & tr2 & _ & H & _)];
      [discriminate | eauto].
Qed.

(** X13.  A field that cannot be located is not retried: when the
    locator fails, the setter prints the warning with the locator's
    error and returns [False] after this single attempt, whatever the
    number of retries allowed. *)
Theorem locator_failure_is_not_retried :
  forall (label value : string) (retries : Z) (tr : list event) (e : exn),
    (0 < retries)%Z ->
    (exec (by_label_input label 6) tr (inr e) ->
     exec (fill_text_with_retry label value retries)
          (tr ++ [Ev (Print ("[WARN] " ++ label ++ ": " ++ str_exn e)) (inl tt)])
          (inl false))
    /\ (exec (by_label_select label 6) tr (inr e) ->
        exec (select_with_retry label value retries)
             (tr ++ [Ev (Print ("[WARN] " ++ label ++ ": " ++ str_exn e)) (inl tt)])
             (inl false)).
Proof.
  intros label value retries tr e Hpos.
  unfold fill_text_with_retry, select_with_retry.
  destruct (Z.to_nat retries) as [| n] eqn:En; [lia |].
  split; intros H.
  - apply retry_loop_break.
    + unfold fill_text_attempt. apply exec_bind. right. eauto.
    + unfold by_label_input in H. exec_step H as r0 t0.
      destruct r0 as [t | x]; cbn [bind exec] in H;
        [| cbn in Hvalid; discriminate].
      eapply locator_error_not_transient; eassumption.
  - apply retry_loop_break.
    + unfold select_attempt. apply exec_bind. right. eauto.
    + unfold by_label_select in H. exec_step H as r0 t0.
      destruct r0 as [t | x]; cbn [bind exec] in H;
        [| cbn in Hvalid; discriminate].
      eapply locator_error_not_transient; eassumption.
Qed.

Lemma locator_failure_is_not_retried_witness :
  exec (fill_text_with_retry "IC Number" "S1234567A" 3)
       (fst (run (by_label_input "IC Number" 6)
                 [ATime 0; ATime 0; ARaise Scripts.timed_out;
                  ATime 6000; ARaise Scripts.timed_out;
                  ATime 7000; ARaise Scripts.timed_out;
                  ATime 8000; ARaise Scripts.timed_out])
        ++ [Ev (Print ("[WARN] " ++ "IC Number" ++ ": "
                       ++ "Could not locate input/textarea for label: IC Number (timed out)"))
               (inl tt)])
       (inl false).
Proof.
  apply (proj1 (locator_failure_is_not_retried "IC Number" "S1234567A" 3
                  (fst (run (by_label_input "IC Number" 6)
                            [ATime 0; ATime 0; ARaise Scripts.timed_out;
                             ATime 6000; ARaise Scripts.timed_out;
                             ATime 7000; ARaise Scripts.timed_out;
                             ATime 8000; ARaise Scripts.timed_out]))
                  (mk_exn RuntimeError
                     "Could not locate input/textarea for label: IC Number (timed out)")
                  ltac:(lia))).
  change (inr (mk_exn RuntimeError
                 "Could not locate input/textarea for label: IC Number (timed out)"))
    with (snd (run (by_label_input "IC Number" 6)
                   [ATime 0; ATime 0; ARaise Scripts.timed_out;
                    ATime 6000; ARaise Scripts.timed_out;
                    ATime 7000; ARaise Scripts.timed_out;
                    ATime 8000; ARaise Scripts.timed_out])).
  apply run_exec.
Defined.

Lemma retry_loop_fall_through (body : prog bool) (label : string) (n : nat)
    (last : option exn) (t tr : list event) (res : result bool) :
  exec body t (inl false) ->
  exec (retry_loop body label n last) tr res ->
  exec (retry_loop body label (Datatypes.S n) last) (t ++ tr) res.
Proof.
  intros Hbody Hrest. cbn [retry_loop]. apply exec_bind. left.
  exists t, FallThrough, tr. repeat split; [| exact Hrest].
  apply exec_try. left. exists FallThrough. split; [| reflexivity].
  apply exec_bind. left. exists t, false, []. rewrite app_nil_r.
  repeat split. exact Hbody.
Qed.

Lemma retry_loop_all_fall_through (body : prog bool) (label : string)
    (last : option exn) (trs : list (list event)) :
  Forall (fun t => exec body t (inl false)) trs ->
  exec (retry_loop body label (List.length trs) last)
       (concat trs
        ++ [Ev (Print ("[WARN] " ++ label ++ ": " ++ str_last_err last)) (inl tt)])
       (inl false).
Proof.
  induction 1 as [| t trs Ht _ IH]; cbn [concat List.length].
  - cbn. exists (inl tt), []. cbn. auto.
  - rewrite <- app_assoc. now apply retry_loop_fall_through.
Qed.

Lemma fill_text_attempt_false (label value : string) (tr : list event) :
  exec (fill_text_attempt label value) tr (inl false) ->
  exists tr0 el v,
    tr = (tr0 ++ [Ev (Clear el) (inl tt); Ev (SendKeys el value) (inl tt);
                  Ev (GetValue el) (inl v)])%list
    /\ strip (str_val v) <> strip value.
Proof.
  unfold fill_text_attempt. intros H.
  apply exec_bind in H as [(tr1 & el & tr2 & Hloc & H & ->) | (e & _ & H)];
    [| discriminate].
  exec_step H as r1 t1. destruct r1 as [[] | x]; cbn [bind exec] in H;
    [| destruct H; discriminate].
  exec_step H as r2 t2. destruct r2 as [[] | x]; cbn [bind exec] in H;
    [| destruct H; discriminate].
  exec_step H as r3 t3. destruct r3 as [[] | x]; cbn [bind exec] in H;
    [| destruct H; discriminate].
  exec_step H as r4 t4. destruct r4 as [[] | x]; cbn [bind exec] in H;
    [| destruct H; discriminate].
  exec_step H as r5 t5. destruct r5 as [v | x]; cbn [bind exec] in H;
    [| destruct H; discriminate].
  destruct H as [-> H]. injection H as H. symmetry in H.
  apply String.eqb_neq in H.
  exists (tr1 ++ [Ev (RemoveReadonly el) (inl tt); Ev (ScrollIntoView el) (inl tt)])%list,
    el, v.
  split; [| exact H]. rewrite <- app_assoc. reflexivity.
Qed.

(** X14.  A read-back that differs from the intended value is not
    recorded as an error: an attempt that returns without success ended
    with a read-back whose trimmed text differs from the trimmed value,
    and when every one of the [retries] attempts ends this way,
    [fill_text_with_retry] returns [False] with a warning that names
    [None] as the error. *)
Theorem fill_text_mismatch_warns_none :
  forall (label value : string) (retries : Z) (trs : list (list event)),
    Forall (fun t => exec (fill_text_attempt label value) t (inl false)) trs ->
    List.length trs = Z.to_nat retries ->
    Forall (fun t =>
              exists tr0 el v,
                t = (tr0 ++ [Ev (Clear el) (inl tt);
                             Ev (SendKeys el value) (inl tt);
                             Ev (GetValue el) (inl v)])%list
                /\ strip (str_val v) <> strip value) trs
    /\ exec (fill_text_with_retry label value retries)
            (concat trs ++ [Ev (Print ("[WARN] " ++ label ++ ": None")) (inl tt)])
            (inl false).
Proof.
  intros label value retries trs Hall Hlen. split.
  - revert Hall. apply Forall_impl. intros t. apply fill_text_attempt_false.
  - unfold fill_text_with_retry. rewrite <- Hlen.
    exact (retry_loop_all_fall_through _ label None trs Hall).
Qed.

Lemma fill_text_mismatch_warns_none_witness :
  exec (fill_text_with_retry "IC Number" "S1234567A" 1)
       (concat [fst (run (fill_text_attempt "IC Number" "S1234567A")
                         [ATime 0; ATime 0; AElem 7; AUnit; AUnit; AUnit; AUnit;
                          AUnit; AValue (PyStr "S123")])]
        ++ [Ev (Print ("[WARN] " ++ "IC Number" ++ ": None")) (inl tt)])
       (inl false).
Proof.
  apply (fill_text_mismatch_warns_none "IC Number" "S1234567A" 1
           [fst (run (fill_text_attempt "IC Number" "S1234567A")
                     [ATime 0; ATime 0; AElem 7; AUnit; AUnit; AUnit; AUnit;
                      AUnit; AValue (PyStr "S123")])]).
  - constructor; [| constructor].
    change (inl false) with
      (snd (run (fill_text_attempt "IC Number" "S1234567A")
                [ATime 0; ATime 0; AElem 7; AUnit; AUnit; AUnit; AUnit;
                 AUnit; AValue (PyStr "S123")])).
    apply run_exec.
  - reflexivity.
Defined.

Lemma retry_loop_typed_bound (body : prog bool) (label : string) (n : nat)
    (last : option exn) (tr : list event) (res : result bool) :
  (forall t r, exec body t r -> List.length (typed_keys t) <= 1) ->
  exec (retry_loop body label n last) tr res ->
  List.length (typed_keys tr) <= n.
Proof.
  intros Hbody. revert last tr. induction n as [| n IH]; intros last tr H;
    cbn [retry_loop] in H.
  - apply warn_and_fail_false in H as [-> _]. cbn. lia.
  - assert (forall t f, exec (try_except
                                (ok <- body ;; Ret (if ok then ReturnTrue else FallThrough))
                                retry_handler) t f ->
                        List.length (typed_keys t) <= 1) as Htry.
    { intros t f Ht.
      apply exec_try in Ht as [(a & Hb & _) | (t1 & e & t2 & Hb & Hh & ->)].
      - apply exec_bind in Hb as [(tb & ok & tb' & Hb & [-> _] & ->) | (e & Hb & _)].
        + rewrite app_nil_r. eauto.
        + eauto.
      - apply exec_bind in Hb as [(tb & ok & tb' & _ & [_ Hb] & _) | (e' & Hb & _)];
          [discriminate |].
        rewrite typed_keys_app, length_app.
        assert (typed_keys t2 = []) as ->.
        { unfold retry_handler, wait_dom_idle in Hh.
          destruct (is_transient e); [| destruct Hh as [-> _]; reflexivity].
          exec_step Hh as r1 u1. destruct r1 as [[] | y]; cbn [bind exec] in Hh;
            [| destruct Hh as [-> _]; reflexivity].
          exec_step Hh as r2 u2. destruct r2 as [[] | y]; cbn [bind exec] in Hh;
            destruct Hh as [-> _]; reflexivity. }
        cbn. specialize (Hbody _ _ Hb). lia. }
    apply exec_bind in H as [(tr1 & f & tr2 & H1 & H2 & ->) | (e & H1 & _)].
    + rewrite typed_keys_app, length_app. specialize (Htry _ _ H1).
      destruct f as [| | e | e].
      * destruct H2 as [-> _]. cbn. lia.
      * specialize (IH _ _ H2). lia.
      * specialize (IH _ _ H2). lia.
      * apply warn_and_fail_false in H2 as [-> _]. cbn. lia.
    + specialize (Htry _ _ H1). lia.
Qed.

Lemma fill_text_attempt_types_once (label value : string) (tr : list event)
    (res : result bool) :
  exec (fill_text_attempt label value) tr res ->
  List.length (typed_keys tr) <= 1.
Proof.
  unfold fill_text_attempt. intros H.
  apply exec_bind in H as [(tr1 & el & tr2 & Hloc & H & ->) | (e & Hloc & _)].
  2:{ rewrite (by_label_input_types_nothing _ _ _ _ Hloc). cbn. lia. }
  rewrite typed_keys_app, (by_label_input_types_nothing _ _ _ _ Hloc).
  exec_step H as r1 t1. destruct r1 as [[] | x]; cbn [bind exec] in H;
    [| destruct H as [-> _]; cbn; lia].
  exec_step H as r2 t2. destruct r2 as [[] | x]; cbn [bind exec] in H;
    [| destruct H as [-> _]; cbn; lia].
  exec_step H as r3 t3. destruct r3 as [[] | x]; cbn [bind exec] in H;
    [| destruct H as [-> _]; cbn; lia].
  exec_step H as r4 t4. destruct r4 as [[] | x]; cbn [bind exec] in H;
    [| destruct H as [-> _]; cbn; lia].
  exec_step H as r5 t5. destruct r5 as [v | x]; cbn [bind exec] in H;
    destruct H as [-> _]; cbn; lia.
Qed.

(** X15.  In any run, [fill_text_with_retry] types at most [retries]
    times, and what it types is always the value it was given;
    [select_with_retry] never types. *)
Theorem setters_type_only_the_value :
  forall (label value : string) (retries : Z) (tr : list event)
         (res : result bool),
    (exec (fill_text_with_retry label value retries) tr res ->
     List.length (typed_keys tr) <= Z.to_nat retries
     /\ Forall (eq value) (typed_keys tr))
    /\ (exec (select_with_retry label value retries) tr res ->
        typed_keys tr = []).
Proof.
  intros label value retries tr res. split; intros H.
  - split.
    + unfold fill_text_with_retry in H.
      eapply retry_loop_typed_bound; [| exact H].
      intros t r. apply fill_text_attempt_types_once.
    + apply typed_keys_satisfy.
      exact (emits_fill_text_with_retry (keys_satisfy (eq value)) (eq value)
               (keys_satisfy_plain _) (keys_satisfy_keys _)
               label value retries eq_refl _ _ H).
  - apply typed_keys_none.
    exact (emits_select_with_retry (keys_satisfy (fun _ => False))
             (keys_satisfy_plain _) label value retries _ _ H).
Qed.

Lemma setters_type_only_the_value_witness :
  List.length
    (typed_keys (fst (run (fill_text_with_retry "IC Number" "S1234567A" 3)
                          Scripts.typed_and_read_back)))
  <= Z.to_nat 3
  /\ Forall (eq "S1234567A")
       (typed_keys (fst (run (fill_text_with_retry "IC Number" "S1234567A" 3)
                             Scripts.typed_and_read_back))).
Proof.
  apply (proj1 (setters_type_only_the_value "IC Number" "S1234567A" 3
                  (fst (run (fill_text_with_retry "IC Number" "S1234567A" 3)
                            Scripts.typed_and_read_back))
                  (snd (run (fill_text_with_retry "IC Number" "S1234567A" 3)
                            Scripts.typed_and_read_back)))).
  apply run_exec.
Defined.

(** ** Loops with a stop check at the head of every iteration *)

Lemma stop_check_is_not_plain (r : result bool) (tr : list event) :
  Forall not_stop_check tr -> ~ In (Ev StopCheck r) tr.
Proof.
  intros Hall Hin. rewrite Forall_forall in Hall.
  specialize (Hall _ Hin). discriminate.
Qed.

(** Where a stop check lies in a trace that starts with plain events. *)
Lemma stop_check_after_plain (l1 l2 pre post : list event) (r : result bool) :
  Forall not_stop_check l1 ->
  (l1 ++ l2 = pre ++ Ev StopCheck r :: post)%list ->
  exists pre', pre = (l1 ++ pre')%list /\ l2 = (pre' ++ Ev StopCheck r :: post)%list.
Proof.
  intros Hall. revert pre. induction l1 as [| x l1 IH]; intros pre Heq.
  - exists pre. auto.
  - inversion Hall as [| ? ? Hx Hl1]; subst.
    destruct pre as [| y pre]; cbn in Heq.
    + apply (f_equal (fun l => match l with e :: _ => event_is_stop_check e | [] => false end))
        in Heq. cbn in Heq. unfold not_stop_check in Hx. congruence.
    + injection Heq as <- Heq.
      destruct (IH Hl1 _ Heq) as (pre' & -> & ->). exists pre'. auto.
Qed.

Lemma no_stop_check_in_plain (tr pre post : list event) (r : result bool) :
  Forall not_stop_check tr -> tr <> (pre ++ Ev StopCheck r :: post)%list.
Proof.
  intros Hall Heq. apply (stop_check_is_not_plain r) in Hall. apply Hall.
  rewrite Heq. apply in_elt.
Qed.

Lemma raised_last_prepend (from : event -> bool) (l1 l2 : list event) (e : exn) :
  raised_last from l2 e -> raised_last from (l1 ++ l2) e.
Proof.
  intros (tr0 & ev & -> & Hr & Hf). exists (l1 ++ tr0)%list, ev.
  rewrite app_assoc. auto.
Qed.

Lemma raised_last_session_orchestration (tr : list event) (e : exn) :
  raised_last event_from_session tr e ->
  raised_last event_from_orchestration tr e.
Proof.
  intros (tr0 & ev & -> & Hr & Hf). exists tr0, ev. repeat split; auto.
  destruct ev as [X c r]. destruct c; cbn in *; congruence.
Qed.

Lemma stop_outcome_prepend (l1 l2 : list event) (res : result bool) :
  Forall not_stop_check l1 -> stop_outcome l2 res -> stop_outcome (l1 ++ l2) res.
Proof.
  intros Hplain (HA & HB & HC). repeat split.
  - intros pre post Heq.
    destruct (stop_check_after_plain _ _ _ _ _ Hplain Heq) as (pre' & -> & ->).
    eapply HA. reflexivity.
  - intros Hres. destruct (HB Hres) as (pre & ->).
    exists (l1 ++ pre)%list. now rewrite app_assoc.
  - intros e Hres. apply raised_last_prepend. auto.
Qed.

Lemma stop_outcome_raise (tr : list event) (e : exn) :
  Forall not_stop_check tr ->
  raised_last event_from_session tr e ->
  stop_outcome tr (inr e).
Proof.
  intros Hplain Hlast. repeat split.
  - intros pre post Heq. now apply no_stop_check_in_plain in Heq.
  - discriminate.
  - intros e' H. now injection H as <-.
Qed.

Lemma stop_outcome_done : stop_outcome [] (inl false).
Proof.
  repeat split.
  - intros pre post Heq. destruct pre; discriminate.
  - discriminate.
  - discriminate.
Qed.

Lemma in_stop_protocol_ret_false : in_stop_protocol (Ret false).
Proof. intros tr res [-> ->]. apply stop_outcome_done. Qed.

Lemma in_stop_protocol_bind {A} (p : prog A) (f : A -> prog bool) :
  plain_step p -> (forall a, in_stop_protocol (f a)) ->
  in_stop_protocol (bind p f).
Proof.
  intros Hp Hf tr res H.
  apply exec_bind in H as [(tr1 & a & tr2 & H1 & H2 & ->) | (e & H1 & ->)].
  - apply stop_outcome_prepend; [apply (Hp _ _ H1) | exact (Hf _ _ _ H2)].
  - destruct (Hp _ _ H1) as [Hplain Hraise]. apply stop_outcome_raise; auto.
Qed.

Lemma status_is_no_stop_check (msg : string) (a : result unit)
    (r : result bool) : Ev (StatusCb msg) a <> Ev StopCheck r.
Proof.
  intros H. apply (f_equal event_is_stop_check) in H. discriminate.
Qed.

Lemma in_stop_protocol_checked (q : prog bool) :
  in_stop_protocol q ->
  in_stop_protocol
    (stop <- trigger StopCheck ;;
     if (stop : bool) then trigger (StatusCb stopped_msg) ;; Ret true else q).
Proof.
  intros Hq tr res H. exec_step H as r t.
  destruct r as [[|] | e]; cbn [bind exec] in H.
  - (* the stop was requested *)
    exec_step H as a t'.
    assert (t' = [] /\ res = match a with inl _ => inl true | inr x => inr x end)
      as [-> ->] by (destruct a as [[] | x]; cbn [bind exec] in H; exact H).
    repeat split.
    + intros pre post Heq. destruct pre as [| y pre]; cbn in Heq.
      * apply stop_check_answer in Heq as [_ <-]. eauto.
      * injection Heq as _ Heq. destruct pre as [| z pre]; cbn in Heq.
        -- apply (f_equal (hd (Ev StopCheck (inl true)))) in Heq. cbn in Heq.
           now apply status_is_no_stop_check in Heq.
        -- injection Heq as _ Heq. destruct pre; discriminate.
    + intros Hres. destruct a as [[] | x]; [| discriminate]. now exists [].
    + intros e Hres. destruct a as [u | x]; [discriminate |].
      injection Hres as <-.
      exists [Ev StopCheck (inl true)], (Ev (StatusCb stopped_msg) (inr x)). auto.
  - (* no stop: the iteration runs *)
    destruct (Hq _ _ H) as (HA & HB & HC). repeat split.
    + intros pre post Heq. destruct pre as [| y pre]; cbn in Heq.
      * apply stop_check_answer in Heq as [Heq _]. discriminate.
      * injection Heq as _ Heq. eapply HA. exact Heq.
    + intros Hres. destruct (HB Hres) as (pre & ->).
      now exists (Ev StopCheck (inl false) :: pre).
    + intros e Hres. apply (raised_last_prepend _ [Ev StopCheck (inl false)]). auto.
  - (* the stop check itself raised *)
    destruct H as [-> ->]. repeat split.
    + intros pre post Heq. destruct pre as [| y pre]; cbn in Heq.
      * apply stop_check_answer in Heq as [Heq _]. discriminate.
      * injection Heq as _ Heq. destruct pre; discriminate.
    + discriminate.
    + intros e' Hres. injection Hres as <-.
      exists [], (Ev StopCheck (inr e)). auto.
Qed.

(** *** Steps between two stop checks *)

Lemma plain_step_ret {A} (a : A) : plain_step (Ret a).
Proof.
  intros tr res [-> ->]. split; [constructor | discriminate].
Qed.

Lemma plain_step_session {X} (c : call X) :
  is_session_call c = true -> is_stop_call c = false -> plain_step (trigger c).
Proof.
  intros Hs Hn tr res H. apply exec_trigger in H as [_ ->]. split.
  - constructor; [exact Hn | constructor].
  - intros e ->. exists [], (Ev c (inr e)). auto.
Qed.

Lemma plain_step_print (line : string) : plain_step (trigger (Print line)).
Proof.
  intros tr res H. apply exec_trigger in H as [Hv ->]. split.
  - constructor; [reflexivity | constructor].
  - intros e ->. cbn in Hv. discriminate.
Qed.

Lemma plain_step_bind {A B} (p : prog A) (f : A -> prog B) :
  plain_step p -> (forall a, plain_step (f a)) -> plain_step (bind p f).
Proof.
  intros Hp Hf tr res H.
  apply exec_bind in H as [(tr1 & a & tr2 & H1 & H2 & ->) | (e & H1 & ->)].
  - destruct (Hp _ _ H1) as [Hp1 _]. destruct (Hf _ _ _ H2) as [Hp2 Hr2]. split.
    + apply Forall_app. auto.
    + intros e Hres. apply raised_last_prepend. auto.
  - destruct (Hp _ _ H1) as [Hp1 Hr1]. split; [exact Hp1 |].
    intros e' Hres. injection Hres as <-. now apply Hr1.
Qed.

(** A field or document operation inside its [try]: whatever it raises
    is printed, so the step cannot raise. *)
Lemma plain_step_protected (p : prog unit) (line : exn -> string) :
  emits not_stop_check p ->
  plain_step (try_except p (fun e => trigger (Print (line e)))).
Proof.
  intros Hp tr res H.
  apply exec_try in H as [(a & H1 & ->) | (tr1 & e & tr2 & H1 & H2 & ->)].
  - split; [exact (Hp _ _ H1) | discriminate].
  - apply exec_trigger in H2 as [Hv ->]. split.
    + apply Forall_app. split; [exact (Hp _ _ H1) |].
      constructor; [reflexivity | constructor].
    + intros e' ->. cbn in Hv. discriminate.
Qed.

Lemma field_loop_in_stop_protocol (r : row)
    (entries : list (string * (string * string))) :
  in_stop_protocol (field_loop r entries).
Proof.
  induction entries as [| [label [field_type colname]] rest IH];
    cbn [field_loop]; [apply in_stop_protocol_ret_false |].
  apply in_stop_protocol_checked.
  destruct (row_get r colname) as [raw |]; [| exact IH].
  cbv zeta. destruct (negb (truthy _)); [exact IH |].
  apply in_stop_protocol_bind; [now apply plain_step_session | intros _].
  apply in_stop_protocol_bind; [now apply plain_step_session | intros _].
  apply in_stop_protocol_bind; [| intros _; exact IH].
  apply (plain_step_protected _ (fun e => "[WARN] " ++ label ++ ": " ++ str_exn e)).
  apply (emits_set_field not_stop_check (fun _ => True)
           not_stop_check_plain not_stop_check_keys). exact I.
Qed.

Lemma upload_loop_in_stop_protocol (fs : FileSystem) (folder name : string)
    (slots : list (string * string)) :
  in_stop_protocol (upload_loop fs folder name slots).
Proof.
  induction slots as [| [label code] rest IH];
    cbn [upload_loop]; [apply in_stop_protocol_ret_false |].
  apply in_stop_protocol_checked.
  apply in_stop_protocol_bind; [now apply plain_step_session | intros _].
  apply in_stop_protocol_bind; [now apply plain_step_session | intros _].
  destruct (find_pdf_by_prefix fs (Some folder) code name) as [fpath |].
  - destruct (truthy fpath).
    + apply in_stop_protocol_bind; [| intros _; exact IH].
      apply (plain_step_protected _
               (fun e => "[WARN] Could not upload " ++ label ++ ": " ++ str_exn e)).
      apply (emits_upload_one not_stop_check (fun _ => True)
               not_stop_check_plain not_stop_check_keys). exact I.
    + apply in_stop_protocol_bind; [apply plain_step_print | intros _; exact IH].
  - apply in_stop_protocol_bind; [apply plain_step_print | intros _; exact IH].
Qed.

(** ** How a run of the form filler ends *)

Section RunOutcome.

Variable listing_failed : exn -> Prop.

Lemma run_outcome_prepend (l1 l2 : list event) (res : result unit) :
  Forall not_stop_check l1 ->
  run_outcome listing_failed l2 res ->
  run_outcome listing_failed (l1 ++ l2) res.
Proof.
  intros Hplain (HA & HB & HC). repeat split.
  - intros pre post Heq.
    destruct (stop_check_after_plain _ _ _ _ _ Hplain Heq) as (pre' & -> & ->).
    eapply HA. reflexivity.
  - intros Hres. destruct (HB Hres) as [(pre & ->) | (pre & ->)];
      [left | right]; exists (l1 ++ pre)%list; now rewrite app_assoc.
  - intros e Hres. destruct (HC e Hres) as [H | H]; [left | right; exact H].
    now apply raised_last_prepend.
Qed.

Lemma run_outcome_raise (tr : list event) (e : exn) :
  Forall not_stop_check tr ->
  raised_last event_from_orchestration tr e \/ listing_failed e ->
  run_outcome listing_failed tr (inr e).
Proof.
  intros Hplain Hlast. repeat split.
  - intros pre post Heq. now apply no_stop_check_in_plain in Heq.
  - discriminate.
  - intros e' H. now injection H as <-.
Qed.

(** The loop stopped or raised: the run ends with it. *)
Lemma run_outcome_of_loop (tr : list event) (res : result bool) :
  stop_outcome tr res ->
  res <> inl false ->
  run_outcome listing_failed tr
    (match res with inl _ => inl tt | inr e => inr e end).
Proof.
  intros (HA & HB & HC) Hres. repeat split.
  - intros pre post Heq. destruct (HA _ _ Heq) as (a & -> & ->).
    exists a. split; [reflexivity |]. destruct a; reflexivity.
  - destruct res as [[|] | e]; intros Hr; [| congruence | discriminate].
    left. now apply HB.
  - intros e He. destruct res as [b | x]; [discriminate |].
    injection He as <-. left. apply raised_last_session_orchestration. now apply HC.
Qed.

(** The loop ran through: the run goes on. *)
Lemma run_outcome_after_loop (t1 t2 : list event) (res : result unit) :
  stop_outcome t1 (inl false) ->
  run_outcome listing_failed t2 res ->
  run_outcome listing_failed (t1 ++ t2) res.
Proof.
  intros (HA1 & _ & _) (HA & HB & HC). repeat split.
  - intros pre post Heq. apply app_eq_app in Heq as (l & [[-> Heq] | [-> ->]]).
    + destruct l as [| x l]; cbn in Heq.
      * apply (HA []). now rewrite <- Heq.
      * apply (f_equal (fun t => (hd x t, tl t))) in Heq. cbn in Heq.
        injection Heq as <- ->.
        destruct (HA1 _ _ eq_refl) as (a & _ & Ha). destruct a; discriminate.
    + eapply HA. reflexivity.
  - intros Hres. destruct (HB Hres) as [(pre & ->) | (pre & ->)];
      [left | right]; exists (t1 ++ pre)%list; now rewrite app_assoc.
  - intros e Hres. destruct (HC e Hres) as [H | H]; [left | right; exact H].
    now apply raised_last_prepend.
Qed.

Lemma final_notification_outcome (tr : list event) (res : result unit) :
  exec (trigger (StatusCb "All fields filled. Please review and submit on the site.") ;;
        trigger (ShowInfo "Done"
                   "Form fields filled. Please review and submit on the site if needed."))
       tr res ->
  run_outcome listing_failed tr res.
Proof.
  intros H. exec_step H as r1 t1. destruct r1 as [[] | e]; cbn [bind exec] in H.
  - apply exec_trigger in H as [_ ->]. repeat split.
    + intros pre post Heq. exfalso. revert Heq. apply no_stop_check_in_plain.
      repeat constructor.
    + intros ->. right. now exists [].
    + intros e ->. left.
      eexists [_], _. repeat split; reflexivity.
  - destruct H as [-> ->]. apply run_outcome_raise; [repeat constructor |].
    left. eexists [], _. repeat split; reflexivity.
Qed.

Lemma fields_then_notification_outcome (r : row)
    (entries : list (string * (string * string))) (tr : list event)
    (res : result unit) :
  exec (returned' <- field_loop r entries ;;
        if (returned' : bool) then Ret tt
        else
          trigger (StatusCb "All fields filled. Please review and submit on the site.") ;;
          trigger (ShowInfo "Done"
                     "Form fields filled. Please review and submit on the site if needed."))
       tr res ->
  run_outcome listing_failed tr res.
Proof.
  intros H.
  apply exec_bind in H as [(tr1 & b & tr2 & H1 & H2 & ->) | (e & H1 & ->)].
  - pose proof (field_loop_in_stop_protocol _ _ _ _ H1) as Hloop.
    destruct b.
    + destruct H2 as [-> ->]. rewrite app_nil_r.
      apply (run_outcome_of_loop _ (inl true)); [exact Hloop | discriminate].
    + apply run_outcome_after_loop; [exact Hloop |].
      now apply final_notification_outcome.
  - pose proof (field_loop_in_stop_protocol _ _ _ _ H1) as Hloop.
    apply (run_outcome_of_loop _ (inr e)); [exact Hloop | discriminate].
Qed.

End RunOutcome.

(** The upload phase: plain calls, then either nothing, or the upload
    loop, or the failed listing of the base directory. *)
Lemma upload_phase_outcome (fs : FileSystem) (base_dir person_name : option string)
    (tr : list event) (res : result bool) :
  exec (upload_phase fs base_dir person_name) tr res ->
  exists t0 t1,
    tr = (t0 ++ t1)%list
    /\ Forall not_stop_check t0
    /\ (stop_outcome t1 res
        \/ (t1 = []
            /\ exists e dir name,
                res = inr e /\ base_dir = Some dir /\ person_name = Some name
                /\ find_person_folder fs dir name = inr e)).
Proof.
  assert (forall line tr res,
             exec (trigger (Print line) ;; Ret false) tr res ->
             exists t0 t1,
               tr = (t0 ++ t1)%list /\ Forall not_stop_check t0
               /\ (stop_outcome t1 res
                   \/ (t1 = []
                       /\ exists e dir name,
                           res = inr e /\ base_dir = Some dir
                           /\ person_name = Some name
                           /\ find_person_folder fs dir name = inr e))) as Hskip.
  { intros line t r H. exec_step H as r1 t1.
    destruct r1 as [[] | e]; cbn [bind exec] in H; [| cbn in Hvalid; discriminate].
    destruct H as [-> ->]. exists [Ev (Print line) (inl tt)], [].
    repeat split; [repeat constructor | left; apply stop_outcome_done]. }
  unfold upload_phase. intros H.
  destruct base_dir as [dir |]; [| now apply Hskip in H].
  destruct person_name as [name |]; [| now apply Hskip in H].
  destruct (truthy dir && truthy name); [| now apply Hskip in H].
  exec_step H as r1 t1. destruct r1 as [[] | e]; cbn [bind exec] in H.
  2:{ destruct H as [-> ->].
      exists [], [Ev (StatusCb "Locating person folder for PDFs…") (inr e)].
      repeat split; [constructor | left].
      apply stop_outcome_raise; [repeat constructor |].
      eexists [], _. repeat split; reflexivity. }
  exec_step H as r2 t2. destruct r2 as [[] | e]; cbn [bind exec] in H.
  2:{ destruct H as [-> ->].
      exists [Ev (StatusCb "Locating person folder for PDFs…") (inl tt)],
        [Ev PauseCheck (inr e)].
      repeat split; [repeat constructor | left].
      apply stop_outcome_raise; [repeat constructor |].
      eexists [], _. repeat split; reflexivity. }
  destruct (find_person_folder fs dir name) as [folder | e] eqn:Hfind;
    cbn [lift_result bind exec] in H.
  2:{ destruct H as [-> ->].
      exists [Ev (StatusCb "Locating person folder for PDFs…") (inl tt);
              Ev PauseCheck (inl tt)], [].
      repeat split; [repeat constructor | right].
      split; [reflexivity |]. exists e, dir, name. auto. }
  assert (forall t r,
             exec (trigger (Print ("[WARN] No folder found for '" ++ name
                                   ++ "' under " ++ dir)) ;; Ret false) t r ->
             exists t0 t1,
               Ev (StatusCb "Locating person folder for PDFs…") (inl tt)
               :: Ev PauseCheck (inl tt) :: t = (t0 ++ t1)%list
               /\ Forall not_stop_check t0
               /\ (stop_outcome t1 r
                   \/ (t1 = []
                       /\ exists e dir0 name0,
                           r = inr e /\ Some dir = Some dir0
                           /\ Some name = Some name0
                           /\ find_person_folder fs dir0 name0 = inr e))) as Hwarn.
  { intros t r Ht. exec_step Ht as r3 t3.
    destruct r3 as [[] | e]; cbn [bind exec] in Ht; [| cbn in Hvalid; discriminate].
    destruct Ht as [-> ->].
    exists [Ev (StatusCb "Locating person folder for PDFs…") (inl tt);
            Ev PauseCheck (inl tt);
            Ev (Print ("[WARN] No folder found for '" ++ name ++ "' under " ++ dir))
               (inl tt)], [].
    repeat split; [repeat constructor | left; apply stop_outcome_done]. }
  destruct folder as [folder |]; [| now apply Hwarn].
  destruct (truthy folder); [| now apply Hwarn].
  exists [Ev (StatusCb "Locating person folder for PDFs…") (inl tt);
          Ev PauseCheck (inl tt)], t2.
  repeat split; [repeat constructor | left].
  exact (upload_loop_in_stop_protocol _ _ _ _ _ _ H).
Qed.

(** The outcome of every run of [fill_otms_form]. *)
Lemma fill_otms_form_outcome (fs : FileSystem) (url : string) (r : row)
    (base_dir : option string) (tr : list event) (res : result unit) :
  exec (fill_otms_form fs url r base_dir) tr res ->
  run_outcome
    (fun e => exists dir name,
         base_dir = Some dir
         /\ person_name_from r name_columns = Some name
         /\ find_person_folder fs dir name = inr e)
    tr res.
Proof.
  unfold fill_otms_form. intros H.
  apply exec_bind in H as [(t_nav & u & tr' & Hnav & H & ->) | (e & Hnav & ->)].
  - assert (Forall not_stop_check t_nav) as Hplain.
    { destruct (truthy url); [| destruct Hnav as [-> _]; constructor].
      revert Hnav. generalize t_nav (@inl unit exn u).
      change (emits not_stop_check
                (trigger (StatusCb "Navigating to target page…") ;;
                 trigger PauseCheck ;; trigger (DriverGet url))).
      repeat first [ apply emits_trigger; intros ?; reflexivity
                   | apply emits_bind; [| intros ?] ]. }
    apply run_outcome_prepend; [exact Hplain |]. clear Hnav Hplain.
    apply exec_bind in H as [(t_up & b & t_rest & Hup & H & ->) | (e & Hup & ->)].
    + apply upload_phase_outcome in Hup
        as (t0 & t1 & -> & Hplain & [Hloop | (_ & e & _ & _ & He & _)]);
        [| discriminate].
      rewrite <- app_assoc. apply run_outcome_prepend; [exact Hplain |].
      destruct b.
      * destruct H as [-> ->]. rewrite app_nil_r.
        apply (run_outcome_of_loop _ _ (inl true)); [exact Hloop | discriminate].
      * apply run_outcome_after_loop; [exact Hloop |].
        exact (fields_then_notification_outcome _ r mapping _ _ H).
    + apply upload_phase_outcome in Hup
        as (t0 & t1 & -> & Hplain & [Hloop | (-> & e' & dir & name & He & Hb & Hn & Hf)]).
      * apply run_outcome_prepend; [exact Hplain |].
        apply (run_outcome_of_loop _ _ (inr e)); [exact Hloop | discriminate].
      * injection He as <-. apply run_outcome_raise.
        -- rewrite app_nil_r. exact Hplain.
        -- right. exists dir, name. auto.
  - destruct (truthy url); [| destruct Hnav; discriminate].
    exec_step Hnav as r1 t1. destruct r1 as [[] | x]; cbn [bind exec] in Hnav.
    2:{ destruct Hnav as [-> Hx]. injection Hx as <-.
        apply run_outcome_raise; [repeat constructor |].
        left. eexists [], _. repeat split; reflexivity. }
    exec_step Hnav as r2 t2. destruct r2 as [[] | x]; cbn [bind exec] in Hnav.
    2:{ destruct Hnav as [-> Hx]. injection Hx as <-.
        apply run_outcome_raise; [repeat constructor |].
        left. eexists [_], _. repeat split; reflexivity. }
    apply exec_trigger in Hnav as [_ ->].
    apply run_outcome_raise; [repeat constructor |].
    left. eexists [_; _], _. repeat split; reflexivity.
Qed.

(** X16.  No field or document operation can abort a run of
    [fill_otms_form]: when the run raises, the exception was raised by
    the last call made, and that call is one the form filler makes
    itself (a status report, a pause or stop check, the navigation, the
    final notification), or else it is the exception of listing the base
    directory while the person folder is looked up. *)
Theorem form_filler_fatal_errors :
  forall (fs : FileSystem) (url : string) (r : row) (base_dir : option string)
         (tr : list event) (e : exn),
    exec (fill_otms_form fs url r base_dir) tr (inr e) ->
    (exists tr0 ev,
        tr = (tr0 ++ [ev])%list
        /\ event_raised ev = Some e
        /\ event_from_orchestration ev = true)
    \/ (exists dir name,
           base_dir = Some dir
           /\ person_name_from r name_columns = Some name
           /\ find_person_folder fs dir name = inr e).
Proof.
  intros fs url r base_dir tr e H.
  destruct (fill_otms_form_outcome _ _ _ _ _ _ H) as (_ & _ & HC).
  exact (HC e eq_refl).
Qed.

Lemma form_filler_fatal_errors_witness :
  (exists tr0 ev,
      fst (run (fill_otms_form (MemFS.make MemFS.esf) "https://otms.example/new"
                  Scripts.john_row (Some "/esf"))
               [AUnit; AUnit; ARaise Scripts.timed_out])
      = (tr0 ++ [ev])%list
      /\ event_raised ev = Some Scripts.timed_out
      /\ event_from_orchestration ev = true)
  \/ (exists dir name,
         Some "/esf" = Some dir
         /\ person_name_from Scripts.john_row name_columns = Some name
         /\ find_person_folder (MemFS.make MemFS.esf) dir name
            = inr Scripts.timed_out).
Proof.
  apply (form_filler_fatal_errors (MemFS.make MemFS.esf)
           "https://otms.example/new" Scripts.john_row (Some "/esf")).
  change (inr Scripts.timed_out) with
    (snd (run (fill_otms_form (MemFS.make MemFS.esf) "https://otms.example/new"
                 Scripts.john_row (Some "/esf"))
              [AUnit; AUnit; ARaise Scripts.timed_out])).
  apply run_exec.
Defined.

(** X17.  [fill_otms_form] returns normally in two ways only: right
    after reporting [Stopped by user.] in answer to a stop check that
    found the stop requested, or right after the final status and the
    [Done] notification. *)
Theorem form_filler_returns_stopped_or_done :
  forall (fs : FileSystem) (url : string) (r : row) (base_dir : option string)
         (tr : list event),
    exec (fill_otms_form fs url r base_dir) tr (inl tt) ->
    (exists pre,
        tr = (pre ++ [Ev StopCheck (inl true);
                      Ev (StatusCb stopped_msg) (inl tt)])%list)
    \/ (exists pre,
           tr = (pre ++ [Ev (StatusCb "All fields filled. Please review and submit on the site.")
                            (inl tt);
                         Ev (ShowInfo "Done"
                               "Form fields filled. Please review and submit on the site if needed.")
                            (inl tt)])%list).
Proof.
  intros fs url r base_dir tr H.
  destruct (fill_otms_form_outcome _ _ _ _ _ _ H) as (_ & HB & _).
  exact (HB eq_refl).
Qed.

Lemma form_filler_returns_stopped_or_done_witness :
  (exists pre,
      fst (run (fill_otms_form (MemFS.make MemFS.esf_short) ""
                  [("sex", Value " ")] None) [])
      = (pre ++ [Ev StopCheck (inl true);
                 Ev (StatusCb stopped_msg) (inl tt)])%list)
  \/ (exists pre,
         fst (run (fill_otms_form (MemFS.make MemFS.esf_short) ""
                     [("sex", Value " ")] None) [])
         = (pre ++ [Ev (StatusCb "All fields filled. Please review and submit on the site.")
                       (inl tt);
                    Ev (ShowInfo "Done"
                          "Form fields filled. Please review and submit on the site if needed.")
                       (inl tt)])%list).
Proof.
  apply (form_filler_returns_stopped_or_done (MemFS.make MemFS.esf_short) ""
           [("sex", Value " ")] None).
  change (inl tt) with
    (snd (run (fill_otms_form (MemFS.make MemFS.esf_short) ""
                 [("sex", Value " ")] None) [])).
  apply run_exec.
Defined.

(** X18.  A stop request takes effect at whichever stop check first
    sees it, not only at the first check of the run: in every run, a
    stop check answering that the stop was requested is followed by the
    status [Stopped by user.] and by nothing else, and the function
    returns. *)
Theorem form_filler_stops_at_any_check :
  forall (fs : FileSystem) (url : string) (r : row) (base_dir : option string)
         (tr pre post : list event) (res : result unit),
    exec (fill_otms_form fs url r base_dir) tr res ->
    tr = (pre ++ Ev StopCheck (inl true) :: post)%list ->
    exists a,
      post = [Ev (StatusCb stopped_msg) a]
      /\ res = match a with inl _ => inl tt | inr e => inr e end.
Proof.
  intros fs url r base_dir tr pre post res H Heq.
  destruct (fill_otms_form_outcome _ _ _ _ _ _ H) as (HA & _ & _).
  exact (HA _ _ Heq).
Qed.

Lemma form_filler_stops_at_any_check_witness :
  exists a,
    skipn 4
      (fst (run (fill_otms_form (MemFS.make MemFS.esf_short) ""
                   [("sex", Value " ")] None)
                [AUnit; ABool false; ABool false; ABool true]))
    = [Ev (StatusCb stopped_msg) a]
    /\ snd (run (fill_otms_form (MemFS.make MemFS.esf_short) ""
                   [("sex", Value " ")] None)
                [AUnit; ABool false; ABool false; ABool true])
       = match a with inl _ => inl tt | inr e => inr e end.
Proof.
  apply (form_filler_stops_at_any_check (MemFS.make MemFS.esf_short) ""
           [("sex", Value " ")] None
           (fst (run (fill_otms_form (MemFS.make MemFS.esf_short) ""
                        [("sex", Value " ")] None)
                     [AUnit; ABool false; ABool false; ABool true]))
           (firstn 3
              (fst (run (fill_otms_form (MemFS.make MemFS.esf_short) ""
                           [("sex", Value " ")] None)
                        [AUnit; ABool false; ABool false; ABool true])))).
  - apply run_exec.
  - reflexivity.
Defined.

(** ** What the form filler looks up and types *)

Lemma truthy_nonempty (s : string) : truthy s = true <-> s <> EmptyString.
Proof. destruct s; cbn; split; congruence. Qed.



Section TypedByFormFiller.

Variable fs : FileSystem.
Variable r : row.

Ltac allowed_calls :=
  repeat first
    [ apply emits_ret
    | apply emits_lift_result
    | apply emits_trigger; intros ?; exact I
    | apply emits_bind; [| intros ?]
    | apply emits_try; [| intros ?] ].

Lemma emits_field_loop (entries : list (string * (string * string))) :
  emits (keys_satisfy (typed_allowed fs r)) (field_loop r entries).
Proof.
  induction entries as [| [label [field_type colname]] rest IH];
    cbn [field_loop]; [apply emits_ret |].
  apply emits_bind; [allowed_calls | intros stop].
  destruct stop; [allowed_calls |].
  destruct (row_get r colname) as [raw |] eqn:Hget; [| exact IH].
  cbv zeta. destruct raw as [| s]; cbn [truthy negb]; [exact IH |].
  destruct (truthy (strip s)) eqn:Ht; cbn [negb]; [| exact IH].
  apply emits_bind; [allowed_calls | intros _].
  apply emits_bind; [allowed_calls | intros _].
  apply emits_bind; [| intros _; exact IH].
  apply emits_try; [| intros e; allowed_calls].
  apply (emits_set_field (keys_satisfy (typed_allowed fs r)) (typed_allowed fs r)
           (keys_satisfy_plain _) (keys_satisfy_keys _)).
  left. exists colname, s. repeat split; [exact Hget |].
  now apply truthy_nonempty.
Qed.

Lemma emits_upload_loop (folder name : string) (slots : list (string * string)) :
  emits (keys_satisfy (typed_allowed fs r)) (upload_loop fs folder name slots).
Proof.
  induction slots as [| [label code] rest IH];
    cbn [upload_loop]; [apply emits_ret |].
  apply emits_bind; [allowed_calls | intros stop].
  destruct stop; [allowed_calls |].
  apply emits_bind; [allowed_calls | intros _].
  apply emits_bind; [allowed_calls | intros _].
  destruct (find_pdf_by_prefix fs (Some folder) code name) as [fpath |] eqn:Hfind.
  - destruct (truthy fpath).
    + apply emits_bind; [| intros _; exact IH].
      apply emits_try; [| intros e; allowed_calls].
      apply (emits_upload_one (keys_satisfy (typed_allowed fs r)) (typed_allowed fs r)
               (keys_satisfy_plain _) (keys_satisfy_keys _)).
      right. exists fpath.
      apply find_pdf_by_prefix_sound in Hfind as (_ & _ & _ & Hex).
      apply andb_true_iff in Hex as [Hf He]. auto.
    + apply emits_bind; [allowed_calls | intros _; exact IH].
  - apply emits_bind; [allowed_calls | intros _; exact IH].
Qed.

Lemma emits_fill_otms_form (url : string) (base_dir : option string) :
  emits (keys_satisfy (typed_allowed fs r)) (fill_otms_form fs url r base_dir).
Proof.
  unfold fill_otms_form.
  apply emits_bind; [destruct (truthy url); allowed_calls | intros _].
  apply emits_bind.
  - unfold upload_phase.
    destruct base_dir as [dir |]; [| allowed_calls].
    destruct (person_name_from r name_columns) as [name |]; [| allowed_calls].
    destruct (truthy dir && truthy name); [| allowed_calls].
    apply emits_bind; [allowed_calls | intros _].
    apply emits_bind; [allowed_calls | intros _].
    apply emits_bind; [allowed_calls | intros folder].
    destruct folder as [folder |]; [| allowed_calls].
    destruct (truthy folder); [apply emits_upload_loop | allowed_calls].
  - intros [|]; [apply emits_ret |].
    apply emits_bind; [apply emits_field_loop | intros [|]; allowed_calls].
Qed.

End TypedByFormFiller.

(** X20.  Everything [fill_otms_form] types into the page is either the
    trimmed, non-blank content of a cell of the row, or the absolute
    path of a regular file whose name ends in [.pdf]: a blank cell is
    never typed, and no path is typed for a document that does not
    exist. *)
Theorem form_filler_types_row_values_and_pdf_paths :
  forall (fs : FileSystem) (r : row) (url : string) (base_dir : option string)
         (tr : list event) (res : result unit),
    exec (fill_otms_form fs url r base_dir) tr res ->
    Forall (fun k =>
              (exists col s,
                  row_get r col = Some (Value s) /\ k = strip s
                  /\ k <> EmptyString)
              \/ (exists p,
                     k = abspath fs p /\ isfile fs p = true
                     /\ endswith (lower p) ".pdf" = true))
           (typed_keys tr).
Proof.
  intros fs r url base_dir tr res H.
  exact (typed_keys_satisfy _ _ (emits_fill_otms_form fs r url base_dir _ _ H)).
Qed.


Lemma form_filler_types_row_values_and_pdf_paths_witness :
  typed_keys
    (fst (run (fill_otms_form (MemFS.make MemFS.esf) "" Scripts.john_row
                 (Some "/esf")) []))
  = [ "/esf/John Smith/002 John Smith.pdf";
      "/esf/John Smith/003 passport scan.pdf" ]
  /\ Forall (fun k =>
               (exists col s,
                   row_get Scripts.john_row col = Some (Value s) /\ k = strip s
                   /\ k <> EmptyString)
               \/ (exists p,
                      k = abspath (MemFS.make MemFS.esf) p
                      /\ isfile (MemFS.make MemFS.esf) p = true
                      /\ endswith (lower p) ".pdf" = true))
            (typed_keys
               (fst (run (fill_otms_form (MemFS.make MemFS.esf) ""
                            Scripts.john_row (Some "/esf")) []))).
Proof.
  split; [reflexivity |].
  apply (form_filler_types_row_values_and_pdf_paths (MemFS.make MemFS.esf)
           Scripts.john_row "" (Some "/esf")
           (fst (run (fill_otms_form (MemFS.make MemFS.esf) ""
                        Scripts.john_row (Some "/esf")) []))
           (snd (run (fill_otms_form (MemFS.make MemFS.esf) ""
                        Scripts.john_row (Some "/esf")) []))).
  apply run_exec.
Defined.

(** ** One document upload *)

Lemma click_fallback_returns (file_input : elem) (tr : list event)
    (res : result unit) :
  exec (try_except
          (upload_btn <- trigger (FindElement file_input
              "following::input[@type='submit' or @type='button'][1]") ;;
           trigger (Click upload_btn))
          (fun _ => click_button_with_text "Upload" 10 ;; Ret tt))
       tr res ->
  res = inl tt.
Proof.
  intros H.
  apply exec_try in H as [(a & _ & ->) | (tr1 & e & tr2 & _ & H & _)];
    [now destruct a |].
  apply exec_bind in H as [(t1 & b & t2 & _ & [_ ->] & _) | (x & H & _)];
    [reflexivity |].
  unfold click_button_with_text in H.
  apply exec_try in H as [(a & _ & H) | (t1 & y & t2 & _ & [_ H] & _)];
    discriminate.
Qed.

(** X21.  Once the file path was typed into the upload control without
    error, [upload_one] always completes: it prints the [Uploaded] line
    and returns, whether or not any upload button could be found or
    clicked afterwards. *)
Theorem upload_reported_once_path_typed :
  forall (fs : FileSystem) (label fpath : string) (tr : list event)
         (res : result unit),
    exec (upload_one fs label fpath) tr res ->
    existsb event_typed_ok tr = true ->
    res = inl tt
    /\ exists tr0,
        tr = (tr0 ++ [Ev (Print ("[INFO] Uploaded " ++ label ++ ": " ++ fpath))
                         (inl tt)])%list.
Proof.
  intros fs label fpath tr res H Htyped. unfold upload_one in H.
  exec_step H as r1 t1. destruct r1 as [[] | e]; cbn [bind exec] in H;
    [| destruct H as [-> _]; discriminate].
  exec_step H as r2 t2. destruct r2 as [[] | e]; cbn [bind exec] in H;
    [| destruct H as [-> _]; discriminate].
  exec_step H as r3 t3. destruct r3 as [file_input | e]; cbn [bind exec] in H;
    [| destruct H as [-> _]; discriminate].
  exec_step H as r4 t4. destruct r4 as [[] | e]; cbn [bind exec] in H;
    [| destruct H as [-> _]; discriminate].
  apply exec_bind in H as [(ta & u & tb & Hclick & Hprint & ->) | (e & Hclick & _)].
  - apply exec_trigger in Hprint as [Hv ->].
    destruct res as [[] | e]; [| cbn in Hv; discriminate].
    split; [reflexivity |].
    exists ([Ev (StatusCb ("Uploading: " ++ label)) (inl tt);
             Ev PauseCheck (inl tt);
             Ev (WaitPresence 15
                   ("//td[normalize-space()='" ++ label
                    ++ "']/following::input[@type='file'][1]"))
                (inl file_input);
             Ev (SendKeys file_input (abspath fs fpath)) (inl tt)] ++ ta)%list.
    rewrite <- app_assoc. reflexivity.
  - apply click_fallback_returns in Hclick. discriminate.
Qed.

Lemma upload_reported_once_path_typed_witness :
  snd (run (upload_one (MemFS.make MemFS.esf) "Upload passport"
              "/esf/John Smith/003 passport scan.pdf")
           [AUnit; AUnit; AElem 3; AUnit; ARaise Scripts.timed_out;
            ARaise Scripts.timed_out])
  = inl tt
  /\ exists tr0,
      fst (run (upload_one (MemFS.make MemFS.esf) "Upload passport"
                  "/esf/John Smith/003 passport scan.pdf")
               [AUnit; AUnit; AElem 3; AUnit; ARaise Scripts.timed_out;
                ARaise Scripts.timed_out])
      = (tr0 ++ [Ev (Print ("[INFO] Uploaded " ++ "Upload passport" ++ ": "
                            ++ "/esf/John Smith/003 passport scan.pdf"))
                    (inl tt)])%list.
Proof.
  apply (upload_reported_once_path_typed (MemFS.make MemFS.esf)
           "Upload passport" "/esf/John Smith/003 passport scan.pdf").
  - apply run_exec.
  - reflexivity.
Defined.
